(** * vsphere_exporter: the metric registry and the collection pipeline

    A shallow embedding of the Prometheus exporter for VMware vCenter
    (vsphere_exporter.go, host.go, datastore.go and the by-cluster host
    collectors) and the properties of its specification.

    Layout:
    - numbers: Go's int64 wrap-around and the int64 to float64 conversion;
    - the inventory snapshots and the metric registry (getters, label
      getters, descriptors, [hostMetrics], [datastoreMetrics]);
    - a small goroutine language ([prog]) in which [Collect] and the
      collectors are written as the Go code has them, with its interleaving
      semantics over WaitGroups, the shared exporter and the shared finder;
    - the theorems. *)

From Stdlib Require Import ZArith String Lia Bool.
From stdpp Require Import base list strings relations.

Local Open Scope string_scope.
Local Open Scope list_scope.
Local Open Scope Z_scope.

(** ** Numbers *)

(** Go's int64 arithmetic wraps around. *)
Definition wrap64 (z : Z) : Z := (z + 2 ^ 63) mod 2 ^ 64 - 2 ^ 63.

(** A float64 that holds an integer is represented by that integer: every
    value the exporter reports is the conversion of an int64, or 0 or 1. *)
Definition float64 := Z.

(** [float64(x)] for an integer [x]: round to nearest, ties to even, on a
    53-bit significand.  Integers below 2^53 in magnitude are exact. *)
Definition float64_of_int (z : Z) : float64 :=
  let a := Z.abs z in
  if a <? 2 ^ 53 then z
  else
    let e := Z.log2 a - 52 in
    let q := Z.shiftr a e in
    let r := Z.land a (Z.ones e) in
    let half := Z.shiftl 1 (e - 1) in
    let q' := if r <? half then q
              else if half <? r then q + 1
              else if Z.even q then q else q + 1 in
    Z.sgn z * Z.shiftl q' e.

(** ** Inventory snapshots

    Modelled from the spec: the govmomi types [mo.HostSystem] and
    [mo.Datastore] are declared outside the repository.  A snapshot is the
    fixed subset of the reporting summary that the getters read (memory
    size, memory usage, CPU clock, CPU cores, CPU usage, connection state,
    configured name; capacity, free space, accessibility, name), all of it
    present: the snapshots are well formed. *)

Record HostHardwareSummary := {
  MemorySize : Z;       (* int64, bytes *)
  CpuMhz : Z;           (* int32 *)
  NumCpuCores : Z       (* int16 *)
}.

Record HostListSummaryQuickStats := {
  OverallCpuUsage : Z;      (* int32, MHz *)
  OverallMemoryUsage : Z    (* int32, MiB *)
}.

Record HostRuntimeInfo := { ConnectionState : string }.

Record HostConfigSummary := { ConfigName : string }.

Record HostListSummary := {
  Hardware : HostHardwareSummary;
  Runtime : HostRuntimeInfo;
  Config : HostConfigSummary;
  QuickStats : HostListSummaryQuickStats
}.

Record HostSystem := { HostSummary : HostListSummary }.

Record DatastoreSummaryT := {
  DsName : string;
  Capacity : Z;         (* int64, bytes *)
  FreeSpace : Z;        (* int64, bytes *)
  Accessible : bool
}.

Record Datastore := { DatastoreSummary : DatastoreSummaryT }.

(** ** Descriptors and constant metrics (client_golang) *)

Record Desc := {
  fqName : string;
  help : string;
  variableLabels : list string
}.

(** [prometheus.NewDesc(name, help, labels, nil)] *)
Definition NewDesc (name description : string) (labels : list string) : Desc :=
  {| fqName := name; help := description; variableLabels := labels |}.

(** [prometheus.BuildFQName]: the non-empty parts joined by underscores. *)
Definition BuildFQName (namespace subsystem name : string) : string :=
  if String.eqb name "" then ""
  else if negb (String.eqb namespace "") && negb (String.eqb subsystem "")
       then namespace +:+ "_" +:+ subsystem +:+ "_" +:+ name
  else if negb (String.eqb namespace "") then namespace +:+ "_" +:+ name
  else if negb (String.eqb subsystem "") then subsystem +:+ "_" +:+ name
  else name.

(** What travels on the channel: a descriptor, a value, the label values. *)
Record Metric := {
  desc : Desc;
  value : float64;
  labelValues : list string
}.

(** [prometheus.MustNewConstMetric(desc, GaugeValue, value, labelValues...)]:
    it panics ([None]) unless the number of label values is the number of
    label names of the descriptor. *)
Definition MustNewConstMetric (d : Desc) (v : float64) (lvs : list string)
  : option Metric :=
  if Nat.eqb (length lvs) (length (variableLabels d))
  then Some {| desc := d; value := v; labelValues := lvs |}
  else None.

(** ** Constants of vsphere_exporter.go *)

Definition namespace := "vsphere".
Definition vmwareDatastoreObjectName := "Datastore".
Definition vmwareHostObjectName := "HostSystem".
Definition esxiMetricPrefix := "esxi_".
Definition datastoreMetricPrefix := "datastore_".

(** ** The host registry (host.go) *)

Definition hostMetricGetter := HostSystem -> float64.
Definition hostLabelGetter := HostSystem -> string.

(** A Go map literal, looked up by key; a missing key yields the nil
    function, here [None]. *)
Fixpoint registry_get {V : Type} (m : list (string * V)) (key : string)
  : option V :=
  match m with
  | [] => None
  | (k, v) :: rest => if String.eqb k key then Some v else registry_get rest key
  end.

Definition hostLabelGetterFuncRegistry : list (string * hostLabelGetter) :=
  [ ("getHostName", fun h => ConfigName (Config (HostSummary h))) ].

Definition hostMetricGetterFuncRegistry : list (string * hostMetricGetter) :=
  [ ("getMemorySize",
     fun h => float64_of_int (MemorySize (Hardware (HostSummary h))));
    ("getMemoryUsage",
     fun h => float64_of_int
       (wrap64 (wrap64 (OverallMemoryUsage (QuickStats (HostSummary h)) * 1024)
                * 1024)));
    ("getCPUTotal",
     fun h => float64_of_int
       (wrap64 (CpuMhz (Hardware (HostSummary h))
                * NumCpuCores (Hardware (HostSummary h)))));
    ("getCpuUsage",
     fun h => float64_of_int (OverallCpuUsage (QuickStats (HostSummary h))));
    ("getConnectedState",
     fun h => if String.eqb (ConnectionState (Runtime (HostSummary h)))
                            "connected" then 1 else 0);
    ("getDisconnectedState",
     fun h => if String.eqb (ConnectionState (Runtime (HostSummary h)))
                            "disconnected" then 1 else 0);
    ("getNotRespondingState",
     fun h => if String.eqb (ConnectionState (Runtime (HostSummary h)))
                            "notResponding" then 1 else 0) ].

(** Array of the functions that retrieve label values. *)
Definition hostLabelValues : list (option hostLabelGetter) :=
  [ registry_get hostLabelGetterFuncRegistry "getHostName" ].

Record vsphereHostMetric := {
  hdesc : Desc;
  hmetricGetter : option hostMetricGetter;
  hlabelsGetter : list (option hostLabelGetter)
}.

Definition vsphereHostMetrics := list vsphereHostMetric.

Definition newVsphereHostMetric (name description : string)
    (labels : list string) (metricGetter : option hostMetricGetter)
    (labelsGetter : list (option hostLabelGetter)) : vsphereHostMetric :=
  {| hdesc := NewDesc name description labels;
     hmetricGetter := metricGetter;
     hlabelsGetter := labelsGetter |}.

(** ** The datastore registry (datastore.go) *)

Definition datastoreMetricGetter := Datastore -> float64.
Definition datastoreLabelGetter := Datastore -> string.

Definition datastoreLabelGetterFuncRegistry
  : list (string * datastoreLabelGetter) :=
  [ ("getDatastoreName", fun d => DsName (DatastoreSummary d)) ].

Definition datastoreMetricGetterFuncRegistry
  : list (string * datastoreMetricGetter) :=
  [ ("getCapacity", fun d => float64_of_int (Capacity (DatastoreSummary d)));
    ("getFreeSpace", fun d => float64_of_int (FreeSpace (DatastoreSummary d)));
    ("getAccessibility",
     fun d => if Bool.eqb (Accessible (DatastoreSummary d)) true
              then 1 else 0) ].

Definition datastoreLabelValues : list (option datastoreLabelGetter) :=
  [ registry_get datastoreLabelGetterFuncRegistry "getDatastoreName" ].

Record vsphereDatastoreMetric := {
  ddesc : Desc;
  dmetricGetter : option datastoreMetricGetter;
  dlabelsGetter : list (option datastoreLabelGetter)
}.

Definition vsphereDatastoreMetrics := list vsphereDatastoreMetric.

Definition newVsphereDatastoreMetric (name description : string)
    (labels : list string) (metricGetter : option datastoreMetricGetter)
    (labelsGetter : list (option datastoreLabelGetter))
  : vsphereDatastoreMetric :=
  {| ddesc := NewDesc name description labels;
     dmetricGetter := metricGetter;
     dlabelsGetter := labelsGetter |}.

(** ** The metric tables of vsphere_exporter.go

    The label names are those of the collector file the exporter is built
    with: [hostLabelNames] and [datastoreLabelNames] differ between the
    whole-inventory collectors and the by-cluster ones, the tables do
    not. *)
Section Tables.
Variable hostLabelNames : list string.
Variable datastoreLabelNames : list string.

Definition hostMetrics : vsphereHostMetrics :=
  [ newVsphereHostMetric (esxiMetricPrefix +:+ "memory_total_bytes")
      "Size of the esxi memory" hostLabelNames
      (registry_get hostMetricGetterFuncRegistry "getMemorySize")
      hostLabelValues;
    newVsphereHostMetric (esxiMetricPrefix +:+ "memory_usage_bytes")
      "Memory usage of the ESXi host" hostLabelNames
      (registry_get hostMetricGetterFuncRegistry "getMemoryUsage")
      hostLabelValues;
    newVsphereHostMetric (esxiMetricPrefix +:+ "cpu_total_mhz")
      "Total cpu available" hostLabelNames
      (registry_get hostMetricGetterFuncRegistry "getCPUTotal")
      hostLabelValues;
    newVsphereHostMetric (esxiMetricPrefix +:+ "cpu_usage_mhz")
      "CPU usage" hostLabelNames
      (registry_get hostMetricGetterFuncRegistry "getCpuUsage")
      hostLabelValues;
    newVsphereHostMetric (esxiMetricPrefix +:+ "connected_state")
      "Esxi host connected state" hostLabelNames
      (registry_get hostMetricGetterFuncRegistry "getConnectedState")
      hostLabelValues;
    newVsphereHostMetric (esxiMetricPrefix +:+ "disconnected_state")
      "Esxi host connected state" hostLabelNames
      (registry_get hostMetricGetterFuncRegistry "getDisconnectedState")
      hostLabelValues;
    newVsphereHostMetric (esxiMetricPrefix +:+ "not_responding_state")
      "Esxi host connected state" hostLabelNames
      (registry_get hostMetricGetterFuncRegistry "getNotRespondingState")
      hostLabelValues ].

Definition datastoreMetrics : vsphereDatastoreMetrics :=
  [ newVsphereDatastoreMetric (datastoreMetricPrefix +:+ "capacity_bytes")
      "Datastore capacity" datastoreLabelNames
      (registry_get datastoreMetricGetterFuncRegistry "getCapacity")
      datastoreLabelValues;
    newVsphereDatastoreMetric (datastoreMetricPrefix +:+ "free_space_bytes")
      "Datastore free space" datastoreLabelNames
      (registry_get datastoreMetricGetterFuncRegistry "getFreeSpace")
      datastoreLabelValues;
    newVsphereDatastoreMetric (datastoreMetricPrefix +:+ "accessibility")
      "Datastore connectivity status" datastoreLabelNames
      (registry_get datastoreMetricGetterFuncRegistry "getAccessibility")
      datastoreLabelValues ].
End Tables.

(** ** The inventory service

    The session with vCenter is an external collaborator: a poll sees it
    as an oracle that answers each request with a value or an error. *)

Record ManagedObjectReference := { moType : string; moValue : string }.

(** [object.Datacenter], [object.ClusterComputeResource],
    [object.HostSystem], [object.Datastore]: a reference and a name. *)
Record ManagedObject := { Reference : ManagedObjectReference; Name : string }.

Definition Datacenter := ManagedObject.
Definition ClusterComputeResource := ManagedObject.
Definition HostObject := ManagedObject.
Definition DatastoreObject := ManagedObject.

(** A Go result: the value, or an error (the message is only logged). *)
Inductive result (A : Type) : Type :=
| Ok (v : A)
| Failed.
Arguments Ok {A} v.
Arguments Failed {A}.

(** The requests the exporter sends. *)
Inductive request : Type -> Type :=
| DatacenterList : request (list Datacenter)
    (* f.DatacenterList(ctx, "*") *)
| ClusterComputeResourceList : request (list ClusterComputeResource)
    (* f.ClusterComputeResourceList(ctx, "*"): under the finder's datacenter *)
| DatastoreList : request (list DatastoreObject)
    (* f.DatastoreList(ctx, "*"): under the finder's datacenter *)
| Hosts (cluster : ClusterComputeResource) : request (list HostObject)
    (* cluster.Hosts(ctx) *)
| RetrieveHostSystems (refs : list ManagedObjectReference)
    : request (list HostSystem)
    (* pc.Retrieve(ctx, refs, ["summary"], &hs) *)
| RetrieveDatastores (refs : list ManagedObjectReference)
    : request (list Datastore)
    (* pc.Retrieve(ctx, refs, ["summary"], &ds) *)
| Properties (host : HostObject) : request HostSystem
    (* host.Properties(ctx, host.Reference(), ["summary"], &h) *)
| HostViewRetrieve : request (list HostSystem)
    (* e.hostView.Retrieve(ctx, ["HostSystem"], ["summary"], &hs) *)
| DatastoreViewRetrieve : request (list Datastore).
    (* e.datastoreView.Retrieve(ctx, ["Datastore"], ["summary"], &ds) *)

Record inventory := {
  datacenters : result (list Datacenter);
  clustersOf : option Datacenter -> result (list ClusterComputeResource);
  datastoresOf : option Datacenter -> result (list DatastoreObject);
  hostsOf : ClusterComputeResource -> result (list HostObject);
  hostSystems : list ManagedObjectReference -> result (list HostSystem);
  datastoreSummaries : list ManagedObjectReference -> result (list Datastore);
  hostProperties : HostObject -> result HostSystem;
  hostView : result (list HostSystem);
  datastoreView : result (list Datastore)
}.

(** The answer to a request; the two finder listings are relative to the
    datacenter the finder holds when the request is sent. *)
Definition answer (inv : inventory) (dc : option Datacenter)
    {A : Type} (c : request A) : result A :=
  match c in request T return result T with
  | DatacenterList => datacenters inv
  | ClusterComputeResourceList => clustersOf inv dc
  | DatastoreList => datastoresOf inv dc
  | Hosts cluster => hostsOf inv cluster
  | RetrieveHostSystems refs => hostSystems inv refs
  | RetrieveDatastores refs => datastoreSummaries inv refs
  | Properties host => hostProperties inv host
  | HostViewRetrieve => hostView inv
  | DatastoreViewRetrieve => datastoreView inv
  end.

(** ** Goroutine code

    The statements of [Collect] and of the collectors that touch shared
    state, in continuation style.  A WaitGroup is a local variable of the
    function that waits on it; every such function runs in a goroutine of
    its own and declares one, so the address [&wg] is the index of that
    goroutine. *)
Inductive prog : Type :=
| Return
| Panic
| Send (m : Metric) (k : prog)              (* ch <- m *)
| SendUp (k : prog)                         (* ch <- e.up *)
| GetAvailable (k : float64 -> prog)        (* reads e.vcenterAvailable *)
| SetAvailable (v : float64) (k : prog)     (* e.vcenterAvailable = v *)
| NewFinder (k : prog)                      (* f := find.NewFinder(...) *)
| SetDatacenter (dc : Datacenter) (k : prog)   (* f.SetDatacenter(dc) *)
| Call (A : Type) (c : request A) (k : result A -> prog)
| VarWaitGroup (k : nat -> prog)            (* var wg sync.WaitGroup *)
| WgAdd (w : nat) (n : Z) (k : prog)        (* wg.Add(n) *)
| WgDone (w : nat) (k : prog)               (* wg.Done() *)
| WgWait (w : nat) (k : prog)               (* wg.Wait() *)
| Go (child : prog) (k : prog).             (* go child *)
Arguments Call {A} c k.

(** [p] followed by [q] where [p] returns: how [defer] is written. *)
Fixpoint and_then (p q : prog) : prog :=
  match p with
  | Return => q
  | Panic => Panic
  | Send m k => Send m (and_then k q)
  | SendUp k => SendUp (and_then k q)
  | GetAvailable k => GetAvailable (fun v => and_then (k v) q)
  | SetAvailable v k => SetAvailable v (and_then k q)
  | NewFinder k => NewFinder (and_then k q)
  | SetDatacenter dc k => SetDatacenter dc (and_then k q)
  | Call c k => Call c (fun r => and_then (k r) q)
  | VarWaitGroup k => VarWaitGroup (fun w => and_then (k w) q)
  | WgAdd w n k => WgAdd w n (and_then k q)
  | WgDone w k => WgDone w (and_then k q)
  | WgWait w k => WgWait w (and_then k q)
  | Go child k => Go child (and_then k q)
  end.

(** [defer wg.Done()] at the head of a function body. *)
Definition defer_Done (wg : nat) (body : prog) : prog :=
  and_then body (WgDone wg Return).

(** [for _, x := range l { body }] followed by [k]. *)
Definition for_each {A : Type} (l : list A) (body : A -> prog -> prog)
    (k : prog) : prog :=
  fold_right body k l.

(** [ch <- prometheus.MustNewConstMetric(d, prometheus.GaugeValue, v, lvs...)] *)
Definition send_const (d : Desc) (v : float64) (lvs : list string)
    (k : prog) : prog :=
  match MustNewConstMetric d v lvs with
  | Some m => Send m k
  | None => Panic
  end.

(** The loop that applies the label getters of a metric to a snapshot;
    calling a nil getter panics ([None]). *)
Fixpoint label_values {S : Type} (getters : list (option (S -> string)))
    (s : S) : option (list string) :=
  match getters with
  | [] => Some []
  | None :: _ => None
  | Some g :: rest =>
      match label_values rest s with
      | Some lvs => Some (g s :: lvs)
      | None => None
      end
  end.

(** One sample: the label values of the getters, then the labels of the
    hierarchy, then [MustNewConstMetric] with the value of the getter. *)
Definition send_sample {S : Type} (d : Desc)
    (metricGetter : option (S -> float64))
    (labelsGetter : list (option (S -> string)))
    (hierarchy : list string) (s : S) (k : prog) : prog :=
  match label_values labelsGetter s with
  | None => Panic
  | Some lvs =>
      match metricGetter with
      | None => Panic
      | Some g => send_const d (g s) (lvs ++ hierarchy) k
      end
  end.

(** ** The exporter and the state of a poll *)

Record goroutine := { code : prog; counter : Z }.

Record state := {
  vcenterAvailable : float64;          (* e.vcenterAvailable *)
  up : float64;                        (* the value of the gauge e.up *)
  finder : option Datacenter;          (* the datacenter of the finder f *)
  chan : list Metric;                  (* what was sent on ch, in order *)
  calls : list (nat * sigT request);   (* requests sent, by goroutine *)
  goroutines : list goroutine;
  panicked : bool
}.

(** [e.up]: [prometheus.NewGauge] with namespace and name. *)
Definition upDesc : Desc :=
  NewDesc (BuildFQName namespace "" "up")
          "Was the last scrape of vCenter metrics success" [].

Definition vcenterAvailableDesc : Desc :=
  NewDesc "vcenter_available" "Set to 1 if the vcenter is available" [].

Definition advance (i : nat) (k : prog) (gs : list goroutine)
  : list goroutine :=
  alter (fun g => {| code := k; counter := counter g |}) i gs.

Definition add_counter (w : nat) (n : Z) (gs : list goroutine)
  : list goroutine :=
  alter (fun g => {| code := code g; counter := counter g + n |}) w gs.

Definition with_goroutines (st : state) (gs : list goroutine) : state :=
  {| vcenterAvailable := vcenterAvailable st; up := up st;
     finder := finder st; chan := chan st; calls := calls st;
     goroutines := gs; panicked := panicked st |}.

Definition with_chan (st : state) (c : list Metric) : state :=
  {| vcenterAvailable := vcenterAvailable st; up := up st;
     finder := finder st; chan := c; calls := calls st;
     goroutines := goroutines st; panicked := panicked st |}.

Definition with_available (st : state) (v : float64) : state :=
  {| vcenterAvailable := v; up := up st;
     finder := finder st; chan := chan st; calls := calls st;
     goroutines := goroutines st; panicked := panicked st |}.

Definition with_finder (st : state) (f : option Datacenter) : state :=
  {| vcenterAvailable := vcenterAvailable st; up := up st;
     finder := f; chan := chan st; calls := calls st;
     goroutines := goroutines st; panicked := panicked st |}.

Definition with_calls (st : state) (l : list (nat * sigT request)) : state :=
  {| vcenterAvailable := vcenterAvailable st; up := up st;
     finder := finder st; chan := chan st; calls := l;
     goroutines := goroutines st; panicked := panicked st |}.

Definition with_panic (st : state) : state :=
  {| vcenterAvailable := vcenterAvailable st; up := up st;
     finder := finder st; chan := chan st; calls := calls st;
     goroutines := goroutines st; panicked := true |}.

(** One step of goroutine [i]: [None] when it has returned, is blocked in
    [Wait], or the process has died of a panic. *)
Definition step_goroutine (inv : inventory) (i : nat) (st : state)
  : option state :=
  if panicked st then None
  else
    match goroutines st !! i with
    | None => None
    | Some g =>
        let next k := with_goroutines st (advance i k (goroutines st)) in
        match code g with
        | Return => None
        | Panic => Some (with_panic st)
        | Send m k => Some (with_chan (next k) (chan st ++ [m]))
        | SendUp k =>
            Some (with_chan (next k)
                    (chan st ++ [ {| desc := upDesc; value := up st;
                                     labelValues := [] |} ]))
        | GetAvailable k => Some (next (k (vcenterAvailable st)))
        | SetAvailable v k => Some (with_available (next k) v)
        | NewFinder k => Some (with_finder (next k) None)
        | SetDatacenter dc k => Some (with_finder (next k) (Some dc))
        | Call c k =>
            Some (with_calls (next (k (answer inv (finder st) c)))
                    (calls st ++ [(i, existT _ c)]))
        | VarWaitGroup k => Some (next (k i))
        | WgAdd w n k =>
            match goroutines st !! w with
            | None => None
            | Some gw =>
                if counter gw + n <? 0 then Some (with_panic st)
                else Some (with_goroutines st
                             (add_counter w n (advance i k (goroutines st))))
            end
        | WgDone w k =>
            match goroutines st !! w with
            | None => None
            | Some gw =>
                if counter gw - 1 <? 0 then Some (with_panic st)
                else Some (with_goroutines st
                             (add_counter w (-1) (advance i k (goroutines st))))
            end
        | WgWait w k =>
            match goroutines st !! w with
            | None => None
            | Some gw => if counter gw =? 0 then Some (next k) else None
            end
        | Go child k =>
            Some (with_goroutines st
                    (advance i k (goroutines st)
                     ++ [ {| code := child; counter := 0 |} ]))
        end
    end.

(** The scheduler picks any goroutine that can move. *)
Definition step (inv : inventory) (st st' : state) : Prop :=
  exists i, step_goroutine inv i st = Some st'.

Definition steps (inv : inventory) : state -> state -> Prop :=
  rtc (step inv).

(** A run under an explicit schedule; a pick that cannot move is skipped. *)
Fixpoint run (inv : inventory) (schedule : list nat) (st : state) : state :=
  match schedule with
  | [] => st
  | i :: rest =>
      match step_goroutine inv i st with
      | Some st' => run inv rest st'
      | None => run inv rest st
      end
  end.

(** Every goroutine has returned. *)
Definition completed (st : state) : Prop :=
  panicked st = false /\
  Forall (fun g => code g = Return) (goroutines st).

(** The exporter between polls: the availability flag and the up gauge. *)
Record Exporter := { e_vcenterAvailable : float64; e_up : float64 }.

(** [NewExporter]: a fresh gauge reads 0, the flag starts at 1. *)
Definition NewExporter : Exporter :=
  {| e_vcenterAvailable := 1; e_up := 0 |}.

(** A scrape starts [main] as the only goroutine. *)
Definition start (e : Exporter) (main : prog) : state :=
  {| vcenterAvailable := e_vcenterAvailable e; up := e_up e;
     finder := None; chan := []; calls := [];
     goroutines := [ {| code := main; counter := 0 |} ];
     panicked := false |}.

Definition exporter_of (st : state) : Exporter :=
  {| e_vcenterAvailable := vcenterAvailable st; e_up := up st |}.

(** ** The orchestrator (vsphere_exporter.go)

    [Collect] starts two collectors per datacenter; it is written over the
    pair it is built with. *)
Section Orchestrator.
Variable collectHostMetrics : nat -> string -> prog.
Variable collectDatastoreMetrics : nat -> string -> prog.

Definition Collect : prog :=
  SendUp
    (NewFinder
       (Call DatacenterList (fun r =>
          match r with
          | Failed =>
              (* the listing failed: the flag is lowered and the poll ends *)
              SetAvailable 0 Return
          | Ok dcs =>
              SetAvailable 1
                (VarWaitGroup (fun wg =>
                   (* two collectors (datastores + hosts) per datacenter *)
                   WgAdd wg (2 * Z.of_nat (length dcs))
                     (for_each dcs (fun dc k =>
                        SetDatacenter dc
                          (Go (collectHostMetrics wg (Name dc))
                             (Go (collectDatastoreMetrics wg (Name dc)) k)))
                        (WgWait wg
                           (GetAvailable (fun v =>
                              send_const vcenterAvailableDesc v []
                                Return))))))
          end))).
End Orchestrator.

(** ** The whole-inventory collectors (host.go, and the datastore
    collector over the container view)

    One request returns every host (datastore) of the inventory; the
    samples carry no datacenter or cluster label. *)
Module Flat.

Definition hostLabelNames : list string := ["host"].
Definition datastoreLabelNames : list string := ["name"].

Definition hostMetrics := hostMetrics hostLabelNames.
Definition datastoreMetrics := datastoreMetrics datastoreLabelNames.

Definition collectHostMetrics (wg : nat) : prog :=
  defer_Done wg
    (Call HostViewRetrieve (fun r =>
       match r with
       | Failed => SetAvailable 0 Return
       | Ok hs =>
           SetAvailable 1
             (for_each hs (fun h =>
                for_each hostMetrics (fun metric =>
                  send_sample (hdesc metric) (hmetricGetter metric)
                    (hlabelsGetter metric) [] h))
                Return)
       end)).

Definition collectDatastoreMetrics (wg : nat) : prog :=
  defer_Done wg
    (Call DatastoreViewRetrieve (fun r =>
       match r with
       | Failed => SetAvailable 0 Return
       | Ok ds =>
           SetAvailable 1
             (for_each ds (fun d =>
                for_each datastoreMetrics (fun metric =>
                  send_sample (ddesc metric) (dmetricGetter metric)
                    (dlabelsGetter metric) [] d))
                Return)
       end)).

End Flat.

(** ** The by-cluster collectors

    Hosts are reached datacenter by datacenter and cluster by cluster, one
    goroutine per cluster and one bulk retrieval per cluster; datastores
    datacenter by datacenter.  The maps [hostsRefList] and
    [datastoresRefList] that the collectors fill are read nowhere and are
    left out; several goroutines write them at once, which a semantics
    whose steps are atomic does not see.  Both collectors list under the finder that [Collect] made:
    it is one object, passed by pointer, that [Collect] sets to the next
    datacenter while the collectors of the previous one may still be about
    to list.  ([Collect] calls [collectDatastoreMetrics] without the
    finder that the signature in datastore.go asks for; the collector is
    modelled with the signature it declares.) *)
Module ByCluster.

Definition hostLabelNames : list string := ["name"; "datacenter"; "cluster"].
Definition datastoreLabelNames : list string := ["name"; "datacenter"].

Definition hostMetrics := hostMetrics hostLabelNames.
Definition datastoreMetrics := datastoreMetrics datastoreLabelNames.

Definition collectHostMetricFromCluster (wg : nat) (datacenterName : string)
    (cluster : ClusterComputeResource) : prog :=
  defer_Done wg
    (Call (Hosts cluster) (fun r =>
       match r with
       | Failed => Return
       | Ok hosts =>
           if (0 <? length hosts)%nat then
             (* the host properties, for every reference at once *)
             Call (RetrieveHostSystems (map Reference hosts)) (fun r' =>
               (* an error is logged and [hs] stays empty *)
               let hs := match r' with Ok hs => hs | Failed => [] end in
               for_each hs (fun h =>
                 for_each hostMetrics (fun metric =>
                   send_sample (hdesc metric) (hmetricGetter metric)
                     (hlabelsGetter metric)
                     [datacenterName; Name cluster] h))
                 Return)
           else Return
       end)).

Definition collectHostMetrics (wg : nat) (datacenterName : string) : prog :=
  defer_Done wg
    (Call ClusterComputeResourceList (fun r =>
       match r with
       | Failed => Return
       | Ok clusters =>
           (* hosts outside a cluster are not handled *)
           VarWaitGroup (fun wgClusters =>
             WgAdd wgClusters (Z.of_nat (length clusters))
               (for_each clusters (fun cluster =>
                  Go (collectHostMetricFromCluster wgClusters
                        datacenterName cluster))
                  (WgWait wgClusters Return)))
       end)).

Definition collectDatastoreMetrics (wg : nat) (datacenterName : string)
  : prog :=
  defer_Done wg
    (Call DatastoreList (fun r =>
       match r with
       | Failed => Return
       | Ok datastores =>
           if (0 <? length datastores)%nat then
             Call (RetrieveDatastores (map Reference datastores)) (fun r' =>
               match r' with
               | Failed => Return
               | Ok ds =>
                   for_each ds (fun d =>
                     for_each datastoreMetrics (fun metric =>
                       send_sample (ddesc metric) (dmetricGetter metric)
                         (dlabelsGetter metric) [datacenterName] d))
                     Return
               end)
           else Return
       end)).

Definition Collect : prog :=
  Collect collectHostMetrics collectDatastoreMetrics.

End ByCluster.

(** ** The cluster walk with one request per host

    The collector that asks for the properties of each host in turn, in
    the goroutine of the datacenter. *)
Module PerHost.

Definition hostLabelNames : list string := ["host"; "datacenter"; "cluster"].

Definition hostMetrics := hostMetrics hostLabelNames.

Definition collectHostMetrics (wg : nat) (datacenterName : string) : prog :=
  defer_Done wg
    (Call ClusterComputeResourceList (fun r =>
       match r with
       | Failed => Return
       | Ok clusters =>
           for_each clusters (fun c k =>
             Call (Hosts c) (fun r' =>
               match r' with
               | Failed => Return
               | Ok hs =>
                   (* the second test of [err] never holds here *)
                   for_each hs (fun host k' =>
                     Call (Properties host) (fun r'' =>
                       match r'' with
                       | Failed =>
                           (* [h] stays zero-valued, its hardware summary
                              is nil and the first getter dereferences it *)
                           Panic
                       | Ok h =>
                           for_each hostMetrics (fun metric =>
                             send_sample (hdesc metric)
                               (hmetricGetter metric) (hlabelsGetter metric)
                               [datacenterName; Name c] h)
                             k'
                       end))
                     k
               end))
             Return
       end)).

End PerHost.

(** ** A small inventory to run the code on *)
Module Sample.

Definition ref (t v : string) : ManagedObjectReference :=
  {| moType := t; moValue := v |}.

Definition dc1 : Datacenter :=
  {| Reference := ref "Datacenter" "datacenter-1"; Name := "dc1" |}.
Definition dc2 : Datacenter :=
  {| Reference := ref "Datacenter" "datacenter-2"; Name := "dc2" |}.
Definition cluster1 : ClusterComputeResource :=
  {| Reference := ref "ClusterComputeResource" "domain-c1";
     Name := "cluster1" |}.
Definition esx1 : HostObject :=
  {| Reference := ref "HostSystem" "host-1"; Name := "esx1" |}.
Definition esx2 : HostObject :=
  {| Reference := ref "HostSystem" "host-2"; Name := "esx2" |}.
Definition store1 : DatastoreObject :=
  {| Reference := ref "Datastore" "datastore-1"; Name := "store1" |}.

(** The host of the specification's scenario. *)
Definition host1 : HostSystem :=
  {| HostSummary :=
       {| Hardware := {| MemorySize := 17179869184; CpuMhz := 2600;
                         NumCpuCores := 8 |};
          Runtime := {| ConnectionState := "connected" |};
          Config := {| ConfigName := "esx1" |};
          QuickStats := {| OverallCpuUsage := 1200;
                           OverallMemoryUsage := 2048 |} |} |}.

(** The datastore of the specification's scenario. *)
Definition datastore1 : Datastore :=
  {| DatastoreSummary :=
       {| DsName := "store1"; Capacity := 1000000000000;
          FreeSpace := 250000000000; Accessible := false |} |}.

Definition is_dc (d : Datacenter) (o : option Datacenter) : bool :=
  match o with
  | Some d' => String.eqb (Name d') (Name d)
  | None => false
  end.

(** Nothing answers. *)
Definition down : inventory :=
  {| datacenters := Failed;
     clustersOf := fun _ => Failed;
     datastoresOf := fun _ => Failed;
     hostsOf := fun _ => Failed;
     hostSystems := fun _ => Failed;
     datastoreSummaries := fun _ => Failed;
     hostProperties := fun _ => Failed;
     hostView := Failed;
     datastoreView := Failed |}.

(** One datacenter, one cluster, one host; the datastore listing of the
    datacenter fails. *)
Definition one_host : inventory :=
  {| datacenters := Ok [dc1];
     clustersOf := fun o => if is_dc dc1 o then Ok [cluster1] else Failed;
     datastoresOf := fun _ => Failed;
     hostsOf := fun _ => Ok [esx1];
     hostSystems := fun _ => Ok [host1];
     datastoreSummaries := fun _ => Failed;
     hostProperties := fun _ => Ok host1;
     hostView := Ok [host1];
     datastoreView := Failed |}.

(** One datacenter without clusters and without datastores. *)
Definition empty_dc : inventory :=
  {| datacenters := Ok [dc1];
     clustersOf := fun _ => Ok [];
     datastoresOf := fun _ => Ok [];
     hostsOf := fun _ => Ok [];
     hostSystems := fun _ => Ok [];
     datastoreSummaries := fun _ => Ok [];
     hostProperties := fun _ => Failed;
     hostView := Ok [];
     datastoreView := Ok [] |}.

(** Two datacenters: [dc1] has no cluster, [dc2] has one cluster with
    one host. *)
Definition two_dcs : inventory :=
  {| datacenters := Ok [dc1; dc2];
     clustersOf := fun o => if is_dc dc2 o then Ok [cluster1]
                            else if is_dc dc1 o then Ok [] else Failed;
     datastoresOf := fun _ => Ok [];
     hostsOf := fun _ => Ok [esx1];
     hostSystems := fun _ => Ok [host1];
     datastoreSummaries := fun _ => Ok [];
     hostProperties := fun _ => Ok host1;
     hostView := Ok [host1];
     datastoreView := Ok [] |}.

(** One datacenter, one cluster, two hosts. *)
Definition two_hosts : inventory :=
  {| datacenters := Ok [dc1];
     clustersOf := fun _ => Ok [cluster1];
     datastoresOf := fun _ => Ok [];
     hostsOf := fun _ => Ok [esx1; esx2];
     hostSystems := fun _ => Ok [host1; host1];
     datastoreSummaries := fun _ => Ok [];
     hostProperties := fun _ => Ok host1;
     hostView := Ok [host1; host1];
     datastoreView := Ok [] |}.

End Sample.

(** * Properties of the registry *)

(** The name of a host metric with the value its getter reads from [h]. *)
Definition host_reading (h : HostSystem) (m : vsphereHostMetric)
  : string * option float64 :=
  (fqName (hdesc m), option_map (fun g => g h) (hmetricGetter m)).

Definition datastore_reading (d : Datastore) (m : vsphereDatastoreMetric)
  : string * option float64 :=
  (fqName (ddesc m), option_map (fun g => g d) (dmetricGetter m)).

(** C3: on the host of the scenario (16 GiB of memory, 2048 MiB used,
    8 cores at 2600 MHz, 1200 MHz used, connected) the seven host metrics
    read 17179869184, 2147483648, 20800, 1200, 1, 0, 0, and on the
    datastore of the scenario (capacity 1000000000000, 250000000000 free,
    not accessible) the three datastore metrics read 1000000000000,
    250000000000 and 0. *)
Theorem scenario_readings (hnames dnames : list string)
    (h : HostSystem) (d : Datastore) :
  MemorySize (Hardware (HostSummary h)) = 17179869184 ->
  OverallMemoryUsage (QuickStats (HostSummary h)) = 2048 ->
  CpuMhz (Hardware (HostSummary h)) = 2600 ->
  NumCpuCores (Hardware (HostSummary h)) = 8 ->
  OverallCpuUsage (QuickStats (HostSummary h)) = 1200 ->
  ConnectionState (Runtime (HostSummary h)) = "connected" ->
  Capacity (DatastoreSummary d) = 1000000000000 ->
  FreeSpace (DatastoreSummary d) = 250000000000 ->
  Accessible (DatastoreSummary d) = false ->
  map (host_reading h) (hostMetrics hnames) =
    [ ("esxi_memory_total_bytes", Some 17179869184);
      ("esxi_memory_usage_bytes", Some 2147483648);
      ("esxi_cpu_total_mhz", Some 20800);
      ("esxi_cpu_usage_mhz", Some 1200);
      ("esxi_connected_state", Some 1);
      ("esxi_disconnected_state", Some 0);
      ("esxi_not_responding_state", Some 0) ] /\
  map (datastore_reading d) (datastoreMetrics dnames) =
    [ ("datastore_capacity_bytes", Some 1000000000000);
      ("datastore_free_space_bytes", Some 250000000000);
      ("datastore_accessibility", Some 0) ].
Proof.
  intros Hmem Huse Hmhz Hcores Hcpu Hstate Hcap Hfree Hacc.
  unfold hostMetrics, datastoreMetrics, host_reading, datastore_reading.
  cbn [map newVsphereHostMetric newVsphereDatastoreMetric hdesc ddesc
       hmetricGetter dmetricGetter fqName NewDesc registry_get
       hostMetricGetterFuncRegistry datastoreMetricGetterFuncRegistry
       String.eqb Ascii.eqb Bool.eqb option_map].
  rewrite Hmem, Huse, Hmhz, Hcores, Hcpu, Hstate, Hcap, Hfree, Hacc.
  split; reflexivity.
Qed.

Lemma scenario_readings_witness :
  map (host_reading Sample.host1) (hostMetrics ByCluster.hostLabelNames) =
    [ ("esxi_memory_total_bytes", Some 17179869184);
      ("esxi_memory_usage_bytes", Some 2147483648);
      ("esxi_cpu_total_mhz", Some 20800);
      ("esxi_cpu_usage_mhz", Some 1200);
      ("esxi_connected_state", Some 1);
      ("esxi_disconnected_state", Some 0);
      ("esxi_not_responding_state", Some 0) ] /\
  map (datastore_reading Sample.datastore1)
      (datastoreMetrics ByCluster.datastoreLabelNames) =
    [ ("datastore_capacity_bytes", Some 1000000000000);
      ("datastore_free_space_bytes", Some 250000000000);
      ("datastore_accessibility", Some 0) ].
Proof.
  apply (scenario_readings ByCluster.hostLabelNames
           ByCluster.datastoreLabelNames Sample.host1 Sample.datastore1);
    reflexivity.
Defined.

(** The label values a collector hands to [MustNewConstMetric]. *)
Definition emitted_labels {S : Type}
    (labelsGetter : list (option (S -> string))) (hierarchy : list string)
    (s : S) : option (list string) :=
  option_map (fun lvs => lvs ++ hierarchy) (label_values labelsGetter s).

Lemma send_sample_labels {S : Type} (d : Desc) (g : S -> float64)
    (getters : list (option (S -> string))) (hierarchy : list string)
    (s : S) (k : prog) (lvs : list string) :
  emitted_labels getters hierarchy s = Some lvs ->
  length lvs = length (variableLabels d) ->
  send_sample d (Some g) getters hierarchy s k =
    Send {| desc := d; value := g s; labelValues := lvs |} k.
Proof.
  unfold emitted_labels, send_sample, send_const, MustNewConstMetric.
  destruct (label_values getters s) as [l|]; [|discriminate].
  intros [= <-] Hlen. rewrite Hlen, Nat.eqb_refl. reflexivity.
Qed.






(** C7: whatever the snapshot, each of the three state getters returns 0
    or 1 and at most one of them returns 1. *)
Theorem state_flags_exclusive (h : HostSystem) :
  exists connected disconnected notResponding,
    registry_get hostMetricGetterFuncRegistry "getConnectedState"
      = Some connected /\
    registry_get hostMetricGetterFuncRegistry "getDisconnectedState"
      = Some disconnected /\
    registry_get hostMetricGetterFuncRegistry "getNotRespondingState"
      = Some notResponding /\
    (connected h = 0 \/ connected h = 1) /\
    (disconnected h = 0 \/ disconnected h = 1) /\
    (notResponding h = 0 \/ notResponding h = 1) /\
    connected h + disconnected h + notResponding h <= 1.
Proof.
  do 3 eexists.
  split; [reflexivity |]. split; [reflexivity |]. split; [reflexivity |].
  cbv beta.
  destruct (String.eqb_spec (ConnectionState (Runtime (HostSummary h)))
              "connected") as [-> | _];
    [ cbn; intuition lia |].
  destruct (String.eqb_spec (ConnectionState (Runtime (HostSummary h)))
              "disconnected") as [-> | _];
    [ cbn; intuition lia |].
  destruct (String.eqb (ConnectionState (Runtime (HostSummary h)))
              "notResponding"); intuition lia.
Qed.

(** The availability gauge is named without the namespace. *)
Lemma availability_gauge_not_namespaced :
  ~ (String.prefix (namespace +:+ "_") (fqName vcenterAvailableDesc) = true).
Proof. cbn. discriminate. Qed.

(** C8 as the code has it: host metrics are named esxi_..., datastore
    metrics datastore_..., the up gauge is vsphere_up, in the vsphere
    namespace, and the availability gauge is vcenter_available. *)
Theorem metric_names (hnames dnames : list string) :
  Forall (fun m => String.prefix "esxi_" (fqName (hdesc m)) = true)
         (hostMetrics hnames) /\
  Forall (fun m => String.prefix "datastore_" (fqName (ddesc m)) = true)
         (datastoreMetrics dnames) /\
  fqName upDesc = "vsphere_up" /\
  String.prefix (namespace +:+ "_") (fqName upDesc) = true /\
  fqName vcenterAvailableDesc = "vcenter_available".
Proof.
  repeat split; repeat constructor.
Qed.

(** * The WaitGroup discipline

    A goroutine declares its WaitGroup, adds the number of goroutines it
    is about to start, starts them, waits, and goes on; a goroutine that
    was started with a WaitGroup calls [Done] on it as its last step.
    [wf p i o ph] says that the code [p] of goroutine [i] follows this
    discipline: [o] is the WaitGroup it still owes a [Done] to, [ph] where
    it stands with its own WaitGroup. *)

Inductive phase : Type :=
| Pre                    (* nothing added yet *)
| Spawning (n : nat)     (* [n] goroutines still to start *)
| Post.                  (* it has waited *)

Definition quiescent (ph : phase) : Prop :=
  match ph with Spawning _ => False | _ => True end.

Definition pending (ph : phase) : Z :=
  match ph with Spawning n => Z.of_nat n | _ => 0 end.

Fixpoint wf (p : prog) (i : nat) (o : option nat) (ph : phase) : Prop :=
  match p with
  | Return => o = None /\ quiescent ph
  | Panic => True
  | Send _ k | SendUp k | SetAvailable _ k | NewFinder k
  | SetDatacenter _ k => wf k i o ph
  | GetAvailable k => forall v, wf (k v) i o ph
  | Call c k => forall r, wf (k r) i o ph
  | VarWaitGroup k => ph = Pre /\ wf (k i) i o Pre
  | WgAdd w n k =>
      w = i /\ ph = Pre /\ exists m, n = Z.of_nat m /\ wf k i o (Spawning m)
  | Go child k =>
      exists m, ph = Spawning (S m) /\
                (forall j, wf child j (Some i) Pre) /\
                wf k i o (Spawning m)
  | WgWait w k => w = i /\ ph = Spawning 0 /\ wf k i o Post
  | WgDone w k => o = Some w /\ k = Return /\ quiescent ph
  end.

(** What the proofs remember of each goroutine: the WaitGroup it owes a
    [Done] to and its phase. *)
Abbreviation ghost := (list (option nat * phase)).

Definition is_child (i : nat) (x : option nat * phase) : bool :=
  match fst x with
  | Some p => Nat.eqb p i
  | None => false
  end.

(** The goroutines that still owe a [Done] to the WaitGroup of [i]. *)
Fixpoint children (i : nat) (G : ghost) : Z :=
  match G with
  | [] => 0
  | x :: G' => (if is_child i x then 1 else 0) + children i G'
  end.

Lemma children_nonneg i G : 0 <= children i G.
Proof. induction G as [|x G IH]; cbn; [lia | destruct (is_child i x); lia]. Qed.

Lemma children_app i G x :
  children i (G ++ [x]) = children i G + (if is_child i x then 1 else 0).
Proof. induction G as [|y G IH]; cbn; [lia | rewrite IH; lia]. Qed.

Lemma children_insert i (G : ghost) j x y :
  G !! j = Some x ->
  children i (<[j:=y]> G)
  = children i G - (if is_child i x then 1 else 0)
    + (if is_child i y then 1 else 0).
Proof.
  revert j. induction G as [|z G IH]; intros [|j] H; try discriminate.
  - injection H as ->.
    change (<[0%nat:=y]> (x :: G)) with (y :: G). cbn [children]. lia.
  - change (<[S j:=y]> (z :: G)) with (z :: <[j:=y]> G).
    cbn [children]. rewrite (IH j H). lia.
Qed.

Lemma children_zero i (G : ghost) :
  (forall j o ph, G !! j = Some (o, ph) -> o <> Some i) ->
  children i G = 0.
Proof.
  induction G as [|[o ph] G IH]; intros H; cbn; [reflexivity |].
  rewrite IH by (intros j o' ph' Hj; exact (H (S j) o' ph' Hj)).
  unfold is_child; cbn.
  destruct o as [p|]; [| reflexivity].
  destruct (Nat.eqb_spec p i) as [-> | ?]; [| reflexivity].
  exfalso. exact (H 0%nat (Some i) ph eq_refl eq_refl).
Qed.

Lemma children_pos i (G : ghost) j ph :
  G !! j = Some (Some i, ph) -> 1 <= children i G.
Proof.
  revert j. induction G as [|z G IH]; intros [|j] H; cbn in *; try discriminate.
  - injection H as ->. unfold is_child; cbn. rewrite Nat.eqb_refl.
    pose proof (children_nonneg i G). lia.
  - specialize (IH j H). destruct (is_child i z); lia.
Qed.

Lemma is_child_Some i p ph : is_child i (Some p, ph) = Nat.eqb p i.
Proof. reflexivity. Qed.

Lemma is_child_None i ph : is_child i (None, ph) = false.
Proof. reflexivity. Qed.

(** The invariant of one goroutine. *)
Definition thread_ok (G : ghost) (i : nat) (g : goroutine)
    (o : option nat) (ph : phase) : Prop :=
  wf (code g) i o ph /\
  counter g = pending ph + children i G /\
  (quiescent ph -> counter g = 0) /\
  (forall p, o = Some p -> (p < i)%nat) /\
  (o = None -> i <> 0%nat -> code g = Return).

(** The invariant of the pool: the counter of every WaitGroup is the
    number of goroutines still to start plus the number of those started
    that have not called [Done]. *)
Definition accounted (gs : list goroutine) (G : ghost) : Prop :=
  length G = length gs /\
  forall i g, gs !! i = Some g ->
    exists o ph, G !! i = Some (o, ph) /\ thread_ok G i g o ph.

Lemma accounted_lookup gs G i g :
  accounted gs G -> gs !! i = Some g ->
  exists o ph, G !! i = Some (o, ph) /\ thread_ok G i g o ph.
Proof. intros [_ H]. apply H. Qed.

Lemma accounted_parent_lt gs G j o ph p :
  accounted gs G -> G !! j = Some (o, ph) -> o = Some p -> (p < j)%nat.
Proof.
  intros [Hlen H] Hj ->.
  assert (Hlt : (j < length gs)%nat)
    by (rewrite <- Hlen; eapply lookup_lt_Some; eassumption).
  destruct (lookup_lt_is_Some_2 gs j Hlt) as [g Hg].
  destruct (H j g Hg) as (o' & ph' & Hj' & _ & _ & _ & Hp & _).
  rewrite Hj in Hj'. injection Hj' as <- <-. apply Hp; reflexivity.
Qed.

Lemma lookup_advance_eq i k gs g :
  gs !! i = Some g ->
  advance i k gs !! i = Some {| code := k; counter := counter g |}.
Proof. intros H. unfold advance. rewrite list_lookup_alter_eq, H. reflexivity. Qed.

Lemma lookup_advance_ne i j k gs :
  i <> j -> advance i k gs !! j = gs !! j.
Proof. intros H. unfold advance. apply list_lookup_alter_ne, H. Qed.

Lemma length_advance i k gs : length (advance i k gs) = length gs.
Proof. apply length_alter. Qed.

Lemma lookup_add_counter_eq w n gs g :
  gs !! w = Some g ->
  add_counter w n gs !! w = Some {| code := code g; counter := counter g + n |}.
Proof. intros H. unfold add_counter. rewrite list_lookup_alter_eq, H. reflexivity. Qed.

Lemma lookup_add_counter_ne w j n gs :
  w <> j -> add_counter w n gs !! j = gs !! j.
Proof. intros H. unfold add_counter. apply list_lookup_alter_ne, H. Qed.

Lemma length_add_counter w n gs : length (add_counter w n gs) = length gs.
Proof. apply length_alter. Qed.

(** A step that only moves the code of goroutine [i] forward. *)
Lemma accounted_advance gs G i g o ph k :
  accounted gs G -> gs !! i = Some g -> G !! i = Some (o, ph) ->
  code g <> Return ->
  wf k i o ph ->
  accounted (advance i k gs) G.
Proof.
  intros HJ Hg HG Hnr Hwf. destruct HJ as [Hlen H].
  split; [rewrite length_advance; exact Hlen |].
  intros j g' Hj.
  destruct (Nat.eq_dec i j) as [<- | Hne].
  - rewrite (lookup_advance_eq _ _ _ _ Hg) in Hj. injection Hj as <-.
    destruct (H i g Hg) as (o' & ph' & HG' & _ & Hc & Hq & Hp & Hr).
    rewrite HG in HG'. injection HG' as <- <-.
    exists o, ph. split; [exact HG |].
    repeat split; cbn; try assumption.
    intros Ho Hi. exfalso. apply Hnr. apply Hr; assumption.
  - rewrite (lookup_advance_ne _ _ _ _ Hne) in Hj. apply H, Hj.
Qed.

Lemma thread_ok_children G G' i g o ph :
  children i G' = children i G ->
  thread_ok G i g o ph -> thread_ok G' i g o ph.
Proof. unfold thread_ok. intros ->. tauto. Qed.

(** Changing the phase of an entry changes nobody's children. *)
Lemma children_rephase j (G : ghost) i o ph ph' :
  G !! i = Some (o, ph) ->
  children j (<[i:=(o, ph')]> G) = children j G.
Proof.
  intros H. rewrite (children_insert _ _ _ _ _ H).
  unfold is_child; cbn. destruct o as [p|]; [destruct (Nat.eqb p j) |]; lia.
Qed.

(** A step that moves goroutine [i] forward and changes its phase, the
    counter following. *)
Lemma accounted_rephase gs G i g o ph ph' k n :
  accounted gs G -> gs !! i = Some g -> G !! i = Some (o, ph) ->
  code g <> Return ->
  wf k i o ph' ->
  counter g + n = pending ph' + children i G ->
  (quiescent ph' -> counter g + n = 0) ->
  accounted (add_counter i n (advance i k gs)) (<[i:=(o, ph')]> G).
Proof.
  intros [Hlen H] Hg HG Hnr Hwf Hcnt Hq.
  assert (Hi : (i < length G)%nat) by (eapply lookup_lt_Some; eassumption).
  split; [rewrite length_insert, length_add_counter, length_advance; exact Hlen |].
  intros j g' Hj.
  destruct (Nat.eq_dec i j) as [<- | Hne].
  - rewrite (lookup_add_counter_eq _ _ _ _ (lookup_advance_eq _ k _ _ Hg)) in Hj.
    injection Hj as <-.
    destruct (H i g Hg) as (o' & ph0 & HG' & _ & _ & _ & Hp & Hr).
    rewrite HG in HG'. injection HG' as <- <-.
    exists o, ph'. split; [apply list_lookup_insert_eq, Hi |].
    unfold thread_ok; cbn. rewrite (children_rephase _ _ _ _ _ _ HG).
    repeat split; try assumption.
    intros Ho Hi0. exfalso. apply Hnr. apply Hr; assumption.
  - rewrite (lookup_add_counter_ne _ _ _ _ Hne),
            (lookup_advance_ne _ _ _ _ Hne) in Hj.
    destruct (H j g' Hj) as (oj & phj & HGj & Hok).
    exists oj, phj. split; [rewrite list_lookup_insert_ne; assumption |].
    eapply thread_ok_children; [| exact Hok].
    apply (children_rephase _ _ _ _ _ _ HG).
Qed.

Lemma add_counter_zero i gs : add_counter i 0 gs = gs.
Proof.
  unfold add_counter. apply list_eq. intros j.
  destruct (Nat.eq_dec i j) as [<- | Hne].
  - rewrite list_lookup_alter_eq. destruct (gs !! i) as [[c n]|]; cbn; [| reflexivity].
    do 2 f_equal. lia.
  - apply list_lookup_alter_ne, Hne.
Qed.

(** [go child]. *)
Lemma accounted_go gs G i g o m child k :
  accounted gs G -> gs !! i = Some g -> G !! i = Some (o, Spawning (S m)) ->
  code g = Go child k ->
  accounted (advance i k gs ++ [ {| code := child; counter := 0 |} ])
            (<[i:=(o, Spawning m)]> G ++ [(Some i, Pre)]).
Proof.
  intros HJ Hg HG Hc.
  pose proof HJ as [Hlen H].
  assert (Hi : (i < length G)%nat) by (eapply lookup_lt_Some; eassumption).
  destruct (H i g Hg) as (o' & ph0 & HG' & Hwf & Hcnt & _ & Hp & Hr).
  rewrite HG in HG'. injection HG' as <- <-.
  rewrite Hc in Hwf. cbn in Hwf.
  destruct Hwf as (m' & [= <-] & Hchild & Hk).
  split; [rewrite !length_app, length_insert, length_advance, Hlen; reflexivity |].
  intros j g' Hj.
  destruct (Nat.lt_ge_cases j (length gs)) as [Hlt | Hge].
  - rewrite lookup_app_l in Hj by (rewrite length_advance; exact Hlt).
    rewrite lookup_app_l by (rewrite length_insert, Hlen; exact Hlt).
    destruct (Nat.eq_dec i j) as [<- | Hne].
    + rewrite (lookup_advance_eq _ _ _ _ Hg) in Hj. injection Hj as <-.
      exists o, (Spawning m). split; [apply list_lookup_insert_eq, Hi |].
      unfold thread_ok; cbn.
      rewrite children_app, (children_rephase _ _ _ _ _ _ HG), is_child_Some,
              Nat.eqb_refl.
      cbn in Hcnt. repeat split; try assumption; try lia; try contradiction.
      intros Ho Hi0. rewrite (Hr Ho Hi0) in Hc. discriminate.
    + rewrite (lookup_advance_ne _ _ _ _ Hne) in Hj.
      destruct (H j g' Hj) as (oj & phj & HGj & Hok).
      exists oj, phj. split; [rewrite list_lookup_insert_ne; assumption |].
      eapply thread_ok_children; [| exact Hok].
      rewrite children_app, (children_rephase _ _ _ _ _ _ HG), is_child_Some.
      destruct (Nat.eqb_spec i j); [contradiction | lia].
  - assert (Hjl : j = length gs).
    { apply lookup_lt_Some in Hj.
      rewrite length_app, length_advance in Hj. cbn in Hj. lia. }
    subst j.
    rewrite lookup_app_r in Hj by (rewrite length_advance; lia).
    rewrite length_advance, Nat.sub_diag in Hj. injection Hj as <-.
    exists (Some i), Pre. split.
    { rewrite lookup_app_r by (rewrite length_insert; lia).
      rewrite length_insert, Hlen, Nat.sub_diag. reflexivity. }
    assert (Hz : children (length gs) G = 0).
    { apply children_zero. intros j' oj phj Hj' ->.
      pose proof (accounted_parent_lt _ _ _ _ _ _ HJ Hj' eq_refl).
      apply lookup_lt_Some in Hj'. lia. }
    unfold thread_ok; cbn.
    rewrite children_app, (children_rephase _ _ _ _ _ _ HG), Hz, is_child_Some.
    destruct (Nat.eqb_spec i (length gs)) as [-> | _]; [lia |].
    repeat split; try lia; try discriminate.
    + apply Hchild.
    + intros p [= <-]. lia.
Qed.

(** [wg.Done()], the last step of a goroutine that was started with [w]. *)
Lemma accounted_done gs G i g w gw o ph k :
  accounted gs G -> gs !! i = Some g -> G !! i = Some (o, ph) ->
  code g = WgDone w k -> gs !! w = Some gw ->
  1 <= counter gw /\
  accounted (add_counter w (-1) (advance i k gs)) (<[i:=(None, ph)]> G).
Proof.
  intros HJ Hg HG Hc Hw.
  pose proof HJ as [Hlen H].
  assert (Hi : (i < length G)%nat) by (eapply lookup_lt_Some; eassumption).
  destruct (H i g Hg) as (o' & ph0 & HG' & Hwf & Hcnt & Hq & Hp & Hr).
  rewrite HG in HG'. injection HG' as <- <-.
  rewrite Hc in Hwf. cbn in Hwf. destruct Hwf as (-> & -> & Hqph).
  pose proof (Hp w eq_refl) as Hwi.
  destruct (H w gw Hw) as (ow & phw & HGw & Hwfw & Hcntw & Hqw & Hpw & Hrw).
  pose proof (children_pos _ _ _ _ HG) as Hpos.
  assert (Hpend : 0 <= pending phw) by (destruct phw; cbn; lia).
  split; [lia |].
  split; [rewrite length_insert, length_add_counter, length_advance; exact Hlen |].
  intros j g' Hj.
  assert (Hch : children j (<[i:=(None, ph)]> G)
                = children j G - (if Nat.eqb w j then 1 else 0)).
  { rewrite (children_insert _ _ _ _ _ HG), is_child_Some, is_child_None. lia. }
  destruct (Nat.eq_dec w j) as [<- | Hnw].
  - rewrite (lookup_add_counter_eq _ _ _ gw) in Hj
      by (rewrite lookup_advance_ne by lia; exact Hw).
    injection Hj as <-.
    exists ow, phw. split; [rewrite list_lookup_insert_ne by lia; exact HGw |].
    unfold thread_ok; cbn. rewrite Hch, Nat.eqb_refl.
    repeat split; try assumption; try lia.
    intros Hqq. specialize (Hqw Hqq). lia.
  - rewrite (lookup_add_counter_ne _ _ _ _ Hnw) in Hj.
    destruct (Nat.eq_dec i j) as [<- | Hne].
    + rewrite (lookup_advance_eq _ _ _ _ Hg) in Hj. injection Hj as <-.
      exists None, ph. split; [apply list_lookup_insert_eq, Hi |].
      unfold thread_ok; cbn. rewrite Hch.
      destruct (Nat.eqb_spec w i); [lia |].
      specialize (Hq Hqph).
      assert (pending ph = 0) by (destruct ph; cbn in *; [reflexivity | contradiction | reflexivity]).
      repeat split; try assumption; try lia; try discriminate.
    + rewrite (lookup_advance_ne _ _ _ _ Hne) in Hj.
      destruct (H j g' Hj) as (oj & phj & HGj & Hok).
      exists oj, phj. split; [rewrite list_lookup_insert_ne; assumption |].
      eapply thread_ok_children; [| exact Hok].
      rewrite Hch. destruct (Nat.eqb_spec w j); [contradiction | lia].
Qed.

(** Every step keeps the WaitGroups accounted for. *)
Lemma accounted_step inv i st st' G :
  step_goroutine inv i st = Some st' ->
  accounted (goroutines st) G ->
  exists G', accounted (goroutines st') G'.
Proof.
  unfold step_goroutine. intros Hstep HJ.
  destruct (panicked st); [discriminate |].
  destruct (goroutines st !! i) as [g|] eqn:Hg; [| discriminate].
  destruct (accounted_lookup _ _ _ _ HJ Hg) as (o & ph & HG & Hok).
  pose proof Hok as (Hwf & Hcnt & Hq & Hp & Hr).
  assert (Hadv : forall k, code g <> Return -> wf k i o ph ->
                   accounted (advance i k (goroutines st)) G)
    by (intros k ? ?; eapply accounted_advance; eassumption).
  destruct (code g) as [| |m k|k|k|v k|k|dc k|A c k|k|w n k|w k|w k|child k]
    eqn:Hc; cbn in Hwf;
    try (injection Hstep as <-; exists G; cbn;
         first [exact HJ | apply Hadv; [discriminate | auto]]; fail).
  - discriminate.
  - (* VarWaitGroup *)
    destruct Hwf as [-> Hk].
    injection Hstep as <-. exists G. cbn. apply Hadv; [discriminate | exact Hk].
  - (* Add *)
    destruct Hwf as (-> & -> & m & -> & Hk).
    rewrite Hg in Hstep.
    destruct (counter g + Z.of_nat m <? 0); injection Hstep as <-;
      [exists G; exact HJ |].
    exists (<[i:=(o, Spawning m)]> G). cbn.
    specialize (Hq I). cbn in Hcnt.
    eapply accounted_rephase; try eassumption; cbn;
      [rewrite Hc; discriminate | lia | contradiction].
  - (* Done *)
    destruct (goroutines st !! w) as [gw|] eqn:Hw; [| discriminate].
    destruct (accounted_done _ _ _ _ _ _ _ _ _ HJ Hg HG Hc Hw) as [_ HJ'].
    destruct (counter gw - 1 <? 0); injection Hstep as <-;
      [exists G; exact HJ | eexists; exact HJ'].
  - (* Wait *)
    destruct Hwf as (-> & -> & Hk).
    rewrite Hg in Hstep.
    destruct (Z.eqb_spec (counter g) 0) as [Hz | ]; [| discriminate].
    injection Hstep as <-. exists (<[i:=(o, Post)]> G). cbn.
    rewrite <- (add_counter_zero i (advance i k (goroutines st))).
    cbn in Hcnt.
    eapply accounted_rephase; try eassumption; cbn;
      [rewrite Hc; discriminate | lia | lia].
  - (* Go *)
    destruct Hwf as (m & -> & _).
    injection Hstep as <-. eexists. cbn.
    eapply accounted_go; eassumption.
Qed.

(** WaitGroup counters never go negative: [Add] and [Done] do not panic. *)
Lemma accounted_counter_safe gs G i g :
  accounted gs G -> gs !! i = Some g ->
  match code g with
  | WgAdd w n _ => exists gw, gs !! w = Some gw /\ 0 <= counter gw + n
  | WgDone w _ => exists gw, gs !! w = Some gw /\ 0 <= counter gw - 1
  | _ => True
  end.
Proof.
  intros HJ Hg.
  destruct (accounted_lookup _ _ _ _ HJ Hg) as (o & ph & HG & Hok).
  pose proof Hok as (Hwf & Hcnt & Hq & Hp & Hr).
  destruct (code g) eqn:Hc; try exact I; cbn in Hwf.
  - destruct Hwf as (-> & -> & m & -> & _). exists g. split; [exact Hg |].
    specialize (Hq I). lia.
  - destruct Hwf as (-> & _ & _).
    pose proof (Hp w eq_refl) as Hlt.
    assert (Hwl : (w < length gs)%nat)
      by (apply lookup_lt_Some in Hg; lia).
    destruct (lookup_lt_is_Some_2 gs w Hwl) as [gw Hw].
    exists gw. split; [exact Hw |].
    destruct (accounted_done _ _ _ _ _ _ _ _ _ HJ Hg HG Hc Hw) as [H1 _]. lia.
Qed.

(** ** The barrier

    Once a goroutine is past its [Wait] (or never added anything), every
    goroutine started under its WaitGroup has called [Done]; and when the
    first goroutine is there, every other goroutine has returned. *)
Lemma no_children_when_quiescent gs G i g o ph :
  accounted gs G -> gs !! i = Some g -> G !! i = Some (o, ph) ->
  quiescent ph -> children i G = 0.
Proof.
  intros HJ Hg HG Hq.
  destruct (accounted_lookup _ _ _ _ HJ Hg) as (o' & ph' & HG' & Hok).
  rewrite HG in HG'. injection HG' as <- <-.
  destruct Hok as (_ & Hcnt & Hq0 & _).
  specialize (Hq0 Hq).
  destruct ph; cbn in *; try contradiction; lia.
Qed.

Lemma barrier gs G g0 o0 ph0 :
  accounted gs G -> gs !! 0%nat = Some g0 -> G !! 0%nat = Some (o0, ph0) ->
  quiescent ph0 ->
  forall j g, (0 < j)%nat -> gs !! j = Some g -> code g = Return.
Proof.
  intros HJ Hg0 HG0 Hq0 j.
  induction j as [j IH] using lt_wf_ind. intros g Hj Hg.
  destruct (accounted_lookup _ _ _ _ HJ Hg) as (o & ph & HG & Hok).
  pose proof Hok as (Hwf & Hcnt & Hq & Hp & Hr).
  destruct o as [p|]; [| apply Hr; [reflexivity | lia]].
  exfalso.
  pose proof (Hp p eq_refl) as Hlt.
  pose proof (children_pos _ _ _ _ HG) as Hpos.
  destruct (Nat.eq_dec p 0%nat) as [-> | Hp0].
  - rewrite (no_children_when_quiescent _ _ _ _ _ _ HJ Hg0 HG0 Hq0) in Hpos. lia.
  - assert (Hpl : (p < length gs)%nat) by (apply lookup_lt_Some in Hg; lia).
    destruct (lookup_lt_is_Some_2 gs p Hpl) as [gp Hgp].
    assert (Hret : code gp = Return) by (apply (IH p); [lia | lia | exact Hgp]).
    destruct (accounted_lookup _ _ _ _ HJ Hgp) as (op & php & HGp & Hokp).
    destruct Hokp as (Hwfp & _).
    rewrite Hret in Hwfp. cbn in Hwfp. destruct Hwfp as [_ Hqp].
    rewrite (no_children_when_quiescent _ _ _ _ _ _ HJ Hgp HGp Hqp) in Hpos. lia.
Qed.

(** ** What one step does *)

(** The code goroutine [i] is left with after its first statement. *)
Definition succ (inv : inventory) (st : state) (i : nat) (p : prog)
  : option prog :=
  match p with
  | Return | Panic => None
  | Send _ k | SendUp k | SetAvailable _ k | NewFinder k | SetDatacenter _ k
  | WgAdd _ _ k | WgDone _ k | WgWait _ k | Go _ k => Some k
  | GetAvailable k => Some (k (vcenterAvailable st))
  | Call c k => Some (k (answer inv (finder st) c))
  | VarWaitGroup k => Some (k i)
  end.

Definition spawned (p : prog) : option prog :=
  match p with Go child _ => Some child | _ => None end.

Definition sent (st : state) (p : prog) : list Metric :=
  match p with
  | Send m _ => [m]
  | SendUp _ => [ {| desc := upDesc; value := up st; labelValues := [] |} ]
  | _ => []
  end.

Definition written (st : state) (p : prog) : float64 :=
  match p with SetAvailable v _ => v | _ => vcenterAvailable st end.

Definition refound (st : state) (p : prog) : option Datacenter :=
  match p with
  | NewFinder _ => None
  | SetDatacenter dc _ => Some dc
  | _ => finder st
  end.

Definition called (i : nat) (p : prog) : list (nat * sigT request) :=
  match p with Call c _ => [(i, existT _ c)] | _ => [] end.

Lemma pool_advance gs i g k j :
  gs !! i = Some g ->
  code <$> (advance i k gs !! j)
  = if Nat.eqb j i then Some k
    else if Nat.eqb j (length gs) then None else code <$> (gs !! j).
Proof.
  intros Hg. destruct (Nat.eqb_spec j i) as [-> | Hne].
  - rewrite (lookup_advance_eq _ _ _ _ Hg). reflexivity.
  - rewrite lookup_advance_ne by auto.
    destruct (Nat.eqb_spec j (length gs)) as [-> | _]; [| reflexivity].
    rewrite lookup_ge_None_2 by lia. reflexivity.
Qed.

Lemma pool_add_counter gs w n j :
  code <$> (add_counter w n gs !! j) = code <$> (gs !! j).
Proof.
  unfold add_counter. destruct (Nat.eq_dec w j) as [<- | Hne].
  - rewrite list_lookup_alter_eq. destruct (gs !! w); reflexivity.
  - rewrite list_lookup_alter_ne by exact Hne. reflexivity.
Qed.

Lemma pool_go gs i g k child j :
  gs !! i = Some g ->
  code <$> ((advance i k gs ++ [ {| code := child; counter := 0 |} ]) !! j)
  = if Nat.eqb j i then Some k
    else if Nat.eqb j (length gs) then Some child else code <$> (gs !! j).
Proof.
  intros Hg. pose proof (lookup_lt_Some _ _ _ Hg) as Hi.
  destruct (Nat.lt_ge_cases j (length gs)) as [Hlt | Hge].
  - rewrite lookup_app_l by (rewrite length_advance; exact Hlt).
    rewrite (pool_advance _ _ _ _ _ Hg).
    destruct (Nat.eqb_spec j i); [reflexivity |].
    destruct (Nat.eqb_spec j (length gs)); [lia | reflexivity].
  - destruct (Nat.eqb_spec j i); [lia |].
    rewrite lookup_app_r by (rewrite length_advance; exact Hge).
    rewrite length_advance.
    destruct (Nat.eqb_spec j (length gs)) as [-> | Hne].
    + rewrite Nat.sub_diag. reflexivity.
    + destruct (j - length gs)%nat as [|d] eqn:Hd; [lia |].
      cbn. rewrite lookup_ge_None_2 by lia. reflexivity.
Qed.

(** A step either kills the process or runs the first statement of the
    goroutine: the pool, the channel, the flag, the finder and the log
    change as that statement says, the gauge [e.up] never. *)
Lemma step_effect inv i st st' :
  step_goroutine inv i st = Some st' ->
  panicked st = false /\
  exists g, goroutines st !! i = Some g /\
    (st' = with_panic st \/
     (panicked st' = false /\
      exists k, succ inv st i (code g) = Some k /\
        (forall j, code <$> (goroutines st' !! j)
                   = if Nat.eqb j i then Some k
                     else if Nat.eqb j (length (goroutines st))
                          then spawned (code g)
                          else code <$> (goroutines st !! j)) /\
        chan st' = chan st ++ sent st (code g) /\
        vcenterAvailable st' = written st (code g) /\
        finder st' = refound st (code g) /\
        up st' = up st /\
        calls st' = calls st ++ called i (code g))).
Proof.
  unfold step_goroutine. intros Hstep.
  destruct (panicked st) eqn:Hp; [discriminate |]. split; [reflexivity |].
  destruct (goroutines st !! i) as [g|] eqn:Hg; [| discriminate].
  exists g. split; [reflexivity |].
  destruct (code g) as [| |m k|k|k|v k|k|dc k|A c k|k|w n k|w k|w k|child k]
    eqn:Hc;
    try discriminate;
    try (injection Hstep as <-; left; reflexivity);
    try (injection Hstep as <-; right; split; [exact Hp |];
         eexists; split; [reflexivity |]; cbn;
         rewrite ?app_nil_r;
         repeat split; try reflexivity;
         intros j; first [apply (pool_advance _ _ _ _ _ Hg)
                         | apply (pool_go _ _ _ _ _ _ Hg)]; fail).
  - (* Add *)
    destruct (goroutines st !! w) as [gw|]; [| discriminate].
    destruct (counter gw + n <? 0); injection Hstep as <-;
      [left; reflexivity | right].
    split; [exact Hp |]. eexists; split; [reflexivity |]. cbn.
    rewrite ?app_nil_r. repeat split; try reflexivity.
    intros j. rewrite pool_add_counter. apply (pool_advance _ _ _ _ _ Hg).
  - (* Done *)
    destruct (goroutines st !! w) as [gw|]; [| discriminate].
    destruct (counter gw - 1 <? 0); injection Hstep as <-;
      [left; reflexivity | right].
    split; [exact Hp |]. eexists; split; [reflexivity |]. cbn.
    rewrite ?app_nil_r. repeat split; try reflexivity.
    intros j. rewrite pool_add_counter. apply (pool_advance _ _ _ _ _ Hg).
  - (* Wait *)
    destruct (goroutines st !! w) as [gw|]; [| discriminate].
    destruct (counter gw =? 0); [| discriminate]. injection Hstep as <-. right.
    split; [exact Hp |]. eexists; split; [reflexivity |]. cbn.
    rewrite ?app_nil_r. repeat split; try reflexivity.
    intros j. apply (pool_advance _ _ _ _ _ Hg).
Qed.

Lemma step_length inv i st st' g :
  step_goroutine inv i st = Some st' ->
  goroutines st !! i = Some g ->
  length (goroutines st')
  = (length (goroutines st)
     + match spawned (code g) with Some _ => 1 | None => 0 end)%nat.
Proof.
  unfold step_goroutine. intros Hstep Hg. rewrite Hg in Hstep.
  destruct (panicked st); [discriminate |].
  destruct (code g) as [| |m k|k|k|v k|k|dc k|A c k|k|w n k|w k|w k|child k];
    try discriminate;
    try (injection Hstep as <-; cbn;
         rewrite ?length_app, ?length_add_counter, ?length_advance; cbn; lia).
  - destruct (goroutines st !! w); [| discriminate].
    destruct (_ <? 0); injection Hstep as <-; cbn;
      rewrite ?length_add_counter, ?length_advance; lia.
  - destruct (goroutines st !! w); [| discriminate].
    destruct (_ <? 0); injection Hstep as <-; cbn;
      rewrite ?length_add_counter, ?length_advance; lia.
  - destruct (goroutines st !! w) as [gw|]; [| discriminate].
    destruct (counter gw =? 0); [| discriminate]. injection Hstep as <-. cbn.
    rewrite length_advance. lia.
Qed.

(** ** What a collector may do

    [emits inv P p]: on the answers of [inv], whatever datacenter the
    finder holds when a listing is sent, the code [p] and the goroutines
    it starts send only metrics that satisfy [P] and touch neither the
    availability flag, nor the finder, nor [e.up]. *)
Fixpoint emits (inv : inventory) (P : Metric -> Prop) (p : prog) : Prop :=
  match p with
  | Return | Panic => True
  | Send m k => P m /\ emits inv P k
  | SendUp _ | GetAvailable _ | SetAvailable _ _ | NewFinder _
  | SetDatacenter _ _ => False
  | Call c k => forall f, emits inv P (k (answer inv f c))
  | VarWaitGroup k => forall w, emits inv P (k w)
  | WgAdd _ _ k | WgDone _ k | WgWait _ k => emits inv P k
  | Go child k => emits inv P child /\ emits inv P k
  end.

Lemma emits_succ inv P st i p k :
  emits inv P p -> succ inv st i p = Some k ->
  emits inv P k /\ Forall P (sent st p) /\
  written st p = vcenterAvailable st /\ refound st p = finder st /\
  (forall c, spawned p = Some c -> emits inv P c).
Proof.
  destruct p; cbn; intros He [= <-]; try contradiction;
    repeat split; try (constructor; fail); try discriminate; try tauto; auto.
  - apply Forall_cons_2; [tauto | apply Forall_nil_2].
  - intros c Hc. injection Hc as <-. tauto.
Qed.

Lemma emits_and_then inv P p q :
  emits inv P p -> emits inv P q -> emits inv P (and_then p q).
Proof.
  intros Hp Hq. induction p; cbn in *; try tauto; auto.
Qed.


(** The metric that reports the availability flag. *)
Definition available_metric (v : float64) : Metric :=
  {| desc := vcenterAvailableDesc; value := v; labelValues := [] |}.

(** The code of [Collect] between the listing and the report: it sets the
    finder, handles its WaitGroup and starts collectors, and ends by
    sending the availability flag. *)
Fixpoint orchestrating (inv : inventory) (P : Metric -> Prop) (p : prog)
  : Prop :=
  match p with
  | SetDatacenter _ k | WgAdd _ _ k | WgWait _ k => orchestrating inv P k
  | VarWaitGroup k => forall w, orchestrating inv P (k w)
  | Go child k => emits inv P child /\ orchestrating inv P k
  | GetAvailable k => forall v, k v = Send (available_metric v) Return
  | _ => False
  end.

Section Poll.
Variable inv : inventory.
Variable P : Metric -> Prop.
Variables collectHostMetrics collectDatastoreMetrics : nat -> string -> prog.
Hypothesis hosts_emit :
  forall wg name, emits inv P (collectHostMetrics wg name).
Hypothesis datastores_emit :
  forall wg name, emits inv P (collectDatastoreMetrics wg name).
Hypothesis hosts_wf :
  forall wg name j, wf (collectHostMetrics wg name) j (Some wg) Pre.
Hypothesis datastores_wf :
  forall wg name j, wf (collectDatastoreMetrics wg name) j (Some wg) Pre.
Variable e : Exporter.

Let main := Collect collectHostMetrics collectDatastoreMetrics.

Definition up_metric : Metric :=
  {| desc := upDesc; value := e_up e; labelValues := [] |}.

Definition report : prog :=
  GetAvailable (fun v => send_const vcenterAvailableDesc v [] Return).

Definition fan_out (wg : nat) (dcs : list Datacenter) : prog :=
  for_each dcs (fun dc k =>
    SetDatacenter dc
      (Go (collectHostMetrics wg (Name dc))
         (Go (collectDatastoreMetrics wg (Name dc)) k)))
    (WgWait wg report).

Definition after_listing (r : result (list Datacenter)) : prog :=
  match r with
  | Failed => SetAvailable 0 Return
  | Ok dcs =>
      SetAvailable 1
        (VarWaitGroup (fun wg =>
           WgAdd wg (2 * Z.of_nat (length dcs)) (fan_out wg dcs)))
  end.

Lemma Collect_unfold :
  main = SendUp (NewFinder (Call DatacenterList after_listing)).
Proof. reflexivity. Qed.

Lemma fan_out_wf i dcs :
  wf (fan_out i dcs) i None (Spawning (2 * length dcs)).
Proof.
  induction dcs as [|dc dcs IH]; cbn.
  - repeat split.
  - exists (S (2 * length dcs)).
    split; [f_equal; lia |]. split; [apply hosts_wf |].
    exists (2 * length dcs)%nat.
    split; [reflexivity |]. split; [apply datastores_wf | exact IH].
Qed.

Lemma Collect_wf : wf main 0 None Pre.
Proof.
  cbn. intros [dcs|]; cbn; [| tauto].
  repeat split. exists (2 * length dcs)%nat.
  split; [lia | apply fan_out_wf].
Qed.

Lemma fan_out_orchestrating wg dcs : orchestrating inv P (fan_out wg dcs).
Proof.
  induction dcs as [|dc dcs IH]; cbn.
  - intros v. reflexivity.
  - split; [apply hosts_emit |]. split; [apply datastores_emit | exact IH].
Qed.

(** Where [Collect] stands, and what the channel holds there. *)
Inductive stage (st : state) (p : prog) : Prop :=
| stage_start :
    p = main -> chan st = [] -> length (goroutines st) = 1%nat -> stage st p
| stage_finder :
    p = NewFinder (Call DatacenterList after_listing) ->
    chan st = [up_metric] -> length (goroutines st) = 1%nat -> stage st p
| stage_listing :
    p = Call DatacenterList after_listing ->
    chan st = [up_metric] -> length (goroutines st) = 1%nat -> stage st p
| stage_failed :
    datacenters inv = Failed -> p = SetAvailable 0 Return ->
    chan st = [up_metric] -> length (goroutines st) = 1%nat -> stage st p
| stage_unavailable :
    datacenters inv = Failed -> p = Return ->
    chan st = [up_metric] -> vcenterAvailable st = 0 ->
    length (goroutines st) = 1%nat -> stage st p
| stage_listed dcs :
    datacenters inv = Ok dcs -> p = after_listing (Ok dcs) ->
    chan st = [up_metric] -> length (goroutines st) = 1%nat -> stage st p
| stage_fan_out dcs objs :
    datacenters inv = Ok dcs -> orchestrating inv P p ->
    vcenterAvailable st = 1 ->
    chan st = up_metric :: objs -> Forall P objs -> stage st p
| stage_report dcs objs :
    datacenters inv = Ok dcs -> p = Send (available_metric 1) Return ->
    vcenterAvailable st = 1 ->
    chan st = up_metric :: objs -> Forall P objs -> stage st p
| stage_done dcs objs :
    datacenters inv = Ok dcs -> p = Return ->
    vcenterAvailable st = 1 ->
    chan st = up_metric :: objs ++ [available_metric 1] ->
    Forall P objs -> stage st p.

(** The invariant of a poll. *)
Definition poll_inv (st : state) : Prop :=
  up st = e_up e /\
  (exists G, accounted (goroutines st) G) /\
  (exists p, code <$> (goroutines st !! 0%nat) = Some p /\ stage st p) /\
  (forall j c, (0 < j)%nat -> code <$> (goroutines st !! j) = Some c ->
               emits inv P c).

Lemma poll_inv_start : poll_inv (start e main).
Proof.
  split; [reflexivity |]. split.
  { exists [(None, Pre)]. split; [reflexivity |].
    intros [|i] g Hg; [| discriminate]. injection Hg as <-.
    exists None, Pre. split; [reflexivity |].
    unfold thread_ok; cbn [code counter].
    split; [apply Collect_wf |]. cbn.
    repeat split; try discriminate; try lia. }
  split.
  { exists main. split; [reflexivity |]. apply stage_start; reflexivity. }
  intros [|j] c Hj; [lia | discriminate].
Qed.

Lemma poll_inv_panic st : poll_inv st -> poll_inv (with_panic st).
Proof.
  intros (Hup & HG & (p & Hp & Hs) & He).
  split; [exact Hup |]. split; [exact HG |]. split; [| exact He].
  exists p. split; [exact Hp |].
  destruct Hs; [ eapply stage_start | eapply stage_finder
               | eapply stage_listing | eapply stage_failed
               | eapply stage_unavailable | eapply stage_listed
               | eapply stage_fan_out | eapply stage_report
               | eapply stage_done ]; eassumption.
Qed.

Lemma stage_weaken st st' p :
  stage st p ->
  chan st' = chan st -> vcenterAvailable st' = vcenterAvailable st ->
  length (goroutines st') = length (goroutines st) ->
  stage st' p.
Proof.
  intros Hs Hc Hv Hl.
  destruct Hs; [ eapply stage_start | eapply stage_finder
               | eapply stage_listing | eapply stage_failed
               | eapply stage_unavailable | eapply stage_listed
               | eapply stage_fan_out | eapply stage_report
               | eapply stage_done ]; try eassumption; congruence.
Qed.

(** While [Collect] is alone, goroutine 0 is the only one. *)
Lemma alone st j c :
  length (goroutines st) = 1%nat -> (0 < j)%nat ->
  code <$> (goroutines st !! j) = Some c -> False.
Proof.
  intros Hl Hj Hc. rewrite lookup_ge_None_2 in Hc by lia. discriminate.
Qed.

Lemma poll_inv_step i st st' :
  poll_inv st -> step_goroutine inv i st = Some st' -> poll_inv st'.
Proof.
  intros Hinv Hstep.
  destruct (step_effect _ _ _ _ Hstep)
    as (Hnp & g & Hg &
        [-> | (Hnp' & k & Hk & Hpool & Hchan & Hav & Hf & Hup' & Hcalls)]).
  { apply poll_inv_panic; exact Hinv. }
  pose proof (step_length _ _ _ _ _ Hstep Hg) as Hlen.
  destruct Hinv as (Hup & [G HG] & (p & Hp & Hs) & He).
  destruct (accounted_step _ _ _ _ _ Hstep HG) as [G' HG'].
  split; [congruence |]. split; [eauto |].
  destruct i as [|i].
  - (* Collect moves *)
    rewrite Hg in Hp. cbn in Hp. injection Hp as Hc.
    pose proof (Hpool 0%nat) as Hmain. cbn in Hmain.
    assert (Hothers : forall j c, (0 < j)%nat ->
              code <$> (goroutines st' !! j) = Some c ->
              (spawned (code g) = Some c) \/
              code <$> (goroutines st !! j) = Some c).
    { intros j c Hj Hjc. rewrite Hpool in Hjc.
      destruct (Nat.eqb_spec j 0); [lia |].
      destruct (Nat.eqb j (length (goroutines st))); auto. }
    destruct Hs as [-> Hch Hl | -> Hch Hl | -> Hch Hl | Hd -> Hch Hl
                   | Hd -> Hch Hv Hl | dcs Hd -> Hch Hl
                   | dcs objs Hd Ho Hv Hch HP | dcs objs Hd -> Hv Hch HP
                   | dcs objs Hd -> Hv Hch HP];
      rewrite Hc in *; cbn in Hk, Hchan, Hav, Hlen, Hothers;
      try discriminate.
    + (* ch <- e.up *)
      injection Hk as <-. split.
      * eexists; split; [exact Hmain |]. apply stage_finder;
          [reflexivity | rewrite Hchan, Hch, Hup; reflexivity | lia].
      * intros j c Hj Hjc. destruct (Hothers j c Hj Hjc) as [? | H];
          [discriminate | exact (False_ind _ (alone _ _ _ Hl Hj H))].
    + (* NewFinder *)
      injection Hk as <-. split.
      * eexists; split; [exact Hmain |]. apply stage_listing;
          [reflexivity | rewrite Hchan, Hch; reflexivity | lia].
      * intros j c Hj Hjc. destruct (Hothers j c Hj Hjc) as [? | H];
          [discriminate | exact (False_ind _ (alone _ _ _ Hl Hj H))].
    + (* DatacenterList *)
      injection Hk as <-. split.
      * eexists; split; [exact Hmain |].
        destruct (datacenters inv) as [dcs|] eqn:Hd.
        -- eapply stage_listed;
             [exact Hd | reflexivity | rewrite Hchan, Hch; reflexivity | lia].
        -- eapply stage_failed;
             [exact Hd | reflexivity | rewrite Hchan, Hch; reflexivity | lia].
      * intros j c Hj Hjc. destruct (Hothers j c Hj Hjc) as [? | H];
          [discriminate | exact (False_ind _ (alone _ _ _ Hl Hj H))].
    + (* the listing failed: e.vcenterAvailable = 0 *)
      injection Hk as <-. split.
      * eexists; split; [exact Hmain |]. apply stage_unavailable;
          [exact Hd | reflexivity | rewrite Hchan, Hch; reflexivity
          | exact Hav | lia].
      * intros j c Hj Hjc. destruct (Hothers j c Hj Hjc) as [? | H];
          [discriminate | exact (False_ind _ (alone _ _ _ Hl Hj H))].
    + (* e.vcenterAvailable = 1 *)
      injection Hk as <-. split.
      * eexists; split; [exact Hmain |].
        eapply (stage_fan_out _ _ dcs []);
          [exact Hd | | exact Hav | rewrite Hchan, Hch; reflexivity
          | constructor].
        intros w. cbn. apply fan_out_orchestrating.
      * intros j c Hj Hjc. destruct (Hothers j c Hj Hjc) as [? | H];
          [discriminate | exact (False_ind _ (alone _ _ _ Hl Hj H))].
    + (* the fan-out *)
      destruct p as [| |m k0|k0|k0|v k0|k0|dc k0|A c0 k0|k0
                    |w n k0|w k0|w k0|child k0];
        cbn in Ho; try contradiction;
        cbn in Hk, Hchan, Hav, Hothers; injection Hk as <-;
        rewrite ?app_nil_r in Hchan.
      * (* the report reads the flag *)
        rewrite (Ho (vcenterAvailable st)), Hv in Hmain.
        split.
        -- eexists; split; [exact Hmain |].
           eapply (stage_report _ _ dcs objs);
             [exact Hd | reflexivity | congruence | congruence | exact HP].
        -- intros j c Hj Hjc. destruct (Hothers j c Hj Hjc) as [? | H];
             [discriminate | eauto].
      * split.
        -- eexists; split; [exact Hmain |].
           eapply (stage_fan_out _ _ dcs objs);
             [exact Hd | exact Ho | congruence | congruence | exact HP].
        -- intros j c Hj Hjc. destruct (Hothers j c Hj Hjc) as [? | H];
             [discriminate | eauto].
      * split.
        -- eexists; split; [exact Hmain |].
           eapply (stage_fan_out _ _ dcs objs);
             [exact Hd | apply Ho | congruence | congruence | exact HP].
        -- intros j c Hj Hjc. destruct (Hothers j c Hj Hjc) as [? | H];
             [discriminate | eauto].
      * split.
        -- eexists; split; [exact Hmain |].
           eapply (stage_fan_out _ _ dcs objs);
             [exact Hd | exact Ho | congruence | congruence | exact HP].
        -- intros j c Hj Hjc. destruct (Hothers j c Hj Hjc) as [? | H];
             [discriminate | eauto].
      * split.
        -- eexists; split; [exact Hmain |].
           eapply (stage_fan_out _ _ dcs objs);
             [exact Hd | exact Ho | congruence | congruence | exact HP].
        -- intros j c Hj Hjc. destruct (Hothers j c Hj Hjc) as [? | H];
             [discriminate | eauto].
      * destruct Ho as [Hchild Ho]. split.
        -- eexists; split; [exact Hmain |].
           eapply (stage_fan_out _ _ dcs objs);
             [exact Hd | exact Ho | congruence | congruence | exact HP].
        -- intros j c Hj Hjc. destruct (Hothers j c Hj Hjc) as [H | H];
             [injection H as <-; exact Hchild | eauto].
    + (* ch <- vcenter_available *)
      injection Hk as <-. split.
      * eexists; split; [exact Hmain |].
        eapply (stage_done _ _ dcs objs);
          [exact Hd | reflexivity | congruence
          | rewrite Hchan, Hch; reflexivity | exact HP].
      * intros j c Hj Hjc. destruct (Hothers j c Hj Hjc) as [? | H];
          [discriminate | eauto].
  - (* a collector moves *)
    assert (Hge : emits inv P (code g)).
    { apply (He (S i)); [lia | rewrite Hg; reflexivity]. }
    destruct (emits_succ _ _ st (S i) _ _ Hge Hk)
      as (Hek & Hsent & Hw & _ & Hsp).
    pose proof (lookup_lt_Some _ _ _ Hg) as Hlt.
    assert (Hmain : code <$> (goroutines st' !! 0%nat) = Some p).
    { rewrite Hpool.
      destruct (Nat.eqb_spec 0 (S i)); [lia |].
      destruct (Nat.eqb_spec 0 (length (goroutines st))); [lia | exact Hp]. }
    split.
    + exists p. split; [exact Hmain |].
      destruct (goroutines st !! 0%nat) as [g0|] eqn:Hg0; [| discriminate].
      cbn in Hp. injection Hp as Hp.
      assert (Hbar : (exists m, p = Send m Return) \/ p = Return -> False).
      { intros Hpm.
        destruct (accounted_lookup _ _ _ _ HG Hg0) as (o & ph & HG0 & Hok).
        destruct Hok as (Hwf & _).
        assert (Hq : quiescent ph).
        { rewrite Hp in Hwf. destruct Hpm as [[m ->] | ->]; cbn in Hwf; tauto. }
        assert (Hr : code g = Return).
        { apply (barrier _ _ _ _ _ HG Hg0 HG0 Hq (S i)); [lia | exact Hg]. }
        rewrite Hr in Hk. discriminate. }
      destruct Hs as [-> Hch Hl | -> Hch Hl | -> Hch Hl | Hd -> Hch Hl
                     | Hd -> Hch Hv Hl | dcs Hd -> Hch Hl
                     | dcs objs Hd Ho Hv Hch HP | dcs objs Hd -> Hv Hch HP
                     | dcs objs Hd -> Hv Hch HP];
        try lia;
        try (exfalso; apply Hbar;
             first [left; eexists; reflexivity | right; reflexivity]).
      eapply (stage_fan_out _ _ dcs (objs ++ sent st (code g)));
        [exact Hd | exact Ho | congruence
        | rewrite Hchan, Hch; reflexivity
        | apply Forall_app; split; assumption].
    + intros j c Hj Hjc. rewrite Hpool in Hjc.
      destruct (Nat.eqb j (S i)); [injection Hjc as <-; exact Hek |].
      destruct (Nat.eqb j (length (goroutines st))); [auto | eauto].
Qed.

Lemma poll_inv_steps st st' :
  poll_inv st -> steps inv st st' -> poll_inv st'.
Proof.
  intros Hinv Hsteps. induction Hsteps as [| st st1 st2 [i Hi] _ IH];
    [exact Hinv | apply IH; eapply poll_inv_step; eassumption].
Qed.

Lemma poll_inv_run schedule st :
  poll_inv st -> poll_inv (run inv schedule st).
Proof.
  revert st. induction schedule as [|i rest IH]; intros st Hinv; cbn;
    [exact Hinv |].
  destruct (step_goroutine inv i st) as [st'|] eqn:Hs;
    [apply IH; eapply poll_inv_step; eassumption | apply IH; exact Hinv].
Qed.

(** When [Collect] has returned: after a failed listing the channel
    holds the up gauge and nothing else; after a successful one, the up
    gauge, then what the collectors sent, then the availability metric,
    and the flag is still 1. *)
Lemma poll_inv_returned st :
  poll_inv st ->
  code <$> (goroutines st !! 0%nat) = Some Return ->
  (datacenters inv = Failed /\ chan st = [up_metric] /\
   vcenterAvailable st = 0) \/
  (exists dcs objs, datacenters inv = Ok dcs /\
     chan st = up_metric :: objs ++ [available_metric 1] /\
     Forall P objs /\ vcenterAvailable st = 1).
Proof.
  intros (_ & _ & (p & Hp & Hs) & _) Hr.
  rewrite Hr in Hp. injection Hp as <-.
  destruct Hs as [H | H | H | _ H | Hd _ Hch Hv _ | dcs _ H
                 | dcs objs _ Ho | dcs objs _ H
                 | dcs objs Hd _ Hv Hch HP];
    try discriminate; try contradiction.
  - left. auto.
  - right. exists dcs, objs. auto.
Qed.

(** At any point of a poll the channel starts with the up gauge, and
    after a failed listing it holds nothing else. *)
Lemma poll_inv_chan st :
  poll_inv st ->
  (chan st = [] \/ exists rest, chan st = up_metric :: rest) /\
  (datacenters inv = Failed -> chan st = [] \/ chan st = [up_metric]).
Proof.
  intros (_ & _ & (p & Hp & Hs) & _).
  destruct Hs as [_ Hch _ | _ Hch _ | _ Hch _ | _ _ Hch _ | _ _ Hch _ _
                 | dcs _ _ Hch _ | dcs objs Hd _ _ Hch _
                 | dcs objs Hd _ _ Hch _ | dcs objs Hd _ _ Hch _];
    rewrite Hch; split; eauto; intros Hf; congruence.
Qed.

End Poll.

(** ** Panics *)

(** [nopanic inv p]: on the answers of [inv] the code [p] and the
    goroutines it starts never reach a [Panic]. *)
Fixpoint nopanic (inv : inventory) (p : prog) : Prop :=
  match p with
  | Return => True
  | Panic => False
  | Send _ k | SendUp k | SetAvailable _ k | NewFinder k | SetDatacenter _ k
  | WgAdd _ _ k | WgDone _ k | WgWait _ k => nopanic inv k
  | GetAvailable k => forall v, nopanic inv (k v)
  | Call c k => forall f, nopanic inv (k (answer inv f c))
  | VarWaitGroup k => forall w, nopanic inv (k w)
  | Go child k => nopanic inv child /\ nopanic inv k
  end.

Lemma nopanic_succ inv st i p k :
  nopanic inv p -> succ inv st i p = Some k ->
  nopanic inv k /\ (forall c, spawned p = Some c -> nopanic inv c).
Proof.
  destruct p; cbn; intros Hn [= <-]; try contradiction;
    split; try discriminate; try tauto; auto.
  intros c Hc. injection Hc as <-. tauto.
Qed.

Lemma nopanic_and_then inv p q :
  nopanic inv p -> nopanic inv q -> nopanic inv (and_then p q).
Proof. intros Hp Hq. induction p; cbn in *; try tauto; auto. Qed.

Lemma nopanic_for_each {A : Type} inv (l : list A) body k :
  (forall x k', nopanic inv k' -> nopanic inv (body x k')) ->
  nopanic inv k -> nopanic inv (for_each l body k).
Proof. intros Hb Hk. induction l as [|x l IH]; cbn; auto. Qed.

(** With the WaitGroups accounted for, only a [Panic] statement kills the
    process. *)
Lemma step_alive inv i st st' G g :
  accounted (goroutines st) G ->
  goroutines st !! i = Some g -> code g <> Panic ->
  step_goroutine inv i st = Some st' -> panicked st' = false.
Proof.
  intros HJ Hg Hnp Hstep.
  pose proof (accounted_counter_safe _ _ _ _ HJ Hg) as Hsafe.
  unfold step_goroutine in Hstep. rewrite Hg in Hstep.
  destruct (panicked st) eqn:Hp; [discriminate |].
  destruct (code g) as [| |m k|k|k|v k|k|dc k|A c k|k|w n k|w k|w k|child k];
    try discriminate; try contradiction;
    try (injection Hstep as <-; exact Hp).
  - destruct Hsafe as (gw & Hw & Hge). rewrite Hw in Hstep.
    destruct (Z.ltb_spec (counter gw + n) 0); [lia |].
    injection Hstep as <-. exact Hp.
  - destruct Hsafe as (gw & Hw & Hge). rewrite Hw in Hstep.
    destruct (Z.ltb_spec (counter gw - 1) 0); [lia |].
    injection Hstep as <-. exact Hp.
  - destruct (goroutines st !! w) as [gw|]; [| discriminate].
    destruct (counter gw =? 0); [| discriminate].
    injection Hstep as <-. exact Hp.
Qed.

(** The process is alive and no goroutine can panic. *)
Definition safe (inv : inventory) (st : state) : Prop :=
  panicked st = false /\
  forall j c, code <$> (goroutines st !! j) = Some c -> nopanic inv c.

Lemma safe_step inv i st st' G :
  accounted (goroutines st) G -> safe inv st ->
  step_goroutine inv i st = Some st' -> safe inv st'.
Proof.
  intros HJ [Hp Hsafe] Hstep.
  destruct (step_effect _ _ _ _ Hstep) as (_ & g & Hg & Heff).
  assert (Hn : nopanic inv (code g)) by (apply (Hsafe i); rewrite Hg; reflexivity).
  assert (Halive : panicked st' = false).
  { eapply step_alive; try eassumption. intros Hc. rewrite Hc in Hn. exact Hn. }
  destruct Heff as [-> | (_ & k & Hk & Hpool & _)]; [discriminate |].
  split; [exact Halive |].
  destruct (nopanic_succ _ _ _ _ _ Hn Hk) as [Hnk Hsp].
  intros j c Hjc. rewrite Hpool in Hjc.
  destruct (Nat.eqb j i); [injection Hjc as <-; exact Hnk |].
  destruct (Nat.eqb j (length (goroutines st))); [auto | eauto].
Qed.

(** ** Completion *)

Definition returned (p : prog) : bool :=
  match p with Return => true | _ => false end.

(** The poll is over: the process is alive and every goroutine has
    returned. *)
Definition finished (st : state) : bool :=
  negb (panicked st) && forallb (fun g => returned (code g)) (goroutines st).

Lemma finished_spec st :
  finished st = true <->
  panicked st = false /\
  forall i g, goroutines st !! i = Some g -> code g = Return.
Proof.
  unfold finished. rewrite andb_true_iff, negb_true_iff, forallb_forall.
  split; intros [Hp H]; (split; [exact Hp |]).
  - intros i g Hg.
    assert (Hin : In g (goroutines st))
      by (apply list_elem_of_In, list_elem_of_lookup; eauto).
    specialize (H g Hin). destruct (code g); try discriminate; reflexivity.
  - intros g Hin. apply list_elem_of_In, list_elem_of_lookup in Hin.
    destruct Hin as [i Hi]. rewrite (H i g Hi). reflexivity.
Qed.

Lemma not_all_returned (gs : list goroutine) :
  forallb (fun g => returned (code g)) gs = false ->
  exists i g, gs !! i = Some g /\ code g <> Return.
Proof.
  induction gs as [|x gs IH]; cbn; [discriminate |].
  destruct (returned (code x)) eqn:Hx; cbn.
  - intros H. destruct (IH H) as (i & g & Hg & Hc). exists (S i), g. auto.
  - intros _. exists 0%nat, x. split; [reflexivity |].
    intros Hr. rewrite Hr in Hx. discriminate.
Qed.

(** The last goroutine that has not returned. *)
Lemma last_running (gs : list goroutine) :
  (exists i g, gs !! i = Some g /\ code g <> Return) ->
  exists i g, gs !! i = Some g /\ code g <> Return /\
    forall j g', (i < j)%nat -> gs !! j = Some g' -> code g' = Return.
Proof.
  induction gs as [|x gs IH] using rev_ind; intros (i & g & Hg & Hc);
    [discriminate |].
  destruct (returned (code x)) eqn:Hx.
  - assert (Hxr : code x = Return) by (destruct (code x); try discriminate; reflexivity).
    assert (Hi : (i < length gs)%nat).
    { destruct (Nat.lt_ge_cases i (length gs)) as [? | Hge]; [assumption |].
      rewrite lookup_app_r in Hg by exact Hge.
      destruct (i - length gs)%nat; [| discriminate].
      injection Hg as <-. contradiction. }
    rewrite lookup_app_l in Hg by exact Hi.
    destruct IH as (i' & g' & Hg' & Hc' & Hlast); [eauto |].
    exists i', g'. pose proof (lookup_lt_Some _ _ _ Hg').
    split; [rewrite lookup_app_l by lia; exact Hg' |]. split; [exact Hc' |].
    intros j gj Hj Hgj.
    destruct (Nat.lt_ge_cases j (length gs)) as [Hlt | Hge].
    + rewrite lookup_app_l in Hgj by exact Hlt. eauto.
    + rewrite lookup_app_r in Hgj by exact Hge.
      destruct (j - length gs)%nat; [| discriminate].
      injection Hgj as <-. exact Hxr.
  - exists (length gs), x.
    split; [rewrite lookup_app_r, Nat.sub_diag by lia; reflexivity |].
    split; [intros Hr; rewrite Hr in Hx; discriminate |].
    intros j gj Hj Hgj. apply lookup_lt_Some in Hgj.
    rewrite length_app in Hgj. cbn in Hgj. lia.
Qed.

(** No deadlock: while a goroutine has not returned, one can move. *)
Lemma progress inv st G :
  accounted (goroutines st) G -> panicked st = false ->
  finished st = false ->
  exists i st', step_goroutine inv i st = Some st'.
Proof.
  intros HJ Hp Hnf.
  assert (Hrun : exists i g, goroutines st !! i = Some g /\ code g <> Return).
  { destruct (forallb (fun g => returned (code g)) (goroutines st)) eqn:Hall.
    - unfold finished in Hnf. rewrite Hp, Hall in Hnf. discriminate.
    - apply not_all_returned, Hall. }
  destruct (last_running _ Hrun) as (i & g & Hg & Hc & Hlast).
  exists i.
  destruct (accounted_lookup _ _ _ _ HJ Hg) as (o & ph & HG & Hok).
  pose proof Hok as (Hwf & Hcnt & Hq & Hpar & Hr).
  pose proof (accounted_counter_safe _ _ _ _ HJ Hg) as Hsafe.
  unfold step_goroutine. rewrite Hp, Hg.
  destruct (code g) as [| |m k|k|k|v k|k|dc k|A c k|k|w n k|w k|w k|child k]
    eqn:Hcg; try (eexists; reflexivity); try contradiction.
  - destruct Hsafe as (gw & Hw & _). rewrite Hw.
    destruct (counter gw + n <? 0); eexists; reflexivity.
  - destruct Hsafe as (gw & Hw & _). rewrite Hw.
    destruct (counter gw - 1 <? 0); eexists; reflexivity.
  - cbn in Hwf. destruct Hwf as (-> & -> & _). rewrite Hg.
    assert (Hz : children i G = 0).
    { apply children_zero. intros j oj phj Hj ->.
      pose proof (accounted_parent_lt _ _ _ _ _ _ HJ Hj eq_refl) as Hlt.
      destruct HJ as [Hlen HJ'].
      assert (Hjl : (j < length (goroutines st))%nat)
        by (rewrite <- Hlen; eapply lookup_lt_Some; eassumption).
      destruct (lookup_lt_is_Some_2 _ _ Hjl) as [gj Hgj].
      destruct (HJ' j gj Hgj) as (oj' & phj' & Hj' & Hwfj & _).
      rewrite Hj in Hj'. injection Hj' as <- <-.
      rewrite (Hlast j gj Hlt Hgj) in Hwfj. cbn in Hwfj.
      destruct Hwfj as [? _]. discriminate. }
    cbn in Hcnt. rewrite Hz in Hcnt.
    destruct (Z.eqb_spec (counter g) 0); [eexists; reflexivity | lia].
Qed.

(** ** Termination

    A goroutine consumes its code statement by statement; the measure of a
    pool is the number of statements left, over every datacenter the
    finder may hold when a listing is sent. *)
Section Size.
Variable inv : inventory.
Variable fs : list (option Datacenter).

Fixpoint size (p : prog) : nat :=
  match p with
  | Return => 0
  | Panic => 1
  | Send _ k | SendUp k | SetAvailable _ k | NewFinder k | SetDatacenter _ k
  | WgAdd _ _ k | WgDone _ k | WgWait _ k => S (size k)
  | GetAvailable k => S (size (k 0))
  | Call c k => S (sum_list_with (fun f => size (k (answer inv f c))) fs)
  | VarWaitGroup k => S (size (k 0%nat))
  | Go child k => S (size child + size k)
  end.

(** [size] is a bound for [p]: its length depends neither on the value
    of the flag nor on the address of a WaitGroup, and the finder stays
    within [fs]. *)
Fixpoint sized (p : prog) : Prop :=
  match p with
  | Return | Panic => True
  | Send _ k | SendUp k | SetAvailable _ k
  | WgAdd _ _ k | WgDone _ k | WgWait _ k => sized k
  | NewFinder k => In None fs /\ sized k
  | SetDatacenter dc k => In (Some dc) fs /\ sized k
  | GetAvailable k =>
      forall v, (size (k v) <= size (k 0%Z))%nat /\ sized (k v)
  | Call c k => forall f, In f fs -> sized (k (answer inv f c))
  | VarWaitGroup k =>
      forall w, (size (k w) <= size (k 0%nat))%nat /\ sized (k w)
  | Go child k => sized child /\ sized k
  end.

Lemma size_succ st i p k :
  sized p -> In (finder st) fs -> succ inv st i p = Some k ->
  sized k /\ In (refound st p) fs /\
  (forall c, spawned p = Some c -> sized c) /\
  (size k + match spawned p with Some c => size c | None => 0 end
   < size p)%nat.
Proof.
  destruct p; cbn; intros Hs Hf [= <-]; try contradiction;
    repeat split; try discriminate; try tauto; try lia; auto.
  - apply Hs.
  - specialize (Hs (vcenterAvailable st)). lia.
  - apply Nat.lt_succ_r. rewrite Nat.add_0_r.
    apply (sum_list_with_in _ (fun f => size (k0 (answer inv f c)))).
    apply list_elem_of_In, Hf.
  - apply Hs.
  - specialize (Hs i). lia.
  - intros c Hc. injection Hc as <-. tauto.
Qed.

Definition total (cs : list prog) : nat := sum_list_with size cs.

Lemma total_insert (cs : list prog) i p k :
  cs !! i = Some p ->
  (total (<[i:=k]> cs) + size p = total cs + size k)%nat.
Proof.
  unfold total. revert i. induction cs as [|x cs IH]; intros [|i] H;
    try discriminate.
  - injection H as ->. change (<[0%nat:=k]> (p :: cs)) with (k :: cs).
    cbn. lia.
  - change (<[S i:=k]> (x :: cs)) with (x :: <[i:=k]> cs).
    cbn. specialize (IH i H). lia.
Qed.

(** The finder holds a datacenter of [fs] and every goroutine is
    bounded. *)
Definition bounded (st : state) : Prop :=
  In (finder st) fs /\
  forall j c, code <$> (goroutines st !! j) = Some c -> sized c.

Definition measure (st : state) : nat :=
  if panicked st then 0%nat else S (total (code <$> goroutines st)).

Lemma codes_after (gs gs' : list goroutine) i g k (sp : option prog) :
  gs !! i = Some g ->
  length gs' = (length gs + match sp with Some _ => 1 | None => 0 end)%nat ->
  (forall j, code <$> (gs' !! j)
             = if Nat.eqb j i then Some k
               else if Nat.eqb j (length gs) then sp
                    else code <$> (gs !! j)) ->
  code <$> gs' = <[i:=k]> (code <$> gs)
                 ++ match sp with Some c => [c] | None => [] end.
Proof.
  intros Hg Hlen Hpool. pose proof (lookup_lt_Some _ _ _ Hg) as Hi.
  apply list_eq. intros j. rewrite list_lookup_fmap, Hpool.
  destruct (Nat.eqb_spec j i) as [-> | Hne].
  - rewrite lookup_app_l by (rewrite length_insert, length_fmap; exact Hi).
    rewrite list_lookup_insert_eq by (rewrite length_fmap; exact Hi).
    reflexivity.
  - destruct (Nat.eqb_spec j (length gs)) as [-> | Hnl].
    + rewrite lookup_app_r by (rewrite length_insert, length_fmap; lia).
      rewrite length_insert, length_fmap, Nat.sub_diag.
      destruct sp; reflexivity.
    + destruct (Nat.lt_ge_cases j (length gs)) as [Hlt | Hge].
      * rewrite lookup_app_l by (rewrite length_insert, length_fmap; exact Hlt).
        rewrite list_lookup_insert_ne by auto.
        rewrite list_lookup_fmap. reflexivity.
      * rewrite (lookup_ge_None_2 gs j) by exact Hge.
        rewrite lookup_ge_None_2; [reflexivity |].
        rewrite length_app, length_insert, length_fmap.
        destruct sp; cbn; lia.
Qed.

Lemma measure_step i st st' :
  bounded st -> step_goroutine inv i st = Some st' ->
  bounded st' /\ (measure st' < measure st)%nat.
Proof.
  intros [Hf Hb] Hstep.
  destruct (step_effect _ _ _ _ Hstep)
    as (Hnp & g & Hg &
        [-> | (Hnp' & k & Hk & Hpool & _ & _ & Hf' & _)]).
  { split; [split; assumption |]. unfold measure. cbn. rewrite Hnp. lia. }
  pose proof (step_length _ _ _ _ _ Hstep Hg) as Hlen.
  assert (Hs : sized (code g)) by (apply (Hb i); rewrite Hg; reflexivity).
  destruct (size_succ _ _ _ _ Hs Hf Hk) as (Hsk & Hfin & Hsp & Hlt).
  split.
  - split; [rewrite Hf'; exact Hfin |].
    intros j c Hjc. rewrite Hpool in Hjc.
    destruct (Nat.eqb j i); [injection Hjc as <-; exact Hsk |].
    destruct (Nat.eqb j (length (goroutines st))); [auto | eauto].
  - unfold measure. rewrite Hnp, Hnp'.
    rewrite (codes_after _ _ _ _ _ _ Hg Hlen Hpool).
    assert (Hgi : (code <$> goroutines st) !! i = Some (code g))
      by (rewrite list_lookup_fmap, Hg; reflexivity).
    pose proof (total_insert _ _ _ k Hgi) as Hins.
    unfold total in *. rewrite sum_list_with_app.
    destruct (spawned (code g)); cbn; lia.
Qed.

(** Every run is finite. *)
Lemma bounded_sn st : bounded st -> sn (step inv) st.
Proof.
  remember (measure st) as n eqn:Hn. revert st Hn.
  induction n as [n IH] using lt_wf_ind. intros st -> Hb.
  constructor. intros st' [i Hstep].
  destruct (measure_step _ _ _ Hb Hstep) as [Hb' Hlt].
  exact (IH _ Hlt st' eq_refl Hb').
Qed.
End Size.

(** ** The building blocks of the collectors *)

(** [defer wg.Done()] turns a body that returns into a goroutine that
    calls [Done] last. *)
Lemma wf_defer_Done p w i ph :
  wf p i None ph -> wf (defer_Done w p) i (Some w) ph.
Proof.
  unfold defer_Done. revert i ph.
  induction p as [| |m k IH|k IH|k IH|v k IH|k IH|dc k IH|A c k IH|k IH
                 |w' n k IH|w' k IH|w' k IH|child IHc k IH];
    intros i ph; cbn; auto.
  - tauto.
  - intros [-> H]. auto.
  - intros (-> & -> & m & -> & H). eauto 10.
  - intros (H & _). discriminate.
  - intros (-> & -> & H). auto.
  - intros (m & -> & Hc & H). eauto 10.
Qed.

Lemma wf_for_each {A : Type} (l : list A) body k i o ph :
  (forall x k', wf k' i o ph -> wf (body x k') i o ph) ->
  wf k i o ph -> wf (for_each l body k) i o ph.
Proof. intros Hb Hk. induction l as [|x l IH]; cbn; auto. Qed.

Lemma wf_send_sample {S : Type} d g (getters : list (option (S -> string)))
    hierarchy (s : S) k i o ph :
  wf k i o ph -> wf (send_sample d g getters hierarchy s k) i o ph.
Proof.
  intros Hk. unfold send_sample, send_const.
  destruct (label_values getters s); [| exact I].
  destruct g; [| exact I].
  destruct (MustNewConstMetric _ _ _); [exact Hk | exact I].
Qed.

Lemma emits_for_each_in {A : Type} inv P (l : list A) body k :
  (forall x k', In x l -> emits inv P k' -> emits inv P (body x k')) ->
  emits inv P k -> emits inv P (for_each l body k).
Proof.
  intros Hb Hk. induction l as [|x l IH]; cbn; [exact Hk |].
  apply Hb; [left; reflexivity |].
  apply IH. intros y k' Hy. apply Hb. right. exact Hy.
Qed.

(** Code without a read of the flag and without a WaitGroup of its own. *)
Fixpoint plain (p : prog) : Prop :=
  match p with
  | Return | Panic => True
  | GetAvailable _ | VarWaitGroup _ => False
  | Send _ k | SendUp k | SetAvailable _ k | NewFinder k | SetDatacenter _ k
  | WgAdd _ _ k | WgDone _ k | WgWait _ k | Go _ k => plain k
  | Call c k => forall r, plain (k r)
  end.

Lemma plain_for_each {A : Type} (l : list A) body k :
  (forall x k', plain k' -> plain (body x k')) ->
  plain k -> plain (for_each l body k).
Proof. intros Hb Hk. induction l as [|x l IH]; cbn; auto. Qed.

Lemma plain_send_sample {S : Type} d g (getters : list (option (S -> string)))
    hierarchy (s : S) k :
  plain k -> plain (send_sample d g getters hierarchy s k).
Proof.
  intros Hk. unfold send_sample, send_const.
  destruct (label_values getters s); [| exact I].
  destruct g; [| exact I].
  destruct (MustNewConstMetric _ _ _); [exact Hk | exact I].
Qed.

Lemma sum_list_with_ext {A : Type} (f g : A -> nat) (l : list A) :
  (forall x, f x = g x) -> sum_list_with f l = sum_list_with g l.
Proof. intros H. induction l as [|x l IH]; cbn; [reflexivity | rewrite H, IH; reflexivity]. Qed.

Section Sizes.
Variable inv : inventory.
Variable fs : list (option Datacenter).

Lemma sized_and_then p q :
  plain p -> sized inv fs p -> sized inv fs q ->
  sized inv fs (and_then p q).
Proof.
  intros Hpl Hp Hq.
  induction p; cbn in *; try contradiction; try tauto; auto.
Qed.

Lemma sized_for_each {A : Type} (l : list A) body k :
  (forall x k', sized inv fs k' -> sized inv fs (body x k')) ->
  sized inv fs k -> sized inv fs (for_each l body k).
Proof. intros Hb Hk. induction l as [|x l IH]; cbn; auto. Qed.

Lemma sized_send_sample {S : Type} d g
    (getters : list (option (S -> string))) hierarchy (s : S) k :
  sized inv fs k -> sized inv fs (send_sample d g getters hierarchy s k).
Proof.
  intros Hk. unfold send_sample, send_const.
  destruct (label_values getters s); [| exact I].
  destruct g; [| exact I].
  destruct (MustNewConstMetric _ _ _); [exact Hk | exact I].
Qed.

(** The length of a goroutine does not depend on the WaitGroup it
    reports to. *)
Lemma size_defer_Done p w w' :
  size inv fs (defer_Done w p) = size inv fs (defer_Done w' p).
Proof.
  unfold defer_Done.
  induction p as [| |m k IH|k IH|k IH|v k IH|k IH|dc k IH|A c k IH|k IH
                 |w0 n k IH|w0 k IH|w0 k IH|child IHc k IH];
    cbn; auto.
  f_equal. apply sum_list_with_ext. intros f. apply IH.
Qed.
End Sizes.

(** ** The samples of the tables *)

(** The sample of [metric] for the host snapshot [h] under the hierarchy
    labels [hierarchy]. *)
Definition host_sample (names : list string) (hierarchy : list string)
    (h : HostSystem) (m : Metric) : Prop :=
  exists metric g,
    In metric (hostMetrics names) /\ hmetricGetter metric = Some g /\
    m = {| desc := hdesc metric; value := g h;
           labelValues := ConfigName (Config (HostSummary h)) :: hierarchy |}.

Definition datastore_sample (names : list string) (hierarchy : list string)
    (d : Datastore) (m : Metric) : Prop :=
  exists metric g,
    In metric (datastoreMetrics names) /\ dmetricGetter metric = Some g /\
    m = {| desc := ddesc metric; value := g d;
           labelValues := DsName (DatastoreSummary d) :: hierarchy |}.

Lemma send_host_sample names hierarchy metric (h : HostSystem) k :
  length names = S (length hierarchy) ->
  In metric (hostMetrics names) ->
  exists m, host_sample names hierarchy h m /\
    send_sample (hdesc metric) (hmetricGetter metric) (hlabelsGetter metric)
      hierarchy h k = Send m k.
Proof.
  intros Hn Hin. pose proof Hin as Hin'.
  unfold hostMetrics in Hin. cbn [In] in Hin.
  repeat (destruct Hin as [<- | Hin]); try contradiction;
    (eexists; split;
     [ eexists _, _; split; [exact Hin' |]; split; reflexivity
     | unfold send_sample, send_const, MustNewConstMetric; cbn;
       rewrite Hn, Nat.eqb_refl; reflexivity ]).
Qed.

Lemma send_datastore_sample names hierarchy metric (d : Datastore) k :
  length names = S (length hierarchy) ->
  In metric (datastoreMetrics names) ->
  exists m, datastore_sample names hierarchy d m /\
    send_sample (ddesc metric) (dmetricGetter metric) (dlabelsGetter metric)
      hierarchy d k = Send m k.
Proof.
  intros Hn Hin. pose proof Hin as Hin'.
  unfold datastoreMetrics in Hin. cbn [In] in Hin.
  repeat (destruct Hin as [<- | Hin]); try contradiction;
    (eexists; split;
     [ eexists _, _; split; [exact Hin' |]; split; reflexivity
     | unfold send_sample, send_const, MustNewConstMetric; cbn;
       rewrite Hn, Nat.eqb_refl; reflexivity ]).
Qed.




(** ** Where the samples of the by-cluster collectors come from *)

(** [m] is a sample of a host that the bulk retrieval of a cluster with at
    least one host returned, the cluster being listed under some
    datacenter; its labels are the configured name of the host, a
    datacenter name and the name of that cluster. *)
Definition from_cluster (inv : inventory) (m : Metric) : Prop :=
  exists f clusters cluster hosts hs h datacenterName,
    clustersOf inv f = Ok clusters /\ In cluster clusters /\
    hostsOf inv cluster = Ok hosts /\ hosts <> [] /\
    hostSystems inv (map Reference hosts) = Ok hs /\ In h hs /\
    host_sample ByCluster.hostLabelNames [datacenterName; Name cluster] h m.

(** [m] is a sample of a datastore that the bulk retrieval of a datacenter
    with at least one datastore returned. *)
Definition from_datacenter (inv : inventory) (m : Metric) : Prop :=
  exists f datastores ds d datacenterName,
    datastoresOf inv f = Ok datastores /\ datastores <> [] /\
    datastoreSummaries inv (map Reference datastores) = Ok ds /\ In d ds /\
    datastore_sample ByCluster.datastoreLabelNames [datacenterName] d m.

Definition justified (inv : inventory) (m : Metric) : Prop :=
  from_cluster inv m \/ from_datacenter inv m.


Section ByClusterCollectors.
Variable inv : inventory.

Lemma cluster_emits wg datacenterName f clusters cluster :
  clustersOf inv f = Ok clusters -> In cluster clusters ->
  emits inv (justified inv)
    (ByCluster.collectHostMetricFromCluster wg datacenterName cluster).
Proof.
  intros Hf Hin. unfold ByCluster.collectHostMetricFromCluster, defer_Done.
  cbn. intros _.
  destruct (hostsOf inv cluster) as [hosts|] eqn:Hh; cbn; [| tauto].
  destruct hosts as [|h0 hosts]; cbn; [tauto |].
  intros _.
  change (Reference h0 :: map Reference hosts)
    with (map Reference (h0 :: hosts)).
  destruct (hostSystems inv (map Reference (h0 :: hosts))) as [hs|] eqn:Hr;
    [| cbn; tauto].
  apply emits_and_then; [| cbn; tauto].
  apply emits_for_each_in; [| exact I]. intros h k Hh_in Hk.
  apply emits_for_each_in; [| exact Hk]. intros metric k' Hm Hk'.
  destruct (send_host_sample ByCluster.hostLabelNames
              [datacenterName; Name cluster] metric h k' eq_refl Hm)
    as (m & Hs & ->).
  cbn. split; [| exact Hk'].
  left. exists f, clusters, cluster, (h0 :: hosts), hs, h, datacenterName.
  repeat split; auto; discriminate.
Qed.

Lemma hosts_emits wg datacenterName :
  emits inv (justified inv) (ByCluster.collectHostMetrics wg datacenterName).
Proof.
  unfold ByCluster.collectHostMetrics, defer_Done. cbn. intros f.
  destruct (clustersOf inv f) as [clusters|] eqn:Hf; cbn; [| tauto].
  intros w.
  assert (H : forall l, (forall c, In c l -> In c clusters) ->
            emits inv (justified inv)
              (and_then
                 (for_each l (fun cluster =>
                    Go (ByCluster.collectHostMetricFromCluster w
                          datacenterName cluster))
                    (WgWait w Return))
                 (WgDone wg Return))).
  { induction l as [|c l IH]; intros Hl; cbn; [tauto |].
    split; [eapply cluster_emits; [exact Hf | apply Hl; left; reflexivity] |].
    apply IH. intros c' Hc'. apply Hl. right. exact Hc'. }
  apply H. auto.
Qed.

Lemma datastores_emits wg datacenterName :
  emits inv (justified inv)
    (ByCluster.collectDatastoreMetrics wg datacenterName).
Proof.
  unfold ByCluster.collectDatastoreMetrics, defer_Done. cbn. intros f.
  destruct (datastoresOf inv f) as [dss|] eqn:Hf; cbn; [| tauto].
  destruct dss as [|d0 dss]; cbn; [tauto |].
  intros _.
  change (Reference d0 :: map Reference dss)
    with (map Reference (d0 :: dss)).
  destruct (datastoreSummaries inv (map Reference (d0 :: dss)))
    as [ds|] eqn:Hr; cbn; [| tauto].
  apply emits_and_then; [| cbn; tauto].
  apply emits_for_each_in; [| exact I]. intros d k Hd Hk.
  apply emits_for_each_in; [| exact Hk]. intros metric k' Hm Hk'.
  destruct (send_datastore_sample ByCluster.datastoreLabelNames
              [datacenterName] metric d k' eq_refl Hm) as (m & Hs & ->).
  cbn. split; [| exact Hk'].
  right. exists f, (d0 :: dss), ds, d, datacenterName.
  repeat split; auto; discriminate.
Qed.
End ByClusterCollectors.

Lemma nopanic_for_each_in {A : Type} inv (l : list A) body k :
  (forall x k', In x l -> nopanic inv k' -> nopanic inv (body x k')) ->
  nopanic inv k -> nopanic inv (for_each l body k).
Proof.
  intros Hb Hk. induction l as [|x l IH]; cbn; [exact Hk |].
  apply Hb; [left; reflexivity |].
  apply IH. intros y k' Hy. apply Hb. right. exact Hy.
Qed.

Lemma and_then_for_each_go {A : Type} (l : list A) (child : A -> prog) k q :
  and_then (for_each l (fun x => Go (child x)) k) q
  = for_each l (fun x => Go (child x)) (and_then k q).
Proof.
  unfold for_each.
  induction l as [|x l IH]; cbn; [reflexivity | rewrite IH; reflexivity].
Qed.

Section ByClusterDiscipline.
Variable inv : inventory.
Variable fs : list (option Datacenter).

(** The body of the cluster goroutine after the host listing. *)
Lemma host_loop_wf datacenterName cluster (hs : list HostSystem) i o ph k :
  wf k i o ph ->
  wf (for_each hs (fun h =>
        for_each ByCluster.hostMetrics (fun metric =>
          send_sample (hdesc metric) (hmetricGetter metric)
            (hlabelsGetter metric) [datacenterName; Name cluster] h)) k)
     i o ph.
Proof.
  intros Hk. apply wf_for_each; [| exact Hk]. intros h k' Hk'.
  apply wf_for_each; [| exact Hk']. intros metric k'' Hk''.
  apply wf_send_sample, Hk''.
Qed.

Lemma cluster_wf wg datacenterName cluster j :
  wf (ByCluster.collectHostMetricFromCluster wg datacenterName cluster)
     j (Some wg) Pre.
Proof.
  apply wf_defer_Done. cbn. intros [hosts|]; [| cbn; auto].
  destruct hosts as [|h0 hosts]; cbn; [auto |].
  intros r'. apply host_loop_wf. cbn. auto.
Qed.

Lemma hosts_wf wg datacenterName j :
  wf (ByCluster.collectHostMetrics wg datacenterName) j (Some wg) Pre.
Proof.
  apply wf_defer_Done. cbn. intros [clusters|]; [| cbn; auto].
  cbn. repeat split. exists (length clusters). split; [reflexivity |].
  induction clusters as [|c clusters IH]; cbn; [repeat split |].
  exists (length clusters). split; [reflexivity |].
  split; [intros j'; apply cluster_wf | exact IH].
Qed.

Lemma datastores_wf wg datacenterName j :
  wf (ByCluster.collectDatastoreMetrics wg datacenterName) j (Some wg) Pre.
Proof.
  apply wf_defer_Done. cbn. intros [dss|]; [| cbn; auto].
  destruct dss as [|d0 dss]; cbn; [auto |].
  intros [ds|]; [| cbn; auto].
  apply wf_for_each; [| cbn; auto]. intros d k' Hk'.
  apply wf_for_each; [| exact Hk']. intros metric k'' Hk''.
  apply wf_send_sample, Hk''.
Qed.

(** The collectors never panic: the tables supply a getter for every
    metric and as many label values as the descriptors have names. *)
Lemma cluster_nopanic wg datacenterName cluster :
  nopanic inv
    (ByCluster.collectHostMetricFromCluster wg datacenterName cluster).
Proof.
  unfold ByCluster.collectHostMetricFromCluster.
  apply nopanic_and_then; [| exact I]. cbn. intros _.
  destruct (hostsOf inv cluster) as [hosts|]; [| exact I].
  destruct hosts as [|h0 hosts]; cbn; [exact I |].
  intros _.
  apply nopanic_for_each_in; [| exact I]. intros h k _ Hk.
  apply nopanic_for_each_in; [| exact Hk]. intros metric k' Hm Hk'.
  destruct (send_host_sample ByCluster.hostLabelNames
              [datacenterName; Name cluster] metric h k' eq_refl Hm)
    as (m & _ & ->).
  exact Hk'.
Qed.

Lemma hosts_nopanic wg datacenterName :
  nopanic inv (ByCluster.collectHostMetrics wg datacenterName).
Proof.
  unfold ByCluster.collectHostMetrics.
  apply nopanic_and_then; [| exact I]. cbn. intros f.
  destruct (clustersOf inv f) as [clusters|]; [| exact I].
  cbn. intros w.
  induction clusters as [|c clusters IH]; cbn; [exact I |].
  split; [apply cluster_nopanic | exact IH].
Qed.

Lemma datastores_nopanic wg datacenterName :
  nopanic inv (ByCluster.collectDatastoreMetrics wg datacenterName).
Proof.
  unfold ByCluster.collectDatastoreMetrics.
  apply nopanic_and_then; [| exact I]. cbn. intros f.
  destruct (datastoresOf inv f) as [dss|]; [| exact I].
  destruct dss as [|d0 dss]; cbn; [exact I |].
  intros _.
  destruct (datastoreSummaries inv _) as [ds|]; [| exact I].
  apply nopanic_for_each_in; [| exact I]. intros d k _ Hk.
  apply nopanic_for_each_in; [| exact Hk]. intros metric k' Hm Hk'.
  destruct (send_datastore_sample ByCluster.datastoreLabelNames
              [datacenterName] metric d k' eq_refl Hm) as (m & _ & ->).
  exact Hk'.
Qed.

(** The collectors are bounded. *)
Lemma cluster_sized wg datacenterName cluster :
  sized inv fs
    (ByCluster.collectHostMetricFromCluster wg datacenterName cluster).
Proof.
  unfold ByCluster.collectHostMetricFromCluster, defer_Done.
  apply sized_and_then; [| | exact I].
  - cbn. intros [hosts|]; [| exact I].
    destruct hosts as [|h0 hosts]; cbn; [exact I |].
    intros r'. apply plain_for_each; [| exact I]. intros h k Hk.
    apply plain_for_each; [| exact Hk]. intros metric k' Hk'.
    apply plain_send_sample, Hk'.
  - cbn. intros f _.
    destruct (hostsOf inv cluster) as [hosts|]; [| exact I].
    destruct hosts as [|h0 hosts]; cbn; [exact I |].
    intros f' _. apply sized_for_each; [| exact I]. intros h k Hk.
    apply sized_for_each; [| exact Hk]. intros metric k' Hk'.
    apply sized_send_sample, Hk'.
Qed.

Lemma spawn_loop_size {A : Type} (l : list A) (child : nat -> A -> prog)
    w q :
  (forall x, size inv fs (child w x) = size inv fs (child 0%nat x)) ->
  size inv fs (for_each l (fun x => Go (child w x)) (WgWait w q))
  = size inv fs (for_each l (fun x => Go (child 0%nat x)) (WgWait 0%nat q)).
Proof.
  intros Hc. unfold for_each.
  induction l as [|x l IH]; cbn [foldr fold_right size];
    [reflexivity | rewrite IH, Hc; reflexivity].
Qed.

Lemma spawn_loop_sized {A : Type} (l : list A) (child : A -> prog) k :
  (forall x, sized inv fs (child x)) -> sized inv fs k ->
  sized inv fs (for_each l (fun x => Go (child x)) k).
Proof.
  intros Hc Hk. unfold for_each.
  induction l as [|x l IH]; cbn [foldr fold_right sized]; auto.
Qed.

Lemma hosts_sized wg datacenterName :
  sized inv fs (ByCluster.collectHostMetrics wg datacenterName).
Proof.
  unfold ByCluster.collectHostMetrics, defer_Done.
  cbn [and_then sized answer]. intros f _.
  destruct (clustersOf inv f) as [clusters|]; cbn [and_then sized];
    [| exact I].
  intros w. rewrite !and_then_for_each_go. cbn [and_then size].
  split.
  - apply le_n_S. apply Nat.eq_le_incl.
    apply (spawn_loop_size clusters
             (fun w c => ByCluster.collectHostMetricFromCluster w
                           datacenterName c)).
    intros c. apply size_defer_Done.
  - apply spawn_loop_sized; [intros c; apply cluster_sized | exact I].
Qed.

Lemma datastores_sized wg datacenterName :
  sized inv fs (ByCluster.collectDatastoreMetrics wg datacenterName).
Proof.
  unfold ByCluster.collectDatastoreMetrics, defer_Done.
  apply sized_and_then; [| | exact I].
  - cbn. intros [dss|]; [| exact I].
    destruct dss as [|d0 dss]; cbn; [exact I |].
    intros [ds|]; [| exact I].
    apply plain_for_each; [| exact I]. intros d k Hk.
    apply plain_for_each; [| exact Hk]. intros metric k' Hk'.
    apply plain_send_sample, Hk'.
  - cbn. intros f _.
    destruct (datastoresOf inv f) as [dss|]; [| exact I].
    destruct dss as [|d0 dss]; cbn; [exact I |].
    intros f' _.
    destruct (datastoreSummaries inv _) as [ds|]; [| exact I].
    apply sized_for_each; [| exact I]. intros d k Hk.
    apply sized_for_each; [| exact Hk]. intros metric k' Hk'.
    apply sized_send_sample, Hk'.
Qed.
End ByClusterDiscipline.

(** ** A poll runs to completion *)

(** The datacenters the finder of a poll may hold: none, or one of the
    listing. *)
Definition finders (inv : inventory) : list (option Datacenter) :=
  None :: match datacenters inv with
          | Ok dcs => map Some dcs
          | Failed => []
          end.

Section CollectDiscipline.
Variable inv : inventory.
Variables collectHostMetrics collectDatastoreMetrics : nat -> string -> prog.
Hypothesis hosts_nopanic :
  forall wg name, nopanic inv (collectHostMetrics wg name).
Hypothesis datastores_nopanic :
  forall wg name, nopanic inv (collectDatastoreMetrics wg name).
Hypothesis hosts_sized :
  forall wg name, sized inv (finders inv) (collectHostMetrics wg name).
Hypothesis datastores_sized :
  forall wg name, sized inv (finders inv) (collectDatastoreMetrics wg name).
Hypothesis hosts_size :
  forall wg name, size inv (finders inv) (collectHostMetrics wg name)
                  = size inv (finders inv) (collectHostMetrics 0%nat name).
Hypothesis datastores_size :
  forall wg name, size inv (finders inv) (collectDatastoreMetrics wg name)
                  = size inv (finders inv) (collectDatastoreMetrics 0%nat name).

Let main := Collect collectHostMetrics collectDatastoreMetrics.
Let loop := fan_out collectHostMetrics collectDatastoreMetrics.

Lemma fan_out_nopanic wg dcs : nopanic inv (loop wg dcs).
Proof.
  unfold loop, fan_out, for_each.
  induction dcs as [|dc dcs IH]; cbn [foldr fold_right nopanic].
  - intros v. exact I.
  - auto.
Qed.

Lemma Collect_nopanic : nopanic inv main.
Proof.
  cbn. intros f. destruct (datacenters inv) as [dcs|]; cbn; [| exact I].
  intros w. apply fan_out_nopanic.
Qed.

Lemma fan_out_size wg dcs :
  size inv (finders inv) (loop wg dcs)
  = size inv (finders inv) (loop 0%nat dcs).
Proof.
  unfold loop, fan_out, for_each.
  induction dcs as [|dc dcs IH]; cbn [foldr fold_right size];
    [reflexivity |].
  rewrite IH, (hosts_size wg), (datastores_size wg). reflexivity.
Qed.

Lemma fan_out_sized wg dcs :
  (forall dc, In dc dcs -> In (Some dc) (finders inv)) ->
  sized inv (finders inv) (loop wg dcs).
Proof.
  unfold loop, fan_out, for_each.
  induction dcs as [|dc dcs IH]; intros Hin; cbn [foldr fold_right sized].
  - intros v. split; [reflexivity | exact I].
  - split; [apply Hin; left; reflexivity |].
    split; [apply hosts_sized |]. split; [apply datastores_sized |].
    apply IH. intros dc' Hdc'. apply Hin. right. exact Hdc'.
Qed.

Lemma Collect_sized : sized inv (finders inv) main.
Proof.
  cbn [main Collect sized answer].
  split; [left; reflexivity |]. intros f _.
  destruct (datacenters inv) as [dcs|] eqn:Hd; cbn [sized]; [| exact I].
  intros w. cbn [size]. split.
  - apply le_n_S. apply Nat.eq_le_incl. apply fan_out_size.
  - apply fan_out_sized. intros dc Hdc. unfold finders. rewrite Hd.
    right. apply in_map, Hdc.
Qed.
End CollectDiscipline.

Lemma run_app inv s1 s2 st :
  run inv (s1 ++ s2) st = run inv s2 (run inv s1 st).
Proof.
  revert st. induction s1 as [|i s1 IH]; intros st; cbn; [reflexivity |].
  destruct (step_goroutine inv i st); apply IH.
Qed.

Lemma run_steps inv schedule st : steps inv st (run inv schedule st).
Proof.
  revert st. induction schedule as [|i rest IH]; intros st; cbn;
    [apply rtc_refl |].
  destruct (step_goroutine inv i st) as [st'|] eqn:Hs; [| apply IH].
  eapply rtc_l; [exists i; exact Hs | apply IH].
Qed.

(** The pool is accounted for, nothing can panic, everything is bounded. *)
Definition healthy (inv : inventory) (st : state) : Prop :=
  (exists G, accounted (goroutines st) G) /\
  safe inv st /\
  bounded inv (finders inv) st.

Lemma healthy_step inv i st st' :
  healthy inv st -> step_goroutine inv i st = Some st' -> healthy inv st'.
Proof.
  intros ([G HG] & Hs & Hb) Hstep. split; [| split].
  - eapply accounted_step; eassumption.
  - eapply safe_step; eassumption.
  - eapply measure_step; eassumption.
Qed.

Lemma healthy_run inv schedule st :
  healthy inv st -> healthy inv (run inv schedule st).
Proof.
  revert st. induction schedule as [|i rest IH]; intros st H; cbn;
    [exact H |].
  destruct (step_goroutine inv i st) as [st'|] eqn:Hs;
    [apply IH; eapply healthy_step; eassumption | apply IH; exact H].
Qed.

(** From a healthy state some schedule finishes the poll, and no schedule
    runs forever. *)
Lemma healthy_completes inv st :
  healthy inv st -> exists more, finished (run inv more st) = true.
Proof.
  remember (measure inv (finders inv) st) as n eqn:Hn. revert st Hn.
  induction n as [n IH] using lt_wf_ind. intros st -> H.
  destruct (finished st) eqn:Hf; [exists []; exact Hf |].
  destruct H as ([G HG] & [Hp Hs] & Hb).
  destruct (progress inv st G HG Hp Hf) as (i & st' & Hstep).
  assert (H' : healthy inv st').
  { eapply healthy_step; [| exact Hstep]. split; [eauto | split; [split |]]; assumption. }
  destruct (measure_step _ _ _ _ _ Hb Hstep) as [_ Hlt].
  destruct (IH _ Hlt st' eq_refl H') as [more Hmore].
  exists (i :: more). cbn. rewrite Hstep. exact Hmore.
Qed.

Lemma healthy_sn inv st : healthy inv st -> sn (step inv) st.
Proof. intros (_ & _ & Hb). eapply bounded_sn, Hb. Qed.

Lemma healthy_start inv e main :
  wf main 0 None Pre -> nopanic inv main -> sized inv (finders inv) main ->
  healthy inv (start e main).
Proof.
  intros Hwf Hnp Hsz. split; [| split].
  - exists [(None, Pre)]. split; [reflexivity |].
    intros [|i] g Hg; [| discriminate]. injection Hg as <-.
    exists None, Pre. split; [reflexivity |].
    unfold thread_ok; cbn [code counter].
    split; [exact Hwf |]. cbn. repeat split; try discriminate; try lia.
  - split; [reflexivity |].
    intros [|j] c Hc; [| discriminate]. injection Hc as <-. exact Hnp.
  - split; [left; reflexivity |].
    intros [|j] c Hc; [| discriminate]. injection Hc as <-. exact Hsz.
Qed.

(** ** The by-cluster exporter *)

Lemma ByCluster_healthy inv e : healthy inv (start e ByCluster.Collect).
Proof.
  apply healthy_start.
  - apply Collect_wf; [apply hosts_wf | apply datastores_wf].
  - apply Collect_nopanic; [apply hosts_nopanic | apply datastores_nopanic].
  - apply Collect_sized;
      first [ apply hosts_sized | apply datastores_sized
            | intros wg name; apply size_defer_Done ].
Qed.

Lemma ByCluster_poll_inv inv e schedule :
  poll_inv inv (justified inv) ByCluster.collectHostMetrics
    ByCluster.collectDatastoreMetrics e
    (run inv schedule (start e ByCluster.Collect)).
Proof.
  apply poll_inv_run;
    first [ apply hosts_emits | apply datastores_emits
          | apply hosts_wf | apply datastores_wf | idtac ].
  apply poll_inv_start; [apply hosts_wf | apply datastores_wf].
Qed.





Lemma finished_main st :
  finished st = true -> goroutines st <> [] ->
  code <$> (goroutines st !! 0%nat) = Some Return.
Proof.
  intros Hf Hne. apply finished_spec in Hf. destruct Hf as [_ Hall].
  destruct (goroutines st) as [|g gs] eqn:Hg; [contradiction |].
  cbn. rewrite (Hall 0%nat g); reflexivity.
Qed.

Lemma poll_inv_main inv P cH cD e st :
  poll_inv inv P cH cD e st -> goroutines st <> [].
Proof.
  intros (_ & _ & (p & Hp & _) & _) Hnil. rewrite Hnil in Hp. discriminate.
Qed.

(** * The polls of the by-cluster exporter *)

Section ByClusterPoll.
Variable inv : inventory.
Variable e : Exporter.
Variable schedule : list nat.

Let st := run inv schedule (start e ByCluster.Collect).

(** The poll can always be run to its end, it never runs forever and
    never dies. *)
Lemma poll_completes :
  (exists more,
     finished (run inv (schedule ++ more) (start e ByCluster.Collect))
     = true) /\
  sn (step inv) (start e ByCluster.Collect) /\
  panicked st = false.
Proof.
  pose proof (healthy_run inv schedule _ (ByCluster_healthy inv e)) as H.
  split; [| split].
  - destruct (healthy_completes inv _ H) as [more Hmore].
    exists more. rewrite run_app. exact Hmore.
  - apply healthy_sn, ByCluster_healthy.
  - destruct H as (_ & [Hp _] & _). exact Hp.
Qed.

(** The gauge [e.up] is never set, and it is the first sample. *)
Lemma poll_up :
  up st = e_up e /\
  (chan st = [] \/ exists rest, chan st = up_metric e :: rest) /\
  (finished st = true -> exists rest, chan st = up_metric e :: rest).
Proof.
  pose proof (ByCluster_poll_inv inv e schedule) as Hinv. fold st in Hinv.
  split; [apply Hinv |].
  split; [apply (poll_inv_chan _ _ _ _ _ _ Hinv) |].
  intros Hf.
  pose proof (finished_main _ Hf (poll_inv_main _ _ _ _ _ _ Hinv)) as Hmain.
  destruct (poll_inv_returned _ _ _ _ _ _ Hinv Hmain)
    as [(_ & -> & _) | (dcs & objs & _ & -> & _)]; eauto.
Qed.

(** After a failed listing only the up gauge is sent. *)
Lemma poll_listing_failed :
  datacenters inv = Failed ->
  (chan st = [] \/ chan st = [up_metric e]) /\
  (finished st = true ->
   chan st = [up_metric e] /\ vcenterAvailable st = 0).
Proof.
  intros Hd.
  pose proof (ByCluster_poll_inv inv e schedule) as Hinv. fold st in Hinv.
  split; [apply (poll_inv_chan _ _ _ _ _ _ Hinv), Hd |].
  intros Hf.
  pose proof (finished_main _ Hf (poll_inv_main _ _ _ _ _ _ Hinv)) as Hmain.
  destruct (poll_inv_returned _ _ _ _ _ _ Hinv Hmain)
    as [(_ & Hch & Hv) | (dcs & objs & Hd' & _)]; [auto | congruence].
Qed.


End ByClusterPoll.

(** * A goroutine on its own

    What the code of one goroutine does when it is run to its end: the
    metrics it sends, the values it writes to the flag, the requests it
    sends, the goroutines it starts.  [f] is the datacenter the finder
    holds, [v] the flag and [u] the gauge when it starts; a collector sends
    one listing and reads neither the flag nor the gauge. *)

Inductive event : Type :=
| Sends (m : Metric)
| Writes (v : float64)
| Asks (c : sigT request)
| Starts (child : prog)
| Panics.

Fixpoint solo (inv : inventory) (i : nat) (p : prog)
    (f : option Datacenter) (v u : float64) : list event :=
  match p with
  | Return => []
  | Panic => [Panics]
  | Send m k => Sends m :: solo inv i k f v u
  | SendUp k =>
      Sends {| desc := upDesc; value := u; labelValues := [] |}
      :: solo inv i k f v u
  | GetAvailable k => solo inv i (k v) f v u
  | SetAvailable v' k => Writes v' :: solo inv i k f v' u
  | NewFinder k => solo inv i k None v u
  | SetDatacenter dc k => solo inv i k (Some dc) v u
  | Call c k => Asks (existT _ c) :: solo inv i (k (answer inv f c)) f v u
  | VarWaitGroup k => solo inv i (k i) f v u
  | WgAdd _ _ k | WgDone _ k | WgWait _ k => solo inv i k f v u
  | Go child k => Starts child :: solo inv i k f v u
  end.

Definition sends (evs : list event) : list Metric :=
  flat_map (fun ev => match ev with Sends m => [m] | _ => [] end) evs.

Definition writes (evs : list event) : list float64 :=
  flat_map (fun ev => match ev with Writes v => [v] | _ => [] end) evs.

Definition asks (evs : list event) : list (sigT request) :=
  flat_map (fun ev => match ev with Asks c => [c] | _ => [] end) evs.

Definition starts (evs : list event) : list prog :=
  flat_map (fun ev => match ev with Starts c => [c] | _ => [] end) evs.

(** The requests that fetch property snapshots. *)
Definition is_retrieval (c : sigT request) : bool :=
  match projT2 c with
  | RetrieveHostSystems _ | RetrieveDatastores _ | Properties _
  | HostViewRetrieve | DatastoreViewRetrieve => true
  | _ => false
  end.

Definition retrievals (evs : list event) : list (sigT request) :=
  filter (fun c => is_retrieval c = true) (asks evs).

(** The samples of a snapshot, in the order of the table. *)
Definition host_samples (names hierarchy : list string) (h : HostSystem)
  : list Metric :=
  flat_map (fun metric =>
    match hmetricGetter metric with
    | Some g => [ {| desc := hdesc metric; value := g h;
                     labelValues :=
                       ConfigName (Config (HostSummary h)) :: hierarchy |} ]
    | None => []
    end) (hostMetrics names).

Definition datastore_samples (names hierarchy : list string) (d : Datastore)
  : list Metric :=
  flat_map (fun metric =>
    match dmetricGetter metric with
    | Some g => [ {| desc := ddesc metric; value := g d;
                     labelValues := DsName (DatastoreSummary d) :: hierarchy |} ]
    | None => []
    end) (datastoreMetrics names).

(** The deferred [Done] is no event. *)
Lemma solo_defer_Done inv i w p u :
  forall f v, solo inv i (defer_Done w p) f v u = solo inv i p f v u.
Proof.
  unfold defer_Done.
  induction p as [| |m k IH|k IH|k IH|v0 k IH|k IH|dc k IH|A c k IH|k IH
                 |w0 n k IH|w0 k IH|w0 k IH|child IHc k IH];
    intros f v; cbn; try reflexivity; try (rewrite IH; reflexivity);
    apply IH.
Qed.

Section SoloLoops.
Variable inv : inventory.
Variable i : nat.

Lemma solo_host_metrics names hierarchy (h : HostSystem) k f v u :
  length names = S (length hierarchy) ->
  solo inv i
    (for_each (hostMetrics names) (fun metric =>
       send_sample (hdesc metric) (hmetricGetter metric)
         (hlabelsGetter metric) hierarchy h) k) f v u
  = map Sends (host_samples names hierarchy h) ++ solo inv i k f v u.
Proof.
  intros Hn.
  unfold hostMetrics, host_samples, for_each, send_sample, send_const,
    MustNewConstMetric.
  cbn. rewrite Hn, Nat.eqb_refl. reflexivity.
Qed.

Lemma solo_datastore_metrics names hierarchy (d : Datastore) k f v u :
  length names = S (length hierarchy) ->
  solo inv i
    (for_each (datastoreMetrics names) (fun metric =>
       send_sample (ddesc metric) (dmetricGetter metric)
         (dlabelsGetter metric) hierarchy d) k) f v u
  = map Sends (datastore_samples names hierarchy d) ++ solo inv i k f v u.
Proof.
  intros Hn.
  unfold datastoreMetrics, datastore_samples, for_each, send_sample,
    send_const, MustNewConstMetric.
  cbn. rewrite Hn, Nat.eqb_refl. reflexivity.
Qed.

Lemma solo_hosts names hierarchy (hs : list HostSystem) k f v u :
  length names = S (length hierarchy) ->
  solo inv i
    (for_each hs (fun h =>
       for_each (hostMetrics names) (fun metric =>
         send_sample (hdesc metric) (hmetricGetter metric)
           (hlabelsGetter metric) hierarchy h)) k) f v u
  = map Sends (flat_map (host_samples names hierarchy) hs)
    ++ solo inv i k f v u.
Proof.
  intros Hn. induction hs as [|h hs IH]; [reflexivity |].
  change (for_each (h :: hs) ?b k) with (b h (for_each hs b k)).
  cbv beta. rewrite (solo_host_metrics _ _ _ _ _ _ _ Hn), IH.
  cbn [flat_map]. rewrite map_app, <- app_assoc. reflexivity.
Qed.

Lemma solo_datastores names hierarchy (ds : list Datastore) k f v u :
  length names = S (length hierarchy) ->
  solo inv i
    (for_each ds (fun d =>
       for_each (datastoreMetrics names) (fun metric =>
         send_sample (ddesc metric) (dmetricGetter metric)
           (dlabelsGetter metric) hierarchy d)) k) f v u
  = map Sends (flat_map (datastore_samples names hierarchy) ds)
    ++ solo inv i k f v u.
Proof.
  intros Hn. induction ds as [|d ds IH]; [reflexivity |].
  change (for_each (d :: ds) ?b k) with (b d (for_each ds b k)).
  cbv beta. rewrite (solo_datastore_metrics _ _ _ _ _ _ _ Hn), IH.
  cbn [flat_map]. rewrite map_app, <- app_assoc. reflexivity.
Qed.
End SoloLoops.

(** ** The collectors on their own *)

Section SoloCollectors.
Variable inv : inventory.
Variable i : nat.

(** The cluster goroutine: the host listing, then, unless the cluster
    is empty, one retrieval for all its hosts and the samples of what
    came back. *)
Definition cluster_events (datacenterName : string)
    (cluster : ClusterComputeResource) : list event :=
  Asks (existT _ (Hosts cluster))
  :: match hostsOf inv cluster with
     | Failed => []
     | Ok [] => []
     | Ok hosts =>
         Asks (existT _ (RetrieveHostSystems (map Reference hosts)))
         :: map Sends
              (flat_map
                 (host_samples ByCluster.hostLabelNames
                    [datacenterName; Name cluster])
                 match hostSystems inv (map Reference hosts) with
                 | Ok hs => hs
                 | Failed => []
                 end)
     end.

Lemma solo_cluster wg datacenterName cluster f v u :
  solo inv i
    (ByCluster.collectHostMetricFromCluster wg datacenterName cluster) f v u
  = cluster_events datacenterName cluster.
Proof.
  unfold ByCluster.collectHostMetricFromCluster, cluster_events.
  rewrite solo_defer_Done. cbn [solo answer]. f_equal.
  destruct (hostsOf inv cluster) as [[|h0 hosts]|]; try reflexivity.
  cbn [length Nat.ltb Nat.leb solo answer]. f_equal.
  unfold ByCluster.hostMetrics.
  rewrite (solo_hosts inv i ByCluster.hostLabelNames
             [datacenterName; Name cluster] _ Return f v u eq_refl).
  cbn [solo]. apply app_nil_r.
Qed.

(** The host collector of a datacenter: the cluster listing, then one
    goroutine per cluster. *)
Definition hosts_events (datacenterName : string) (f : option Datacenter)
  : list event :=
  Asks (existT _ ClusterComputeResourceList)
  :: match clustersOf inv f with
     | Failed => []
     | Ok clusters =>
         map (fun cluster =>
                Starts (ByCluster.collectHostMetricFromCluster i
                          datacenterName cluster)) clusters
     end.

Lemma solo_hosts_collector wg datacenterName f v u :
  solo inv i (ByCluster.collectHostMetrics wg datacenterName) f v u
  = hosts_events datacenterName f.
Proof.
  unfold ByCluster.collectHostMetrics, hosts_events.
  rewrite solo_defer_Done. cbn [solo answer]. f_equal.
  destruct (clustersOf inv f) as [clusters|]; [| reflexivity].
  cbn [solo]. unfold for_each.
  induction clusters as [|c clusters IH]; cbn [foldr fold_right solo map];
    [reflexivity | rewrite IH; reflexivity].
Qed.

(** The datastore collector of a datacenter. *)
Definition datastores_events (datacenterName : string)
    (f : option Datacenter) : list event :=
  Asks (existT _ DatastoreList)
  :: match datastoresOf inv f with
     | Failed => []
     | Ok [] => []
     | Ok datastores =>
         Asks (existT _ (RetrieveDatastores (map Reference datastores)))
         :: match datastoreSummaries inv (map Reference datastores) with
            | Failed => []
            | Ok ds =>
                map Sends
                  (flat_map
                     (datastore_samples ByCluster.datastoreLabelNames
                        [datacenterName]) ds)
            end
     end.

Lemma solo_datastores_collector wg datacenterName f v u :
  solo inv i (ByCluster.collectDatastoreMetrics wg datacenterName) f v u
  = datastores_events datacenterName f.
Proof.
  unfold ByCluster.collectDatastoreMetrics, datastores_events.
  rewrite solo_defer_Done. cbn [solo answer]. f_equal.
  destruct (datastoresOf inv f) as [[|d0 dss]|]; try reflexivity.
  cbn [length Nat.ltb Nat.leb solo answer]. f_equal.
  destruct (datastoreSummaries inv (map Reference (d0 :: dss))) as [ds|];
    [| reflexivity].
  unfold ByCluster.datastoreMetrics.
  rewrite (solo_datastores inv i ByCluster.datastoreLabelNames
             [datacenterName] _ Return f v u eq_refl).
  cbn [solo]. apply app_nil_r.
Qed.

(** The whole-inventory collectors: one retrieval, the flag written 0
    on an error and 1 otherwise, then the samples. *)
Definition flat_hosts_events : list event :=
  Asks (existT _ HostViewRetrieve)
  :: match hostView inv with
     | Failed => [Writes 0]
     | Ok hs =>
         Writes 1
         :: map Sends (flat_map (host_samples Flat.hostLabelNames []) hs)
     end.

Lemma solo_flat_hosts wg f v u :
  solo inv i (Flat.collectHostMetrics wg) f v u = flat_hosts_events.
Proof.
  unfold Flat.collectHostMetrics, flat_hosts_events.
  rewrite solo_defer_Done. cbn [solo answer]. f_equal.
  destruct (hostView inv) as [hs|]; [| reflexivity].
  cbn [solo]. f_equal. unfold Flat.hostMetrics.
  rewrite (solo_hosts inv i Flat.hostLabelNames [] _ Return f 1 u eq_refl).
  cbn [solo]. apply app_nil_r.
Qed.

Definition flat_datastores_events : list event :=
  Asks (existT _ DatastoreViewRetrieve)
  :: match datastoreView inv with
     | Failed => [Writes 0]
     | Ok ds =>
         Writes 1
         :: map Sends
              (flat_map (datastore_samples Flat.datastoreLabelNames []) ds)
     end.

Lemma solo_flat_datastores wg f v u :
  solo inv i (Flat.collectDatastoreMetrics wg) f v u
  = flat_datastores_events.
Proof.
  unfold Flat.collectDatastoreMetrics, flat_datastores_events.
  rewrite solo_defer_Done. cbn [solo answer]. f_equal.
  destruct (datastoreView inv) as [ds|]; [| reflexivity].
  cbn [solo]. f_equal. unfold Flat.datastoreMetrics.
  rewrite (solo_datastores inv i Flat.datastoreLabelNames [] _ Return f 1 u
             eq_refl).
  cbn [solo]. apply app_nil_r.
Qed.

(** The per-host collector: for each cluster the host listing, then one
    request per host. *)
Fixpoint perhost_hosts (datacenterName : string)
    (c : ClusterComputeResource) (hosts : list HostObject)
    (rest : list event) : list event :=
  match hosts with
  | [] => rest
  | host :: hosts' =>
      Asks (existT _ (Properties host))
      :: match hostProperties inv host with
         | Failed => [Panics]
         | Ok h =>
             map Sends (host_samples PerHost.hostLabelNames
                          [datacenterName; Name c] h)
             ++ perhost_hosts datacenterName c hosts' rest
         end
  end.

Fixpoint perhost_clusters (datacenterName : string)
    (clusters : list ClusterComputeResource) : list event :=
  match clusters with
  | [] => []
  | c :: clusters' =>
      Asks (existT _ (Hosts c))
      :: match hostsOf inv c with
         | Failed => []
         | Ok hosts =>
             perhost_hosts datacenterName c hosts
               (perhost_clusters datacenterName clusters')
         end
  end.

Lemma solo_perhost_hosts datacenterName c (hosts : list HostObject)
    k f v u :
  solo inv i
    (for_each hosts (fun host k' =>
       Call (Properties host) (fun r'' =>
         match r'' with
         | Failed => Panic
         | Ok h =>
             for_each PerHost.hostMetrics (fun metric =>
               send_sample (hdesc metric) (hmetricGetter metric)
                 (hlabelsGetter metric) [datacenterName; Name c] h) k'
         end)) k) f v u
  = perhost_hosts datacenterName c hosts (solo inv i k f v u).
Proof.
  induction hosts as [|host hosts IH]; [reflexivity |].
  change (for_each (host :: hosts) ?b k) with (b host (for_each hosts b k)).
  cbv beta. cbn [solo answer perhost_hosts]. f_equal.
  destruct (hostProperties inv host) as [h|]; [| reflexivity].
  unfold PerHost.hostMetrics.
  rewrite (solo_host_metrics inv i PerHost.hostLabelNames
             [datacenterName; Name c] h _ f v u eq_refl).
  f_equal. exact IH.
Qed.

Lemma solo_perhost wg datacenterName f v u :
  solo inv i (PerHost.collectHostMetrics wg datacenterName) f v u
  = Asks (existT _ ClusterComputeResourceList)
    :: match clustersOf inv f with
       | Failed => []
       | Ok clusters => perhost_clusters datacenterName clusters
       end.
Proof.
  unfold PerHost.collectHostMetrics.
  rewrite solo_defer_Done. cbn [solo answer]. f_equal.
  destruct (clustersOf inv f) as [clusters|]; [| reflexivity].
  induction clusters as [|c clusters IHc]; [reflexivity |].
  change (for_each (c :: clusters) ?b Return)
    with (b c (for_each clusters b Return)).
  cbv beta. cbn [solo answer perhost_clusters]. f_equal.
  destruct (hostsOf inv c) as [hosts|]; [| reflexivity].
  rewrite solo_perhost_hosts, IHc. reflexivity.
Qed.
End SoloCollectors.

(** * The trace of a poll

    What each goroutine does in an interleaved run is what its code does
    on its own. *)

(** The event of the first statement of [p]. *)
Definition head_events (st : state) (p : prog) : list event :=
  match p with
  | Send m _ => [Sends m]
  | SendUp _ => [Sends {| desc := upDesc; value := up st; labelValues := [] |}]
  | SetAvailable v _ => [Writes v]
  | Call c _ => [Asks (existT _ c)]
  | Go child _ => [Starts child]
  | _ => []
  end.

Definition step_events (i : nat) (st : state) : list (nat * event) :=
  match goroutines st !! i with
  | Some g => map (pair i) (head_events st (code g))
  | None => []
  end.

(** The events of a run, each with the goroutine it belongs to. *)
Fixpoint trace (inv : inventory) (schedule : list nat) (st : state)
  : list (nat * event) :=
  match schedule with
  | [] => []
  | i :: rest =>
      match step_goroutine inv i st with
      | Some st' => step_events i st ++ trace inv rest st'
      | None => trace inv rest st
      end
  end.

(** The events of goroutine [j]. *)
Definition events_of (j : nat) (tr : list (nat * event)) : list event :=
  flat_map (fun x => if Nat.eqb (fst x) j then [snd x] else []) tr.

(** The code of the goroutines started, in the order of their start: the
    goroutine started [j]-th is goroutine [j + 1] of the pool. *)
Definition started (tr : list (nat * event)) : list prog :=
  starts (map snd tr).

Lemma events_of_app j tr tr' :
  events_of j (tr ++ tr') = events_of j tr ++ events_of j tr'.
Proof. apply flat_map_app. Qed.

Lemma events_of_tagged j i evs :
  events_of j (map (pair i) evs) = if Nat.eqb i j then evs else [].
Proof.
  unfold events_of. induction evs as [|ev evs IH]; cbn [map flat_map fst snd].
  - destruct (Nat.eqb i j); reflexivity.
  - rewrite IH. destruct (Nat.eqb i j); reflexivity.
Qed.

Lemma events_of_none j tr :
  (forall i ev, In (i, ev) tr -> i <> j) -> events_of j tr = [].
Proof.
  unfold events_of. induction tr as [|[i ev] tr IH]; intros H;
    [reflexivity |].
  cbn [flat_map fst snd].
  destruct (Nat.eqb_spec i j) as [-> | _].
  - exfalso. exact (H j ev (or_introl eq_refl) eq_refl).
  - apply IH. intros i' ev' Hin. apply (H i' ev'). right. exact Hin.
Qed.

Lemma started_app tr i evs :
  started (tr ++ map (pair i) evs) = started tr ++ starts evs.
Proof.
  unfold started, starts. rewrite map_app, flat_map_app. f_equal.
  rewrite map_map. cbn [snd]. rewrite map_id. reflexivity.
Qed.

Lemma starts_head st p :
  starts (head_events st p)
  = match spawned p with Some c => [c] | None => [] end.
Proof. destruct p; reflexivity. Qed.

Lemma sends_head st p : sends (head_events st p) = sent st p.
Proof. destruct p; reflexivity. Qed.

Lemma sends_app evs evs' : sends (evs ++ evs') = sends evs ++ sends evs'.
Proof. apply flat_map_app. Qed.

(** ** Collector code

    A listing under the finder's datacenter is the only statement of a
    collector that looks at shared state, and a collector sends at most
    one: [disciplined p listed] says so of [p], [listed] telling whether
    the listing has been sent. *)
Definition uses_finder {A : Type} (c : request A) : bool :=
  match c with
  | ClusterComputeResourceList | DatastoreList => true
  | _ => false
  end.

Lemma answer_finder inv f f' {A : Type} (c : request A) :
  uses_finder c = false -> answer inv f c = answer inv f' c.
Proof. destruct c; intros H; try reflexivity; discriminate. Qed.

Fixpoint disciplined (p : prog) (listed : bool) : Prop :=
  match p with
  | Return | Panic => True
  | Send _ k | SetAvailable _ k
  | WgAdd _ _ k | WgDone _ k | WgWait _ k => disciplined k listed
  | SendUp _ | GetAvailable _ | NewFinder _ | SetDatacenter _ _ => False
  | Call c k =>
      if uses_finder c
      then listed = false /\ forall r, disciplined (k r) true
      else forall r, disciplined (k r) listed
  | VarWaitGroup k => forall w, disciplined (k w) listed
  | Go child k => disciplined child false /\ disciplined k listed
  end.

(** A collector reads neither the flag nor the gauge. *)
Lemma solo_flag inv i p :
  forall listed f v u v' u',
    disciplined p listed ->
    solo inv i p f v u = solo inv i p f v' u'.
Proof.
  induction p as [| |m k IH|k IH|k IH|v0 k IH|k IH|dc k IH|A c k IH|k IH
                 |w0 n k IH|w0 k IH|w0 k IH|child IHc k IH];
    intros listed f v u v' u' Hd; cbn in *; try contradiction;
    try reflexivity; try (f_equal; eapply IH; eassumption);
    try (eapply IH; eassumption).
  - f_equal. destruct (uses_finder c); [eapply IH, Hd | eapply IH, Hd].
  - eapply IH, Hd.
  - f_equal. eapply IH, Hd.
Qed.

(** Once it has listed, it does not look at the finder either. *)
Lemma solo_finder inv i p :
  forall f f' v u,
    disciplined p true ->
    solo inv i p f v u = solo inv i p f' v u.
Proof.
  induction p as [| |m k IH|k IH|k IH|v0 k IH|k IH|dc k IH|A c k IH|k IH
                 |w0 n k IH|w0 k IH|w0 k IH|child IHc k IH];
    intros f f' v u Hd; cbn in *; try contradiction;
    try reflexivity; try (f_equal; apply IH; assumption);
    try (apply IH; assumption).
  - destruct (uses_finder c) eqn:Hc; [destruct Hd; discriminate |].
    rewrite (answer_finder inv f f' c Hc). f_equal. apply IH, Hd.
  - apply IH, Hd.
  - f_equal. apply IH, Hd.
Qed.

Lemma disciplined_succ inv st i p k listed :
  disciplined p listed -> succ inv st i p = Some k ->
  (exists listed', disciplined k listed') /\
  (forall c, spawned p = Some c -> disciplined c false).
Proof.
  destruct p as [| |m k0|k0|k0|v k0|k0|dc k0|A c k0|k0|w n k0|w k0|w k0
                |child k0];
    cbn; intros Hd [= <-]; try contradiction;
    try (split; [exists listed; first [exact Hd | apply Hd] | discriminate]).
  - split; [| discriminate].
    destruct (uses_finder c); [exists true; apply Hd | exists listed; apply Hd].
  - split; [exists listed; apply Hd |]. intros c [= <-]. apply Hd.
Qed.

(** One step of a collector that is not its listing. *)
Lemma solo_step inv st i p k listed :
  disciplined p listed -> succ inv st i p = Some k ->
  match p with
  | Call c _ => uses_finder c = false
  | _ => True
  end ->
  disciplined k listed /\
  forall f v u,
    solo inv i p f v u = head_events st p ++ solo inv i k f v u.
Proof.
  destruct p; cbn; intros Hd [= <-] Hc; try contradiction;
    try (split; [exact Hd | reflexivity]).
  - split; [exact Hd |]. intros f v' u. cbn. f_equal.
    eapply solo_flag, Hd.
  - rewrite Hc in Hd. split; [apply Hd |].
    intros f v u. cbn. rewrite (answer_finder inv f (finder st) c Hc).
    reflexivity.
  - split; [apply Hd | reflexivity].
  - split; [apply Hd | reflexivity].
Qed.

(** What is known of goroutine [j], whose code was [p0] when it started
    and is [c] now, after the events [H]; [fs] are the datacenters the
    finder may hold when a collector sends its listing. *)
Definition local_inv (inv : inventory) (fs : list (option Datacenter))
    (j : nat) (c p0 : prog) (H : list event) : Prop :=
  (disciplined c false /\
   forall f, H ++ solo inv j c f 0 0 = solo inv j p0 f 0 0) \/
  (disciplined c true /\
   exists f, In f fs /\ H ++ solo inv j c f 0 0 = solo inv j p0 f 0 0).

Lemma local_inv_step inv fs st j c k p0 H :
  local_inv inv fs j c p0 H -> In (finder st) fs ->
  succ inv st j c = Some k ->
  local_inv inv fs j k p0 (H ++ head_events st c).
Proof.
  intros Hl Hf Hk.
  assert (Hcase : (exists A (c0 : request A) k0,
                     c = Call c0 k0 /\ uses_finder c0 = true) \/
                  match c with
                  | Call c0 _ => uses_finder c0 = false
                  | _ => True
                  end).
  { destruct c; try (right; exact I).
    destruct (uses_finder c) eqn:Hu; [left; eauto | right; reflexivity]. }
  destruct Hcase as [(A & c0 & k0 & -> & Hu) | Hplain].
  - (* the listing *)
    cbn in Hk. injection Hk as <-.
    destruct Hl as [[Hd Heq] | [Hd _]]; cbn in Hd; rewrite Hu in Hd;
      [| destruct Hd; discriminate].
    destruct Hd as [_ Hd].
    right. split; [apply Hd |]. exists (finder st). split; [exact Hf |].
    rewrite <- (Heq (finder st)). cbn. rewrite <- app_assoc. reflexivity.
  - destruct Hl as [[Hd Heq] | [Hd (f & Hfin & Heq)]].
    + destruct (solo_step inv st j c k false Hd Hk Hplain) as [Hdk Hs].
      left. split; [exact Hdk |]. intros f.
      rewrite <- (Heq f), (Hs f 0 0), app_assoc. reflexivity.
    + destruct (solo_step inv st j c k true Hd Hk Hplain) as [Hdk Hs].
      right. split; [exact Hdk |]. exists f. split; [exact Hfin |].
      rewrite <- Heq, (Hs f 0 0), app_assoc. reflexivity.
Qed.

Lemma local_inv_disciplined inv fs j c p0 H :
  local_inv inv fs j c p0 H -> exists listed, disciplined c listed.
Proof. intros [[Hd _] | [Hd _]]; eauto. Qed.

(** A collector that has returned did what its code does on its own,
    under a datacenter that the finder held. *)
Lemma local_inv_returned inv fs j p0 H :
  local_inv inv fs j Return p0 H ->
  (forall f, H = solo inv j p0 f 0 0) \/
  (exists f, In f fs /\ H = solo inv j p0 f 0 0).
Proof.
  intros [[_ Heq] | [_ (f & Hf & Heq)]].
  - left. intros f. rewrite <- (Heq f). cbn. rewrite app_nil_r. reflexivity.
  - right. exists f. split; [exact Hf |].
    rewrite <- Heq. cbn. rewrite app_nil_r. reflexivity.
Qed.

(** The goroutines that [p] starts are collectors. *)
Fixpoint starts_collectors (p : prog) : Prop :=
  match p with
  | Return | Panic => True
  | Send _ k | SendUp k | SetAvailable _ k | NewFinder k | SetDatacenter _ k
  | WgAdd _ _ k | WgDone _ k | WgWait _ k => starts_collectors k
  | GetAvailable k => forall v, starts_collectors (k v)
  | Call c k => forall r, starts_collectors (k r)
  | VarWaitGroup k => forall w, starts_collectors (k w)
  | Go child k => disciplined child false /\ starts_collectors k
  end.

Lemma starts_collectors_succ inv st i p k :
  starts_collectors p -> succ inv st i p = Some k ->
  starts_collectors k /\
  (forall c, spawned p = Some c -> disciplined c false).
Proof.
  destruct p; cbn; intros Hs [= <-]; try contradiction;
    try (split; [first [exact Hs | apply Hs] | discriminate]).
  split; [apply Hs |]. intros c [= <-]. apply Hs.
Qed.

Lemma map_snd_tagged (i : nat) (evs : list event) :
  map snd (map (pair i) evs) = evs.
Proof. rewrite map_map. cbn [snd]. apply map_id. Qed.

Section Adequacy.
Variable inv : inventory.
Variable fs : list (option Datacenter).

(** The invariant of the trace: the goroutines of the pool are [Collect]
    and those started, in that order, and each collector stands where its
    events say. *)
Definition adequate (st : state) (tr : list (nat * event)) : Prop :=
  S (length (started tr)) = length (goroutines st) /\
  (forall i ev, In (i, ev) tr -> (i < length (goroutines st))%nat) /\
  (exists c0, code <$> (goroutines st !! 0%nat) = Some c0 /\
              starts_collectors c0) /\
  (forall j p0 c,
     started tr !! j = Some p0 ->
     code <$> (goroutines st !! S j) = Some c ->
     local_inv inv fs (S j) c p0 (events_of (S j) tr)) /\
  chan st = sends (map snd tr).

Lemma adequate_start e main :
  starts_collectors main -> adequate (start e main) [].
Proof.
  intros Hm. split; [reflexivity |]. split; [intros i ev [] |].
  split; [exists main; split; [reflexivity | exact Hm] |].
  split; [intros j p0 c Hj; discriminate | reflexivity].
Qed.

Lemma adequate_step i st st' tr :
  adequate st tr ->
  ((1 < length (goroutines st))%nat -> In (finder st) fs) ->
  step_goroutine inv i st = Some st' -> panicked st' = false ->
  adequate st' (tr ++ step_events i st).
Proof.
  intros (Hlen & Htags & (c0 & Hc0 & Hmain) & Hlocal & Hchan) Hf Hstep Halive.
  destruct (step_effect _ _ _ _ Hstep)
    as (_ & g & Hg &
        [-> | (_ & k & Hk & Hpool & Hch & _)]); [discriminate |].
  pose proof (step_length _ _ _ _ _ Hstep Hg) as Hl.
  pose proof (lookup_lt_Some _ _ _ Hg) as Hi.
  unfold step_events. rewrite Hg.
  assert (Hstarted : started (tr ++ map (pair i) (head_events st (code g)))
                     = started tr
                       ++ match spawned (code g) with
                          | Some c => [c]
                          | None => []
                          end)
    by (rewrite started_app, starts_head; reflexivity).
  (* the code of a goroutine that starts another one *)
  assert (Hparent : forall child, spawned (code g) = Some child ->
                      disciplined child false).
  { intros child Hsp. destruct i as [|i'].
    - rewrite Hg in Hc0. injection Hc0 as Hc0. rewrite <- Hc0 in Hmain.
      eapply (starts_collectors_succ inv st 0); eassumption.
    - assert (Hi' : (i' < length (started tr))%nat) by lia.
      destruct (lookup_lt_is_Some_2 _ _ Hi') as [p0 Hp0].
      assert (Hloc : local_inv inv fs (S i') (code g) p0
                       (events_of (S i') tr))
        by (apply Hlocal; [exact Hp0 | rewrite Hg; reflexivity]).
      destruct (local_inv_disciplined _ _ _ _ _ _ Hloc) as [listed Hd].
      eapply (disciplined_succ inv st (S i')); eassumption. }
  split; [| split; [| split; [| split]]].
  - rewrite Hstarted, length_app, Hl.
    destruct (spawned (code g)); cbn; lia.
  - intros i' ev Hin. apply in_app_or in Hin. rewrite Hl.
    destruct Hin as [Hin | Hin]; [specialize (Htags _ _ Hin); lia |].
    apply in_map_iff in Hin. destruct Hin as (x & [= <- _] & _). lia.
  - destruct i as [|i'].
    + exists k. split; [rewrite Hpool; reflexivity |].
      rewrite Hg in Hc0. injection Hc0 as Hc0. rewrite <- Hc0 in Hmain.
      eapply (starts_collectors_succ inv st 0); eassumption.
    + exists c0. split; [| exact Hmain]. rewrite Hpool.
      destruct (Nat.eqb_spec 0 (S i')); [lia |].
      destruct (Nat.eqb_spec 0 (length (goroutines st))); [lia | exact Hc0].
  - intros j p0 c Hp0 Hc.
    rewrite Hstarted in Hp0. rewrite Hpool in Hc.
    rewrite events_of_app, events_of_tagged.
    destruct (Nat.eqb_spec (S j) i) as [<- | Hne].
    + (* the goroutine that moved *)
      injection Hc as <-. rewrite Nat.eqb_refl.
      rewrite lookup_app_l in Hp0 by lia.
      apply local_inv_step; [| apply Hf; lia | exact Hk].
      apply Hlocal; [exact Hp0 | rewrite Hg; reflexivity].
    + destruct (Nat.eqb_spec i (S j)); [lia |]. rewrite app_nil_r.
      destruct (Nat.eqb_spec (S j) (length (goroutines st))) as [Hnew | Hold].
      * (* the goroutine that was started *)
        rewrite lookup_app_r in Hp0 by lia.
        assert (Hz : (j - length (started tr) = 0)%nat) by lia.
        rewrite Hz in Hp0. rewrite Hc in Hp0. cbn in Hp0.
        injection Hp0 as <-.
        rewrite events_of_none
          by (intros i' ev Hin; specialize (Htags _ _ Hin); lia).
        left. split; [apply Hparent, Hc | reflexivity].
      * assert (Hj : (S j < length (goroutines st))%nat).
        { destruct (goroutines st !! S j) as [gj|] eqn:Hgj; [| discriminate].
          eapply lookup_lt_Some, Hgj. }
        rewrite lookup_app_l in Hp0 by lia.
        apply Hlocal; assumption.
  - rewrite Hch, Hchan, map_app, map_snd_tagged, sends_app, sends_head.
    reflexivity.
Qed.

(** Along a run that keeps an invariant under which the process is alive
    and the finder holds a datacenter of [fs] once a collector runs, the
    trace stays adequate. *)
Lemma adequate_run (Q : state -> Prop) :
  (forall i st st', Q st -> step_goroutine inv i st = Some st' -> Q st') ->
  (forall st, Q st ->
     panicked st = false /\
     ((1 < length (goroutines st))%nat -> In (finder st) fs)) ->
  forall schedule st tr,
    Q st -> adequate st tr ->
    adequate (run inv schedule st) (tr ++ trace inv schedule st).
Proof.
  intros Hstep HQ schedule.
  induction schedule as [|i rest IH]; intros st tr Hq Ha;
    cbn [run trace]; [rewrite app_nil_r; exact Ha |].
  destruct (step_goroutine inv i st) as [st'|] eqn:Hs; [| apply IH; assumption].
  pose proof (Hstep _ _ _ Hq Hs) as Hq'.
  rewrite app_assoc. apply IH; [exact Hq' |].
  apply adequate_step; try assumption.
  - apply (HQ st Hq).
  - apply (HQ st' Hq').
Qed.
End Adequacy.

(** ** The finder when a collector runs *)

(** The datacenters of the listing. *)
Definition listed (inv : inventory) : list (option Datacenter) :=
  match datacenters inv with
  | Ok dcs => map Some dcs
  | Failed => []
  end.

(** [p] makes no finder and sets it to listed datacenters only. *)
Fixpoint sets_listed (inv : inventory) (p : prog) : Prop :=
  match p with
  | Return | Panic => True
  | NewFinder _ => False
  | SetDatacenter dc k => In (Some dc) (listed inv) /\ sets_listed inv k
  | Send _ k | SendUp k | SetAvailable _ k
  | WgAdd _ _ k | WgDone _ k | WgWait _ k | Go _ k => sets_listed inv k
  | GetAvailable k => forall v, sets_listed inv (k v)
  | Call c k => forall r, sets_listed inv (k r)
  | VarWaitGroup k => forall w, sets_listed inv (k w)
  end.

(** [p] sets the finder before it starts a goroutine. *)
Fixpoint sets_first (p : prog) : Prop :=
  match p with
  | Return | Panic | SetDatacenter _ _ => True
  | Go _ _ => False
  | NewFinder k | Send _ k | SendUp k | SetAvailable _ k
  | WgAdd _ _ k | WgDone _ k | WgWait _ k => sets_first k
  | GetAvailable k => forall v, sets_first (k v)
  | Call c k => forall r, sets_first (k r)
  | VarWaitGroup k => forall w, sets_first (k w)
  end.

Lemma sets_succ inv st i p k :
  sets_listed inv p -> succ inv st i p = Some k ->
  sets_listed inv k /\
  (In (refound st p) (listed inv) \/
   (refound st p = finder st /\
    (sets_first p -> sets_first k /\ spawned p = None))).
Proof.
  destruct p; cbn; intros Hs [= <-]; try contradiction;
    try (split; [first [exact Hs | apply Hs] |]; right;
         split; [reflexivity |]; intros Hf;
         first [contradiction | split; [first [exact Hf | apply Hf] | reflexivity]]).
  split; [apply Hs |]. left. apply Hs.
Qed.

(** The steps of [Collect] and of its collectors as events. *)
Lemma solo_head_main inv st c k :
  succ inv st 0 c = Some k ->
  solo inv 0 c (finder st) (vcenterAvailable st) (up st)
  = head_events st c
    ++ solo inv 0 k (refound st c) (written st c) (up st).
Proof. destruct c; cbn; intros [= <-]; reflexivity. Qed.

Section PollTrace.
Variable inv : inventory.
Variable P : Metric -> Prop.
Variables collectHostMetrics collectDatastoreMetrics : nat -> string -> prog.
Hypothesis hosts_emit :
  forall wg name, emits inv P (collectHostMetrics wg name).
Hypothesis datastores_emit :
  forall wg name, emits inv P (collectDatastoreMetrics wg name).
Hypothesis hosts_wf :
  forall wg name j, wf (collectHostMetrics wg name) j (Some wg) Pre.
Hypothesis datastores_wf :
  forall wg name j, wf (collectDatastoreMetrics wg name) j (Some wg) Pre.
Variable e : Exporter.

Let main := Collect collectHostMetrics collectDatastoreMetrics.
Let listing := after_listing collectHostMetrics collectDatastoreMetrics.
Let inv_poll :=
  poll_inv inv P collectHostMetrics collectDatastoreMetrics e.

(** Before the fan-out [Collect] is alone. *)
Definition before_fan_out (st : state) : Prop :=
  length (goroutines st) = 1%nat /\
  exists c0, code <$> (goroutines st !! 0%nat) = Some c0 /\
    (c0 = main \/ c0 = NewFinder (Call DatacenterList listing) \/
     c0 = Call DatacenterList listing \/
     (datacenters inv = Failed /\
      (c0 = SetAvailable 0 Return \/ c0 = Return))).

(** From the fan-out on the finder holds a datacenter of the listing as
    soon as a collector exists. *)
Definition finder_listed (st : state) : Prop :=
  exists c0, code <$> (goroutines st !! 0%nat) = Some c0 /\
    sets_listed inv c0 /\
    (In (finder st) (listed inv) \/
     (sets_first c0 /\ length (goroutines st) = 1%nat)).

Definition finder_inv (st : state) : Prop :=
  before_fan_out st \/ finder_listed st.

Lemma fan_out_sets wg dcs :
  (forall dc, In dc dcs -> In (Some dc) (listed inv)) ->
  sets_listed inv (fan_out collectHostMetrics collectDatastoreMetrics wg dcs)
  /\ sets_first (fan_out collectHostMetrics collectDatastoreMetrics wg dcs).
Proof.
  unfold fan_out, for_each. destruct dcs as [|dc dcs]; intros Hin.
  - cbn. split; intros v; exact I.
  - split; [| exact I].
    revert Hin. generalize (dc :: dcs). clear dc dcs.
    induction l as [|dc dcs IH]; intros Hin;
      cbn [foldr fold_right sets_listed].
    + intros v. exact I.
    + split; [apply Hin; left; reflexivity |].
      apply IH. intros dc' Hdc'. apply Hin. right. exact Hdc'.
Qed.

Lemma finder_inv_start : finder_inv (start e main).
Proof.
  left. split; [reflexivity |]. exists main. split; [reflexivity |]. auto.
Qed.

Lemma finder_inv_step i st st' :
  inv_poll st -> finder_inv st ->
  step_goroutine inv i st = Some st' -> finder_inv st'.
Proof.
  intros Hpoll Hfi Hstep.
  destruct (step_effect _ _ _ _ Hstep)
    as (_ & g & Hg &
        [-> | (_ & k & Hk & Hpool & _ & _ & Hf & _)]); [exact Hfi |].
  pose proof (step_length _ _ _ _ _ Hstep Hg) as Hl.
  pose proof (lookup_lt_Some _ _ _ Hg) as Hi.
  destruct i as [|i].
  - (* Collect moves *)
    assert (Hmain : code <$> (goroutines st' !! 0%nat) = Some k)
      by (rewrite Hpool; reflexivity).
    destruct Hfi as [(Hlen & c0 & Hc0 & Hforms) | (c0 & Hc0 & Hs & Hfin)];
      rewrite Hg in Hc0; injection Hc0 as Hc0.
    + destruct Hforms as [-> | [-> | [-> | [Hd [-> | ->]]]]];
        rewrite Hc0 in *; cbn in Hk, Hl; try discriminate;
        injection Hk as <-.
      * left. split; [lia |]. exists (NewFinder (Call DatacenterList listing)).
        split; [exact Hmain |]. auto.
      * left. split; [lia |]. exists (Call DatacenterList listing).
        split; [exact Hmain |]. auto.
      * destruct (datacenters inv) as [dcs|] eqn:Hd.
        -- right. exists (listing (Ok dcs)). split; [exact Hmain |].
           assert (Hin : forall dc, In dc dcs -> In (Some dc) (listed inv))
             by (intros dc Hdc; unfold listed; rewrite Hd; apply in_map, Hdc).
           split.
           ++ cbn. intros w. apply (fan_out_sets w dcs Hin).
           ++ right. split; [| lia]. cbn. intros w.
              apply (fan_out_sets w dcs Hin).
        -- left. split; [lia |]. exists (SetAvailable 0 Return).
           split; [exact Hmain |]. auto 10.
      * left. split; [lia |]. exists Return.
        split; [exact Hmain |]. auto 10.
    + right. exists k. split; [exact Hmain |].
      rewrite Hc0 in *.
      destruct (sets_succ inv st 0 c0 k Hs Hk) as [Hsk [Hin | [Href Hfirst]]].
      * split; [exact Hsk |]. left. rewrite Hf. exact Hin.
      * split; [exact Hsk |].
        destruct Hfin as [Hin | [Hsf Hlen]].
        -- left. rewrite Hf, Href. exact Hin.
        -- right. destruct (Hfirst Hsf) as [Hsk' Hsp].
           split; [exact Hsk' |]. rewrite Hsp in Hl. lia.
  - (* a collector moves: the finder and the code of Collect stay *)
    assert (He : emits inv P (code g)).
    { destruct Hpoll as (_ & _ & _ & He).
      apply (He (S i)); [lia | rewrite Hg; reflexivity]. }
    destruct (emits_succ _ _ st (S i) _ _ He Hk) as (_ & _ & _ & Href & _).
    assert (Hmain : code <$> (goroutines st' !! 0%nat)
                    = code <$> (goroutines st !! 0%nat)).
    { rewrite Hpool.
      destruct (Nat.eqb_spec 0 (S i)); [lia |].
      destruct (Nat.eqb_spec 0 (length (goroutines st))); [lia | reflexivity]. }
    destruct Hfi as [(Hlen & _) | (c0 & Hc0 & Hs & Hfin)]; [lia |].
    right. exists c0. split; [rewrite Hmain; exact Hc0 |].
    split; [exact Hs |].
    destruct Hfin as [Hin | [_ Hlen]]; [| lia].
    left. rewrite Hf, Href. exact Hin.
Qed.

Lemma finder_inv_listed st :
  finder_inv st -> (1 < length (goroutines st))%nat ->
  In (finder st) (listed inv).
Proof.
  intros [(Hlen & _) | (c0 & _ & _ & [Hin | [_ Hlen]])] Hl;
    [lia | exact Hin | lia].
Qed.

(** What [Collect] has done and what is left of it is what it does on
    its own: no collector touches the finder, the flag or the gauge. *)
Definition main_trace (st : state) (tr : list (nat * event)) : Prop :=
  exists c0, code <$> (goroutines st !! 0%nat) = Some c0 /\
    events_of 0 tr
    ++ solo inv 0 c0 (finder st) (vcenterAvailable st) (up st)
    = solo inv 0 main None (e_vcenterAvailable e) (e_up e).

Lemma main_trace_start : main_trace (start e main) [].
Proof. exists main. split; reflexivity. Qed.

Lemma main_trace_step i st st' tr :
  inv_poll st -> main_trace st tr ->
  step_goroutine inv i st = Some st' -> panicked st' = false ->
  main_trace st' (tr ++ step_events i st).
Proof.
  intros Hpoll (c0 & Hc0 & Heq) Hstep Halive.
  destruct (step_effect _ _ _ _ Hstep)
    as (_ & g & Hg &
        [-> | (_ & k & Hk & Hpool & _ & Hav & Hf & Hup & _)]);
    [discriminate |].
  pose proof (lookup_lt_Some _ _ _ Hg) as Hi.
  assert (Hev : events_of 0 (tr ++ step_events i st)
                = events_of 0 tr
                  ++ (if Nat.eqb i 0 then head_events st (code g) else [])).
  { unfold step_events. rewrite Hg, events_of_app, events_of_tagged.
    reflexivity. }
  unfold main_trace. rewrite Hev. clear Hev.
  destruct i as [|i].
  - rewrite Hg in Hc0. injection Hc0 as Hc0. rewrite Hc0 in *.
    exists k. split; [rewrite Hpool; reflexivity |].
    rewrite Nat.eqb_refl, Hf, Hav, Hup, <- app_assoc,
            <- (solo_head_main inv st c0 k Hk).
    exact Heq.
  - assert (He : emits inv P (code g)).
    { destruct Hpoll as (_ & _ & _ & He).
      apply (He (S i)); [lia | rewrite Hg; reflexivity]. }
    destruct (emits_succ _ _ st (S i) _ _ He Hk) as (_ & _ & Hw & Href & _).
    exists c0. split.
    + rewrite Hpool.
      destruct (Nat.eqb_spec 0 (S i)); [lia |].
      destruct (Nat.eqb_spec 0 (length (goroutines st))); [lia | exact Hc0].
    + cbn [Nat.eqb]. rewrite app_nil_r, Hf, Hav, Hup, Hw, Href. exact Heq.
Qed.
End PollTrace.

(** ** The by-cluster collectors are collectors *)

Lemma disciplined_and_then p q :
  forall listed,
    disciplined p listed -> (forall listed', disciplined q listed') ->
    disciplined (and_then p q) listed.
Proof.
  induction p as [| |m k IH|k IH|k IH|v0 k IH|k IH|dc k IH|A c k IH|k IH
                 |w0 n k IH|w0 k IH|w0 k IH|child IHc k IH];
    intros listed Hd Hq; cbn in *; try contradiction; auto.
  - destruct (uses_finder c).
    + destruct Hd as [-> Hd]. split; [reflexivity |].
      intros r. apply IH; [apply Hd | exact Hq].
    + intros r. apply IH; [apply Hd | exact Hq].
  - destruct Hd as [Hc Hk]. split; [exact Hc |]. apply IH; assumption.
Qed.

Lemma disciplined_defer_Done wg p listed :
  disciplined p listed -> disciplined (defer_Done wg p) listed.
Proof.
  intros Hd. apply disciplined_and_then; [exact Hd |]. intros l. exact I.
Qed.

Lemma disciplined_for_each {A : Type} (l : list A) body k listed :
  (forall x k', disciplined k' listed -> disciplined (body x k') listed) ->
  disciplined k listed -> disciplined (for_each l body k) listed.
Proof.
  intros Hb Hk. unfold for_each.
  induction l as [|x l IH]; cbn; [exact Hk | apply Hb, IH].
Qed.

Lemma disciplined_send_sample {S : Type} d (mg : option (S -> float64))
    lg hierarchy (s : S) k listed :
  disciplined k listed ->
  disciplined (send_sample d mg lg hierarchy s k) listed.
Proof.
  intros Hk. unfold send_sample, send_const.
  destruct (label_values lg s); [| exact I].
  destruct mg; [| exact I].
  destruct (MustNewConstMetric _ _ _); [exact Hk | exact I].
Qed.

Lemma cluster_disciplined wg datacenterName cluster listed :
  disciplined
    (ByCluster.collectHostMetricFromCluster wg datacenterName cluster) listed.
Proof.
  apply disciplined_defer_Done. cbn. intros [hosts|]; [| exact I].
  destruct hosts as [|h0 hosts]; [exact I |].
  cbn. intros r.
  apply disciplined_for_each; [| exact I]. intros h k Hk.
  apply disciplined_for_each; [| exact Hk]. intros metric k' Hk'.
  apply disciplined_send_sample, Hk'.
Qed.

Lemma hosts_disciplined wg datacenterName :
  disciplined (ByCluster.collectHostMetrics wg datacenterName) false.
Proof.
  apply disciplined_defer_Done. cbn. split; [reflexivity |].
  intros [clusters|]; [| exact I]. cbn. intros w.
  apply disciplined_for_each; [| exact I]. intros cluster k Hk.
  split; [apply cluster_disciplined | exact Hk].
Qed.

Lemma datastores_disciplined wg datacenterName :
  disciplined (ByCluster.collectDatastoreMetrics wg datacenterName) false.
Proof.
  apply disciplined_defer_Done. cbn. split; [reflexivity |].
  intros [datastores|]; [| exact I].
  destruct datastores as [|d0 datastores]; [exact I |].
  cbn. intros [ds|]; [| exact I].
  apply disciplined_for_each; [| exact I]. intros d k Hk.
  apply disciplined_for_each; [| exact Hk]. intros metric k' Hk'.
  apply disciplined_send_sample, Hk'.
Qed.

Lemma Collect_starts_collectors cH cD :
  (forall wg name, disciplined (cH wg name) false) ->
  (forall wg name, disciplined (cD wg name) false) ->
  starts_collectors (Collect cH cD).
Proof.
  intros HH HD. cbn. intros [dcs|]; [| exact I]. cbn. intros wg.
  unfold for_each.
  induction dcs as [|dc dcs IH]; cbn.
  - intros v. unfold send_const.
    destruct (MustNewConstMetric vcenterAvailableDesc v []); exact I.
  - split; [apply HH |]. split; [apply HD | exact IH].
Qed.

(** ** The trace of a by-cluster poll *)

Section ByClusterTrace.
Variable inv : inventory.
Variable e : Exporter.

Let cH := ByCluster.collectHostMetrics.
Let cD := ByCluster.collectDatastoreMetrics.

(** What holds of every state of a poll. *)
Definition poll_state (st : state) : Prop :=
  healthy inv st /\
  poll_inv inv (justified inv) cH cD e st /\
  finder_inv inv cH cD st.

Lemma poll_state_start : poll_state (start e ByCluster.Collect).
Proof.
  split; [apply ByCluster_healthy |].
  split; [apply poll_inv_start; [apply hosts_wf | apply datastores_wf] |].
  apply finder_inv_start.
Qed.

Lemma poll_state_step i st st' :
  poll_state st -> step_goroutine inv i st = Some st' -> poll_state st'.
Proof.
  intros (Hh & Hp & Hf) Hstep.
  split; [eapply healthy_step; eassumption |].
  split.
  - eapply poll_inv_step; try eassumption;
      first [ apply hosts_emits | apply datastores_emits
            | apply hosts_wf | apply datastores_wf ].
  - eapply (finder_inv_step inv (justified inv) cH cD); try eassumption;
      first [ apply hosts_emits | apply datastores_emits
            | apply hosts_wf | apply datastores_wf ].
Qed.

Lemma poll_state_alive st :
  poll_state st ->
  panicked st = false /\
  ((1 < length (goroutines st))%nat -> In (finder st) (listed inv)).
Proof.
  intros ((_ & [Hp _] & _) & _ & Hf).
  split; [exact Hp | apply (finder_inv_listed inv cH cD); exact Hf].
Qed.

Lemma poll_state_run schedule st :
  poll_state st -> poll_state (run inv schedule st).
Proof.
  revert st. induction schedule as [|i rest IH]; intros st H; cbn;
    [exact H |].
  destruct (step_goroutine inv i st) as [st'|] eqn:Hs;
    [apply IH; eapply poll_state_step; eassumption | apply IH; exact H].
Qed.

Lemma main_trace_run schedule :
  forall st tr,
    poll_state st -> main_trace inv cH cD e st tr ->
    main_trace inv cH cD e (run inv schedule st)
      (tr ++ trace inv schedule st).
Proof.
  induction schedule as [|i rest IH]; intros st tr Hq Hm;
    cbn [run trace]; [rewrite app_nil_r; exact Hm |].
  destruct (step_goroutine inv i st) as [st'|] eqn:Hs; [| apply IH; assumption].
  pose proof (poll_state_step _ _ _ Hq Hs) as Hq'.
  rewrite app_assoc. apply IH; [exact Hq' |].
  eapply main_trace_step; try eassumption.
  - apply Hq.
  - apply (poll_state_alive st' Hq').
Qed.

Variable schedule : list nat.
Let st := run inv schedule (start e ByCluster.Collect).
Let tr := trace inv schedule (start e ByCluster.Collect).

Lemma poll_adequate : adequate inv (listed inv) st tr.
Proof.
  apply (adequate_run inv (listed inv) poll_state poll_state_step
           poll_state_alive schedule (start e ByCluster.Collect) []).
  - apply poll_state_start.
  - apply adequate_start, Collect_starts_collectors;
      [apply hosts_disciplined | apply datastores_disciplined].
Qed.

Lemma poll_main_trace : main_trace inv cH cD e st tr.
Proof.
  apply (main_trace_run schedule (start e ByCluster.Collect) []).
  - apply poll_state_start.
  - apply main_trace_start.
Qed.

(** The samples on the channel are those of the trace, in its order. *)
Lemma poll_chan : chan st = sends (map snd tr).
Proof. apply poll_adequate. Qed.

(** When the poll is finished, [Collect] has done what it does on its
    own, and so has every goroutine started, under a datacenter of the
    listing. *)
Lemma poll_finished :
  finished st = true ->
  events_of 0 tr
  = solo inv 0 ByCluster.Collect None (e_vcenterAvailable e) (e_up e) /\
  forall j p0,
    started tr !! j = Some p0 ->
    (forall f, events_of (S j) tr = solo inv (S j) p0 f 0 0) \/
    (exists f, In f (listed inv) /\
               events_of (S j) tr = solo inv (S j) p0 f 0 0).
Proof.
  intros Hf. apply finished_spec in Hf. destruct Hf as [_ Hall].
  split.
  - destruct poll_main_trace as (c0 & Hc0 & Heq).
    destruct (goroutines st !! 0%nat) as [g0|] eqn:Hg0; [| discriminate].
    injection Hc0 as Hc0. rewrite (Hall _ _ Hg0) in Hc0. subst c0.
    cbn in Heq. rewrite app_nil_r in Heq. exact Heq.
  - intros j p0 Hp0.
    destruct poll_adequate as (Hlen & _ & _ & Hlocal & _).
    pose proof (lookup_lt_Some _ _ _ Hp0) as Hj.
    assert (Hj' : (S j < length (goroutines st))%nat) by lia.
    destruct (lookup_lt_is_Some_2 _ _ Hj') as [g Hg].
    apply (local_inv_returned inv (listed inv) (S j) p0).
    apply Hlocal; [exact Hp0 |].
    rewrite Hg. cbn. rewrite (Hall _ _ Hg). reflexivity.
Qed.
End ByClusterTrace.

(** ** Reading the trace *)

Lemma In_events_of j ev tr : In ev (events_of j tr) <-> In (j, ev) tr.
Proof.
  unfold events_of. rewrite in_flat_map. split.
  - intros ([i ev'] & Hin & Hev). cbn [fst snd] in Hev.
    destruct (Nat.eqb_spec i j) as [-> | _]; [| contradiction].
    destruct Hev as [<- | []]. exact Hin.
  - intros Hin. exists (j, ev). split; [exact Hin |].
    cbn [fst snd]. rewrite Nat.eqb_refl. left. reflexivity.
Qed.


Lemma In_starts p evs : In p (starts evs) <-> In (Starts p) evs.
Proof.
  unfold starts. rewrite in_flat_map. split.
  - intros (ev & Hin & Hm). destruct ev; try contradiction.
    destruct Hm as [<- | []]. exact Hin.
  - intros Hin. exists (Starts p). split; [exact Hin | left; reflexivity].
Qed.

Lemma In_writes v evs : In v (writes evs) <-> In (Writes v) evs.
Proof.
  unfold writes. rewrite in_flat_map. split.
  - intros (ev & Hin & Hm). destruct ev; try contradiction.
    destruct Hm as [<- | []]. exact Hin.
  - intros Hin. exists (Writes v). split; [exact Hin | left; reflexivity].
Qed.

Lemma In_map_snd (ev : event) (tr : list (nat * event)) :
  In ev (map snd tr) <-> exists i, In (i, ev) tr.
Proof.
  rewrite in_map_iff. split.
  - intros ([i ev'] & <- & Hin). exists i. exact Hin.
  - intros (i & Hin). exists (i, ev). split; [reflexivity | exact Hin].
Qed.



(** ** Invariants of the trace *)

Section TraceInvariant.
Variable inv : inventory.
Variable Q : state -> Prop.
Variable I : state -> list (nat * event) -> Prop.
Hypothesis Q_step :
  forall i st st', Q st -> step_goroutine inv i st = Some st' -> Q st'.
Hypothesis I_step :
  forall i st st' tr,
    Q st -> Q st' -> I st tr -> step_goroutine inv i st = Some st' ->
    I st' (tr ++ step_events i st).

Lemma trace_invariant schedule :
  forall st tr,
    Q st -> I st tr -> I (run inv schedule st) (tr ++ trace inv schedule st).
Proof.
  induction schedule as [|i rest IH]; intros st tr Hq Hi;
    cbn [run trace]; [rewrite app_nil_r; exact Hi |].
  destruct (step_goroutine inv i st) as [st'|] eqn:Hs; [| apply IH; assumption].
  pose proof (Q_step _ _ _ Hq Hs) as Hq'.
  rewrite app_assoc. apply IH; [exact Hq' |].
  eapply I_step; eassumption.
Qed.
End TraceInvariant.

(** [p] and the goroutines it starts start only goroutines of kind [K]. *)
Fixpoint starts_only (K : prog -> Prop) (p : prog) : Prop :=
  match p with
  | Return | Panic => True
  | Send _ k | SendUp k | SetAvailable _ k | NewFinder k | SetDatacenter _ k
  | WgAdd _ _ k | WgDone _ k | WgWait _ k => starts_only K k
  | GetAvailable k => forall v, starts_only K (k v)
  | Call c k => forall r, starts_only K (k r)
  | VarWaitGroup k => forall w, starts_only K (k w)
  | Go child k => K child /\ starts_only K child /\ starts_only K k
  end.

Lemma starts_only_succ K inv st i p k :
  starts_only K p -> succ inv st i p = Some k ->
  starts_only K k /\
  (forall c, spawned p = Some c -> K c /\ starts_only K c).
Proof.
  destruct p; cbn; intros Hs [= <-]; try contradiction;
    try (split; [first [exact Hs | apply Hs] | discriminate]).
  split; [apply Hs |]. intros c [= <-]. split; apply Hs.
Qed.

Lemma starts_only_and_then K p q :
  starts_only K p -> starts_only K q -> starts_only K (and_then p q).
Proof.
  intros Hp Hq. induction p; cbn in *; try tauto; auto.
Qed.

Lemma starts_only_for_each {A : Type} K (l : list A) body k :
  (forall x k', starts_only K k' -> starts_only K (body x k')) ->
  starts_only K k -> starts_only K (for_each l body k).
Proof. intros Hb Hk. induction l as [|x l IH]; cbn; auto. Qed.

Lemma starts_only_send_sample {S : Type} K d (mg : option (S -> float64))
    lg hierarchy (s : S) k :
  starts_only K k -> starts_only K (send_sample d mg lg hierarchy s k).
Proof.
  intros Hk. unfold send_sample, send_const.
  destruct (label_values lg s); [| exact I].
  destruct mg; [| exact I].
  destruct (MustNewConstMetric _ _ _); [exact Hk | exact I].
Qed.

Section Kinds.
Variable inv : inventory.
Variable K : prog -> Prop.

(** Every goroutine started is of kind [K]. *)
Definition kinds (st : state) (tr : list (nat * event)) : Prop :=
  (forall i c, code <$> (goroutines st !! i) = Some c -> starts_only K c) /\
  Forall K (started tr).

Lemma kinds_start e main : starts_only K main -> kinds (start e main) [].
Proof.
  intros Hm. split; [| apply Forall_nil_2].
  intros [|i] c Hc; [| discriminate]. injection Hc as <-. exact Hm.
Qed.

Lemma kinds_step i st st' tr :
  panicked st' = false -> kinds st tr ->
  step_goroutine inv i st = Some st' ->
  kinds st' (tr ++ step_events i st).
Proof.
  intros Halive [Hcode Hstarted] Hstep.
  destruct (step_effect _ _ _ _ Hstep)
    as (_ & g & Hg & [-> | (_ & k & Hk & Hpool & _)]); [discriminate |].
  assert (Hg' : starts_only K (code g))
    by (apply (Hcode i); rewrite Hg; reflexivity).
  destruct (starts_only_succ K inv st i _ _ Hg' Hk) as [Hk' Hsp].
  split.
  - intros j c Hc. rewrite Hpool in Hc.
    destruct (Nat.eqb j i); [injection Hc as <-; exact Hk' |].
    destruct (Nat.eqb j (length (goroutines st)));
      [apply Hsp, Hc | apply (Hcode j), Hc].
  - unfold step_events. rewrite Hg, started_app, starts_head.
    apply Forall_app. split; [exact Hstarted |].
    destruct (spawned (code g)) as [c|];
      [apply Forall_cons_2; [apply Hsp; reflexivity | apply Forall_nil_2]
      | apply Forall_nil_2].
Qed.
End Kinds.

(** A collector does not write the flag. *)
Lemma emits_head inv P st p v :
  emits inv P p -> ~ In (Writes v) (head_events st p).
Proof.
  destruct p; cbn; intros He H; try contradiction;
    destruct H as [H | H]; try contradiction; discriminate.
Qed.

(** ** [Collect] on its own *)

Definition Collect_events (inv : inventory)
    (collectHostMetrics collectDatastoreMetrics : nat -> string -> prog)
    (u : float64) : list event :=
  Sends {| desc := upDesc; value := u; labelValues := [] |}
  :: Asks (existT _ DatacenterList)
  :: match datacenters inv with
     | Failed => [Writes 0]
     | Ok dcs =>
         Writes 1
         :: flat_map (fun dc =>
              [Starts (collectHostMetrics 0%nat (Name dc));
               Starts (collectDatastoreMetrics 0%nat (Name dc))]) dcs
         ++ [Sends (available_metric 1)]
     end.

Lemma solo_Collect inv cH cD f v u :
  solo inv 0 (Collect cH cD) f v u = Collect_events inv cH cD u.
Proof.
  unfold Collect, Collect_events. cbn [solo answer]. do 2 f_equal.
  destruct (datacenters inv) as [dcs|]; [| reflexivity].
  cbn [solo]. f_equal. unfold for_each.
  generalize (@None Datacenter).
  induction dcs as [|dc dcs IH]; intros f'; cbn [foldr fold_right solo flat_map app];
    [reflexivity |].
  rewrite IH. reflexivity.
Qed.

(** ** The goroutines of a by-cluster poll *)

(** The three kinds of goroutine that a by-cluster poll starts. *)
Definition collector_kind (p : prog) : Prop :=
  (exists wg name cluster,
     p = ByCluster.collectHostMetricFromCluster wg name cluster) \/
  (exists wg name, p = ByCluster.collectHostMetrics wg name) \/
  (exists wg name, p = ByCluster.collectDatastoreMetrics wg name).

Lemma cluster_starts_only wg datacenterName cluster :
  starts_only collector_kind
    (ByCluster.collectHostMetricFromCluster wg datacenterName cluster).
Proof.
  apply starts_only_and_then; [| exact I]. cbn. intros [hosts|]; [| exact I].
  destruct hosts as [|h0 hosts]; [exact I |].
  cbn. intros r.
  apply starts_only_for_each; [| exact I]. intros h k Hk.
  apply starts_only_for_each; [| exact Hk]. intros metric k' Hk'.
  apply starts_only_send_sample, Hk'.
Qed.

Lemma hosts_starts_only wg datacenterName :
  starts_only collector_kind (ByCluster.collectHostMetrics wg datacenterName).
Proof.
  apply starts_only_and_then; [| exact I]. cbn.
  intros [clusters|]; [| exact I]. cbn. intros w.
  apply starts_only_for_each; [| exact I]. intros cluster k Hk.
  split; [left; eauto |]. split; [apply cluster_starts_only | exact Hk].
Qed.

Lemma datastores_starts_only wg datacenterName :
  starts_only collector_kind
    (ByCluster.collectDatastoreMetrics wg datacenterName).
Proof.
  apply starts_only_and_then; [| exact I]. cbn.
  intros [datastores|]; [| exact I].
  destruct datastores as [|d0 datastores]; [exact I |].
  cbn. intros [ds|]; [| exact I].
  apply starts_only_for_each; [| exact I]. intros d k Hk.
  apply starts_only_for_each; [| exact Hk]. intros metric k' Hk'.
  apply starts_only_send_sample, Hk'.
Qed.

Lemma Collect_starts_only : starts_only collector_kind ByCluster.Collect.
Proof.
  cbn. intros [dcs|]; [| exact I]. cbn. intros wg.
  unfold for_each.
  induction dcs as [|dc dcs IH]; cbn.
  - intros v. unfold send_const.
    destruct (MustNewConstMetric vcenterAvailableDesc v []); exact I.
  - split; [right; left; eauto |]. split; [apply hosts_starts_only |].
    split; [right; right; eauto |].
    split; [apply datastores_starts_only | exact IH].
Qed.

Section ByClusterEvents.
Variable inv : inventory.
Variable e : Exporter.
Variable schedule : list nat.

Let cH := ByCluster.collectHostMetrics.
Let cD := ByCluster.collectDatastoreMetrics.
Let st := run inv schedule (start e ByCluster.Collect).
Let tr := trace inv schedule (start e ByCluster.Collect).

Lemma poll_kinds : Forall collector_kind (started tr).
Proof.
  apply (trace_invariant inv (poll_state inv e) (kinds collector_kind)
           (poll_state_step inv e)) with (tr := []).
  - intros i s s' t _ Hq' Hk Hs.
    apply (kinds_step inv collector_kind i s s' t); try assumption.
    apply (poll_state_alive inv e s' Hq').
  - apply poll_state_start.
  - apply kinds_start, Collect_starts_only.
Qed.

(** Only [Collect] writes the flag. *)
Lemma poll_quiet i v : In (i, Writes v) tr -> i = 0%nat.
Proof.
  revert i v.
  apply (trace_invariant inv (poll_state inv e)
           (fun _ t => forall i v, In (i, Writes v) t -> i = 0%nat)
           (poll_state_step inv e)) with (tr := []).
  - intros i s s' t Hq _ Ht Hs j v Hin.
    apply in_app_or in Hin. destruct Hin as [Hin | Hin]; [eapply Ht, Hin |].
    unfold step_events in Hin.
    destruct (goroutines s !! i) as [g|] eqn:Hg; [| contradiction].
    apply in_map_iff in Hin. destruct Hin as (ev & [= <- ->] & Hin).
    destruct i as [|i]; [reflexivity |]. exfalso.
    destruct Hq as (_ & (_ & _ & _ & He) & _).
    apply (emits_head inv (justified inv) s (code g) v); [| exact Hin].
    apply (He (S i)); [lia | rewrite Hg; reflexivity].
  - apply poll_state_start.
  - intros i v [].
Qed.

(** What [Collect] has done is the beginning of what it does on its
    own. *)
Lemma poll_main_prefix :
  exists rest, events_of 0 tr ++ rest = Collect_events inv cH cD (e_up e).
Proof.
  destruct (poll_main_trace inv e schedule) as (c0 & _ & Heq).
  rewrite (solo_Collect inv cH cD) in Heq. eauto.
Qed.


(** A goroutine of a finished poll has done what its code does on its
    own, under a datacenter of the listing. *)
Lemma poll_goroutine_events j p0 :
  finished st = true -> started tr !! j = Some p0 ->
  exists f, In f (listed inv) /\
    events_of (S j) tr = solo inv (S j) p0 f 0 0.
Proof.
  intros Hf Hp0.
  assert (Hfin : In (finder st) (listed inv)).
  { apply (poll_state_alive inv e st).
    - apply poll_state_run, poll_state_start.
    - destruct (poll_adequate inv e schedule) as (Hlen & _).
      pose proof (lookup_lt_Some _ _ _ Hp0) as Hj. fold st tr in Hlen. lia. }
  destruct (poll_finished inv e schedule Hf) as [_ Hall].
  destruct (Hall j p0 Hp0) as [Hev | Hev]; [| exact Hev].
  exists (finder st). split; [exact Hfin | apply Hev].
Qed.

(** The goroutines of a finished poll, kind by kind. *)
Lemma poll_goroutine j p0 :
  finished st = true -> started tr !! j = Some p0 ->
  (exists wg name cluster,
     p0 = ByCluster.collectHostMetricFromCluster wg name cluster /\
     events_of (S j) tr = cluster_events inv name cluster) \/
  (exists wg name f,
     p0 = cH wg name /\ In f (listed inv) /\
     events_of (S j) tr = hosts_events inv (S j) name f) \/
  (exists wg name f,
     p0 = cD wg name /\ In f (listed inv) /\
     events_of (S j) tr = datastores_events inv name f).
Proof.
  intros Hf Hp0.
  assert (Hk : collector_kind p0).
  { pose proof poll_kinds as Hall. rewrite Forall_forall in Hall.
    apply Hall. eapply list_elem_of_lookup_2, Hp0. }
  destruct (poll_goroutine_events j p0 Hf Hp0) as (f & Hin & Hev).
  destruct Hk as [(wg & name & cluster & ->)
                 | [(wg & name & ->) | (wg & name & ->)]].
  - left. exists wg, name, cluster. split; [reflexivity |].
    rewrite Hev. apply solo_cluster.
  - right. left. exists wg, name, f. split; [reflexivity |].
    split; [exact Hin |]. rewrite Hev. apply solo_hosts_collector.
  - right. right. exists wg, name, f. split; [reflexivity |].
    split; [exact Hin |]. rewrite Hev. apply solo_datastores_collector.
Qed.



End ByClusterEvents.

(** ** Where the goroutines and the samples of a poll come from *)

Lemma lookup_In {A : Type} (l : list A) j x : l !! j = Some x -> In x l.
Proof. intros H. apply list_elem_of_In. eapply list_elem_of_lookup_2, H. Qed.


Lemma Starts_Collect_events inv cH cD u p :
  In (Starts p) (Collect_events inv cH cD u) ->
  exists dcs dc,
    datacenters inv = Ok dcs /\ In dc dcs /\
    (p = cH 0%nat (Name dc) \/ p = cD 0%nat (Name dc)).
Proof.
  unfold Collect_events. intros [H | [H | H]]; try discriminate.
  destruct (datacenters inv) as [dcs|];
    [| destruct H as [H | []]; discriminate].
  destruct H as [H | H]; [discriminate |].
  apply in_app_or in H. destruct H as [H | [H | []]]; [| discriminate].
  apply in_flat_map in H. destruct H as (dc & Hdc & [H | [H | []]]);
    injection H as <-; exists dcs, dc; auto.
Qed.


Lemma Starts_cluster_events inv name cluster p :
  ~ In (Starts p) (cluster_events inv name cluster).
Proof.
  unfold cluster_events. intros [H | H]; [discriminate |].
  destruct (hostsOf inv cluster) as [[|h0 hosts]|]; try contradiction.
  destruct H as [H | H]; [discriminate |].
  apply in_map_iff in H. destruct H as (m & H & _). discriminate.
Qed.

Lemma Starts_datastores_events inv name f p :
  ~ In (Starts p) (datastores_events inv name f).
Proof.
  unfold datastores_events. intros [H | H]; [discriminate |].
  destruct (datastoresOf inv f) as [[|d0 dss]|]; try contradiction.
  destruct H as [H | H]; [discriminate |].
  destruct (datastoreSummaries inv _); [| contradiction].
  apply in_map_iff in H. destruct H as (m & H & _). discriminate.
Qed.

Lemma Starts_hosts_events inv i name f p :
  In (Starts p) (hosts_events inv i name f) ->
  exists clusters cluster,
    clustersOf inv f = Ok clusters /\ In cluster clusters /\
    p = ByCluster.collectHostMetricFromCluster i name cluster.
Proof.
  unfold hosts_events. intros [H | H]; [discriminate |].
  destruct (clustersOf inv f) as [clusters|]; [| contradiction].
  apply in_map_iff in H. destruct H as (cluster & [= <-] & Hin).
  exists clusters, cluster. auto.
Qed.






Section ByClusterOrigin.
Variable inv : inventory.
Variable e : Exporter.
Variable schedule : list nat.
Variable dcs : list Datacenter.
Hypothesis listing : datacenters inv = Ok dcs.

Let cH := ByCluster.collectHostMetrics.
Let cD := ByCluster.collectDatastoreMetrics.
Let st := run inv schedule (start e ByCluster.Collect).
Let tr := trace inv schedule (start e ByCluster.Collect).
Hypothesis done : finished st = true.

Lemma started_origin p0 :
  In p0 (started tr) -> exists i, In (Starts p0) (events_of i tr).
Proof.
  intros H. apply In_starts, In_map_snd in H. destruct H as [i H].
  exists i. apply In_events_of, H.
Qed.

Lemma event_goroutine i ev :
  In ev (events_of (S i) tr) -> exists p, started tr !! i = Some p.
Proof.
  intros H. apply In_events_of in H.
  destruct (poll_adequate inv e schedule) as (Hlen & Htags & _).
  specialize (Htags _ _ H).
  apply lookup_lt_is_Some_2. unfold tr. lia.
Qed.

Lemma main_events :
  events_of 0 tr = Collect_events inv cH cD (e_up e).
Proof.
  destruct (poll_finished inv e schedule done) as [Hmain _].
  fold tr in Hmain. rewrite Hmain.
  change ByCluster.Collect with (Collect cH cD). apply solo_Collect.
Qed.

Lemma listed_dcs f : In f (listed inv) -> exists f0, f = Some f0 /\ In f0 dcs.
Proof.
  unfold listed. rewrite listing. intros H. apply in_map_iff in H.
  destruct H as (f0 & <- & H). eauto.
Qed.

(** The events of the collectors that [Collect] starts. *)
Lemma hosts_collector_events j dc :
  started tr !! j = Some (cH 0%nat (Name dc)) ->
  exists f, In f dcs /\
    events_of (S j) tr = hosts_events inv (S j) (Name dc) (Some f).
Proof.
  intros Hj.
  destruct (poll_goroutine_events inv e schedule j _ done Hj)
    as (f & Hin & Hev).
  destruct (listed_dcs f Hin) as (f0 & -> & Hf0).
  exists f0. split; [exact Hf0 |]. fold tr in Hev. rewrite Hev.
  apply solo_hosts_collector.
Qed.

Lemma datastores_collector_events j dc :
  started tr !! j = Some (cD 0%nat (Name dc)) ->
  exists f, In f dcs /\
    events_of (S j) tr = datastores_events inv (Name dc) (Some f).
Proof.
  intros Hj.
  destruct (poll_goroutine_events inv e schedule j _ done Hj)
    as (f & Hin & Hev).
  destruct (listed_dcs f Hin) as (f0 & -> & Hf0).
  exists f0. split; [exact Hf0 |]. fold tr in Hev. rewrite Hev.
  apply solo_datastores_collector.
Qed.

Lemma cluster_goroutine_events j wg name cluster :
  started tr !! j
  = Some (ByCluster.collectHostMetricFromCluster wg name cluster) ->
  events_of (S j) tr = cluster_events inv name cluster.
Proof.
  intros Hj.
  destruct (poll_goroutine_events inv e schedule j _ done Hj)
    as (f & _ & Hev).
  fold tr in Hev. rewrite Hev. apply solo_cluster.
Qed.

(** A goroutine of the poll is the host collector or the datastore
    collector that [Collect] started for a datacenter of the listing, or
    the goroutine that such a host collector started for a cluster that
    it listed. *)
Lemma poll_origin j p0 :
  started tr !! j = Some p0 ->
  (exists dc, In dc dcs /\ p0 = cH 0%nat (Name dc)) \/
  (exists dc, In dc dcs /\ p0 = cD 0%nat (Name dc)) \/
  (exists j' dc f clusters cluster,
     In dc dcs /\ In f dcs /\
     started tr !! j' = Some (cH 0%nat (Name dc)) /\
     clustersOf inv (Some f) = Ok clusters /\ In cluster clusters /\
     p0 = ByCluster.collectHostMetricFromCluster (S j') (Name dc) cluster).
Proof.
  intros Hj.
  assert (Hmain : forall p, In (Starts p) (events_of 0 tr) ->
            exists dc, In dc dcs /\
              (p = cH 0%nat (Name dc) \/ p = cD 0%nat (Name dc))).
  { intros p Hp. rewrite main_events in Hp.
    destruct (Starts_Collect_events _ _ _ _ _ Hp)
      as (dcs' & dc & Hd & Hdc & Hp').
    rewrite listing in Hd. injection Hd as <-. eauto. }
  destruct (started_origin p0 (lookup_In _ _ _ Hj)) as [[|i] Hi].
  - destruct (Hmain p0 Hi) as (dc & Hdc & [-> | ->]); eauto.
  - right. right.
    destruct (event_goroutine i _ Hi) as [p' Hp'].
    destruct (started_origin p' (lookup_In _ _ _ Hp')) as [[|i'] Hi'].
    + destruct (Hmain p' Hi') as (dc & Hdc & [-> | ->]).
      * destruct (hosts_collector_events i dc Hp') as (f & Hf & Hev).
        rewrite Hev in Hi.
        destruct (Starts_hosts_events _ _ _ _ _ Hi)
          as (clusters & cluster & Hc & Hcl & ->).
        exists i, dc, f, clusters, cluster. auto 10.
      * destruct (datastores_collector_events i dc Hp') as (f & _ & Hev).
        rewrite Hev in Hi. exfalso.
        exact (Starts_datastores_events _ _ _ _ Hi).
    + exfalso.
      destruct (event_goroutine i' _ Hi') as [p'' Hp''].
      destruct (poll_goroutine inv e schedule i' p'' done Hp'')
        as [(wg & name & cluster & -> & Hev)
           | [(wg & name & f & -> & Hin & Hev)
             | (wg & name & f & -> & Hin & Hev)]];
        fold tr in Hev; rewrite Hev in Hi'.
      * exact (Starts_cluster_events _ _ _ _ Hi').
      * destruct (Starts_hosts_events _ _ _ _ _ Hi')
          as (clusters & cluster & _ & _ & ->).
        rewrite (cluster_goroutine_events i _ _ _ Hp') in Hi.
        exact (Starts_cluster_events _ _ _ _ Hi).
      * exact (Starts_datastores_events _ _ _ _ Hi').
Qed.

End ByClusterOrigin.



(** * The properties of the specification *)

Lemma asks_map_Sends (l : list Metric) : asks (map Sends l) = [].
Proof. induction l as [|m l IH]; [reflexivity | exact IH]. Qed.

Lemma writes_map_Sends (l : list Metric) : writes (map Sends l) = [].
Proof. induction l as [|m l IH]; [reflexivity | exact IH]. Qed.

Lemma sends_map_Sends (l : list Metric) : sends (map Sends l) = l.
Proof.
  induction l as [|m l IH]; [reflexivity |].
  change (sends (map Sends (m :: l))) with (m :: sends (map Sends l)).
  rewrite IH. reflexivity.
Qed.


Lemma writes_map_Starts {A : Type} (child : A -> prog) (l : list A) :
  writes (map (fun x => Starts (child x)) l) = [].
Proof. induction l as [|x l IH]; [reflexivity | exact IH]. Qed.

(** C1, on the code: when the datacenter listing fails, [Collect] has
    already sent the up gauge, lowers the flag and returns; the poll ends
    with the up gauge as its only sample and the availability metric is
    never sent. *)
Theorem listing_failure_sends_up_only (inv : inventory) (e : Exporter)
    (schedule : list nat) :
  datacenters inv = Failed ->
  let st := run inv schedule (start e ByCluster.Collect) in
  (exists more,
     finished (run inv (schedule ++ more) (start e ByCluster.Collect)) = true)
  /\ (chan st = [] \/ chan st = [up_metric e])
  /\ (finished st = true ->
      chan st = [up_metric e] /\ vcenterAvailable st = 0).
Proof.
  intros Hd st.
  split; [apply (poll_completes inv e schedule) |].
  apply (poll_listing_failed inv e schedule Hd).
Qed.

Lemma listing_failure_sends_up_only_witness :
  let st := run Sample.down [0; 0; 0; 0; 0]%nat
              (start NewExporter ByCluster.Collect) in
  (exists more,
     finished (run Sample.down ([0; 0; 0; 0; 0]%nat ++ more)
                 (start NewExporter ByCluster.Collect)) = true)
  /\ (chan st = [] \/ chan st = [up_metric NewExporter])
  /\ (finished st = true ->
      chan st = [up_metric NewExporter] /\ vcenterAvailable st = 0).
Proof.
  apply (listing_failure_sends_up_only Sample.down NewExporter
           [0; 0; 0; 0; 0]%nat).
  reflexivity.
Defined.





Definition one_host_schedule : list nat :=
  repeat 0%nat 10 ++ repeat 1%nat 10 ++ repeat 2%nat 10
  ++ repeat 3%nat 20 ++ repeat 1%nat 10 ++ repeat 0%nat 10.




















(** A schedule that runs the poll of the two-host inventory to its
    end. *)
Definition two_hosts_schedule : list nat :=
  repeat 0%nat 12 ++ repeat 1%nat 8 ++ repeat 2%nat 8 ++ repeat 3%nat 40
  ++ repeat 1%nat 4 ++ repeat 0%nat 4.


(** The poll of a cluster with two hosts: one retrieval, for both. *)
Example two_hosts_poll :
  let st := run Sample.two_hosts two_hosts_schedule
              (start NewExporter ByCluster.Collect) in
  let tr := trace Sample.two_hosts two_hosts_schedule
              (start NewExporter ByCluster.Collect) in
  finished st = true /\
  retrievals (map snd tr)
  = [ existT _ (RetrieveHostSystems
                  (map Reference [Sample.esx1; Sample.esx2])) ] /\
  length (chan st) = 16%nat.
Proof. vm_compute. repeat split. Qed.





(** A schedule that runs the poll of the datacenter without clusters to
    its end. *)
Definition empty_dc_schedule : list nat :=
  repeat 0%nat 12 ++ [1; 1; 1; 1; 1; 2; 2; 2; 0; 0; 0]%nat.


(** The scenario of the specification: no cluster in the datacenter. *)
Example empty_datacenter_poll :
  let st := run Sample.empty_dc empty_dc_schedule
              (start NewExporter ByCluster.Collect) in
  finished st = true /\
  chan st = [up_metric NewExporter; available_metric 1].
Proof. vm_compute. split; reflexivity. Qed.

(** The finder is one value shared by the collectors of every datacenter:
    when [Collect] has gone through its loop before the collectors list
    their clusters, the collector of a datacenter without clusters lists
    those of the last datacenter and labels their hosts with its own
    name. *)
Example finder_is_shared :
  let st := run Sample.two_dcs
              (repeat 0%nat 12 ++ repeat 1%nat 8 ++ repeat 5%nat 12
               ++ repeat 1%nat 4)
              (start NewExporter ByCluster.Collect) in
  clustersOf Sample.two_dcs (Some Sample.dc1) = Ok [] /\
  chan st = up_metric NewExporter
            :: host_samples ByCluster.hostLabelNames ["dc1"; "cluster1"]
                 Sample.host1.
Proof. vm_compute. split; reflexivity. Qed.

(** The exporter between polls: fresh, or left by a finished poll. *)
Inductive polled : Exporter -> Prop :=
| polled_new : polled NewExporter
| polled_next e inv schedule :
    polled e ->
    finished (run inv schedule (start e ByCluster.Collect)) = true ->
    polled (exporter_of (run inv schedule (start e ByCluster.Collect))).

Lemma polled_up e : polled e -> e_up e = 0.
Proof.
  induction 1 as [| e inv schedule _ IH Hf]; [reflexivity |].
  cbn. rewrite <- IH. apply (poll_up inv e schedule).
Qed.

(** C10: the up gauge is the first sample of every poll and nothing ever
    sets it: poll after poll its value is the 0 of a fresh gauge, whether
    the scrape succeeds or not. *)
Theorem up_gauge_constant (e : Exporter) (inv : inventory)
    (schedule : list nat) :
  polled e ->
  let st := run inv schedule (start e ByCluster.Collect) in
  e_up e = 0 /\ up st = 0 /\
  (chan st = [] \/
   exists rest,
     chan st = {| desc := upDesc; value := 0; labelValues := [] |} :: rest) /\
  (finished st = true ->
   exists rest,
     chan st = {| desc := upDesc; value := 0; labelValues := [] |} :: rest).
Proof.
  intros Hp st. pose proof (polled_up e Hp) as Hup.
  destruct (poll_up inv e schedule) as (Hu & Hch & Hfin).
  unfold up_metric in *. rewrite Hup in *.
  repeat split; assumption.
Qed.

Lemma up_gauge_constant_witness :
  let e := exporter_of (run Sample.one_host one_host_schedule
                          (start NewExporter ByCluster.Collect)) in
  let st := run Sample.down [0; 0; 0; 0; 0]%nat (start e ByCluster.Collect) in
  e_up e = 0 /\ up st = 0 /\
  (chan st = [] \/
   exists rest,
     chan st = {| desc := upDesc; value := 0; labelValues := [] |} :: rest) /\
  (finished st = true ->
   exists rest,
     chan st = {| desc := upDesc; value := 0; labelValues := [] |} :: rest).
Proof.
  apply (up_gauge_constant
           (exporter_of (run Sample.one_host one_host_schedule
                           (start NewExporter ByCluster.Collect)))
           Sample.down [0; 0; 0; 0; 0]%nat).
  apply (polled_next NewExporter Sample.one_host one_host_schedule).
  - apply polled_new.
  - vm_compute. reflexivity.
Defined.

(** * Further properties of the code *)

(** ** The readings of the getters *)

Lemma wrap64_small z : - 2 ^ 63 <= z < 2 ^ 63 -> wrap64 z = z.
Proof.
  intros H. unfold wrap64. rewrite Z.mod_small by lia. lia.
Qed.

Lemma float64_of_int_small z : Z.abs z < 2 ^ 53 -> float64_of_int z = z.
Proof.
  intros H. unfold float64_of_int.
  destruct (Z.ltb_spec (Z.abs z) (2 ^ 53)); [reflexivity | lia].
Qed.

(** The rounding of a magnitude: the quotient by [2^e], one more when the
    remainder is above the half, or at the half and the quotient odd. *)
Definition round_quotient (a e : Z) : Z :=
  let q := Z.shiftr a e in
  let r := Z.land a (Z.ones e) in
  let half := Z.shiftl 1 (e - 1) in
  if r <? half then q
  else if half <? r then q + 1
  else if Z.even q then q else q + 1.

Lemma float64_of_int_large z :
  2 ^ 53 <= Z.abs z ->
  float64_of_int z
  = Z.sgn z * Z.shiftl (round_quotient (Z.abs z) (Z.log2 (Z.abs z) - 52))
                (Z.log2 (Z.abs z) - 52).
Proof.
  intros H. unfold float64_of_int, round_quotient.
  destruct (Z.ltb_spec (Z.abs z) (2 ^ 53)); [lia | reflexivity].
Qed.

Lemma round_quotient_error a e :
  0 <= a -> 1 <= e ->
  Z.abs (round_quotient a e * 2 ^ e - a) <= 2 ^ (e - 1).
Proof.
  intros Ha He. unfold round_quotient.
  rewrite Z.shiftr_div_pow2, Z.land_ones, Z.shiftl_mul_pow2 by lia.
  rewrite Z.mul_1_l.
  assert (Hp : 2 ^ e = 2 * 2 ^ (e - 1)).
  { replace e with (Z.succ (e - 1)) at 1 by lia.
    rewrite Z.pow_succ_r by lia. reflexivity. }
  assert (Hpos : 0 < 2 ^ (e - 1)) by (apply Z.pow_pos_nonneg; lia).
  pose proof (Z.div_mod a (2 ^ e) ltac:(lia)) as Hdm.
  pose proof (Z.mod_pos_bound a (2 ^ e) ltac:(lia)) as Hr.
  destruct (Z.ltb_spec (a mod 2 ^ e) (2 ^ (e - 1)));
    [| destruct (Z.ltb_spec (2 ^ (e - 1)) (a mod 2 ^ e));
       [| destruct (Z.even (a / 2 ^ e))]]; nia.
Qed.

Lemma log2_int64 a : 2 ^ 53 <= a < 2 ^ 63 -> 1 <= Z.log2 a - 52 <= 10.
Proof.
  intros [Hl Hu].
  assert (53 <= Z.log2 a) by (apply Z.log2_le_pow2; lia).
  assert (Z.log2 a < 63) by (apply Z.log2_lt_pow2; lia).
  lia.
Qed.

(** The conversion of an int64 to float64: exact below [2^53], and never
    further than 512 from the integer. *)
Lemma float64_of_int_error z :
  - 2 ^ 63 <= z < 2 ^ 63 -> Z.abs (float64_of_int z - z) <= 512.
Proof.
  intros Hz.
  destruct (Z.lt_ge_cases (Z.abs z) (2 ^ 53)) as [Hs | Hl].
  - rewrite float64_of_int_small by exact Hs. rewrite Z.sub_diag. cbn. lia.
  - destruct (Z.eq_dec z (- 2 ^ 63)) as [-> | Hne]; [vm_compute; discriminate |].
    rewrite float64_of_int_large by exact Hl.
    set (a := Z.abs z) in *. set (e := Z.log2 a - 52).
    assert (He : 1 <= e <= 10) by (apply log2_int64; lia).
    rewrite Z.shiftl_mul_pow2 by lia.
    pose proof (round_quotient_error a e ltac:(lia) ltac:(lia)) as Herr.
    assert (Hpow : 2 ^ (e - 1) <= 2 ^ 9) by (apply Z.pow_le_mono_r; lia).
    change (2 ^ 9) with 512 in Hpow.
    assert (Hz' : z = Z.sgn z * a)
      by (unfold a; rewrite Z.mul_comm; symmetry; apply Z.abs_sgn).
    rewrite Hz' at 2. rewrite <- Z.mul_sub_distr_l, Z.abs_mul.
    assert (Z.abs (Z.sgn z) = 1) by (destruct z; cbn in *; lia).
    lia.
Qed.

(** The magnitude after rounding. *)
Definition rounded (a : Z) : Z :=
  if a <? 2 ^ 53 then a
  else round_quotient a (Z.log2 a - 52) * 2 ^ (Z.log2 a - 52).

Lemma float64_of_int_rounded z :
  float64_of_int z = Z.sgn z * rounded (Z.abs z).
Proof.
  unfold rounded.
  destruct (Z.ltb_spec (Z.abs z) (2 ^ 53)) as [Hs | Hl].
  - rewrite float64_of_int_small by exact Hs.
    rewrite Z.mul_comm. symmetry. apply Z.abs_sgn.
  - rewrite float64_of_int_large by exact Hl.
    rewrite Z.shiftl_mul_pow2; [reflexivity |].
    assert (53 <= Z.log2 (Z.abs z)) by (apply Z.log2_le_pow2; lia). lia.
Qed.

Lemma quotient_bounds a :
  2 ^ 53 <= a ->
  let e := Z.log2 a - 52 in
  1 <= e /\ 2 ^ 52 * 2 ^ e <= a < 2 ^ 53 * 2 ^ e.
Proof.
  intros Ha e.
  assert (H53 : 53 <= Z.log2 a) by (apply Z.log2_le_pow2; lia).
  split; [unfold e; lia |].
  destruct (Z.log2_spec a ltac:(lia)) as [Hl Hu].
  rewrite <- !Z.pow_add_r by (unfold e; lia).
  replace (52 + e) with (Z.log2 a) by (unfold e; lia).
  replace (53 + e) with (Z.succ (Z.log2 a)) by (unfold e; lia).
  split; assumption.
Qed.

Lemma round_quotient_bounds a e :
  0 <= a -> 1 <= e ->
  a / 2 ^ e <= round_quotient a e <= a / 2 ^ e + 1.
Proof.
  intros Ha He. unfold round_quotient.
  rewrite Z.shiftr_div_pow2 by lia.
  destruct (_ <? _); [lia |].
  destruct (_ <? _); [lia |].
  destruct (Z.even _); lia.
Qed.

Lemma round_quotient_mono a b e :
  0 <= a <= b -> 1 <= e -> round_quotient a e <= round_quotient b e.
Proof.
  intros Hab He.
  assert (Hpos : 0 < 2 ^ e) by (apply Z.pow_pos_nonneg; lia).
  assert (Hq : a / 2 ^ e <= b / 2 ^ e) by (apply Z.div_le_mono; lia).
  destruct (Z.eq_dec (a / 2 ^ e) (b / 2 ^ e)) as [Heq | Hne].
  - unfold round_quotient.
    rewrite !Z.shiftr_div_pow2, !Z.land_ones, Z.shiftl_mul_pow2 by lia.
    rewrite Z.mul_1_l, <- Heq.
    pose proof (Z.div_mod a (2 ^ e) ltac:(lia)) as Ha.
    pose proof (Z.div_mod b (2 ^ e) ltac:(lia)) as Hb.
    assert (Hr : a mod 2 ^ e <= b mod 2 ^ e) by nia.
    destruct (Z.ltb_spec (a mod 2 ^ e) (2 ^ (e - 1)));
      destruct (Z.ltb_spec (b mod 2 ^ e) (2 ^ (e - 1)));
      destruct (Z.ltb_spec (2 ^ (e - 1)) (a mod 2 ^ e));
      destruct (Z.ltb_spec (2 ^ (e - 1)) (b mod 2 ^ e));
      destruct (Z.even (a / 2 ^ e)); lia.
  - pose proof (round_quotient_bounds a e ltac:(lia) He).
    pose proof (round_quotient_bounds b e ltac:(lia) He).
    lia.
Qed.

Lemma rounded_mono a b : 0 <= a <= b -> rounded a <= rounded b.
Proof.
  intros Hab. unfold rounded.
  destruct (Z.ltb_spec a (2 ^ 53)) as [Ha | Ha];
    destruct (Z.ltb_spec b (2 ^ 53)) as [Hb | Hb]; try lia.
  - (* [a] is exact, [b] is rounded *)
    destruct (quotient_bounds b Hb) as [He Hq].
    set (e := Z.log2 b - 52) in *.
    assert (Hpos : 0 < 2 ^ e) by (apply Z.pow_pos_nonneg; lia).
    pose proof (round_quotient_bounds b e ltac:(lia) He) as [Hlo _].
    assert (2 ^ 52 <= b / 2 ^ e) by (apply Z.div_le_lower_bound; lia).
    assert (2 <= 2 ^ e)
      by (change 2 with (2 ^ 1) at 1; apply Z.pow_le_mono_r; lia).
    nia.
  - destruct (quotient_bounds a Ha) as [Hea Hqa].
    destruct (quotient_bounds b Hb) as [Heb Hqb].
    assert (Hlog : Z.log2 a <= Z.log2 b) by (apply Z.log2_le_mono; lia).
    set (ea := Z.log2 a - 52) in *. set (eb := Z.log2 b - 52) in *.
    assert (Hpa : 0 < 2 ^ ea) by (apply Z.pow_pos_nonneg; lia).
    assert (Hpb : 0 < 2 ^ eb) by (apply Z.pow_pos_nonneg; lia).
    destruct (Z.eq_dec ea eb) as [Heq | Hne].
    + rewrite <- Heq. apply Z.mul_le_mono_nonneg_r; [lia |].
      apply round_quotient_mono; lia.
    + pose proof (round_quotient_bounds a ea ltac:(lia) Hea) as [_ Hhi].
      pose proof (round_quotient_bounds b eb ltac:(lia) Heb) as [Hlo _].
      assert (Hqa' : a / 2 ^ ea < 2 ^ 53)
        by (apply Z.div_lt_upper_bound; lia).
      assert (Hqb' : 2 ^ 52 <= b / 2 ^ eb)
        by (apply Z.div_le_lower_bound; lia).
      assert (Hstep : 2 * 2 ^ ea <= 2 ^ eb).
      { replace (2 * 2 ^ ea) with (2 ^ (Z.succ ea))
          by (rewrite Z.pow_succ_r by lia; reflexivity).
        apply Z.pow_le_mono_r; unfold ea, eb in *; lia. }
      transitivity (2 ^ 53 * 2 ^ ea); [nia |].
      transitivity (2 ^ 52 * 2 ^ eb); [lia | nia].
Qed.

Lemma rounded_nonneg a : 0 <= a -> 0 <= rounded a.
Proof.
  intros Ha. pose proof (rounded_mono 0 a ltac:(lia)) as H.
  exact H.
Qed.

(** The conversion keeps the order. *)
Lemma float64_of_int_mono x y :
  x <= y -> float64_of_int x <= float64_of_int y.
Proof.
  intros Hxy. rewrite !float64_of_int_rounded.
  destruct (Z.lt_trichotomy x 0) as [Hx | [-> | Hx]];
    destruct (Z.lt_trichotomy y 0) as [Hy | [-> | Hy]]; try lia.
  - rewrite !Z.sgn_neg by lia.
    pose proof (rounded_mono (Z.abs y) (Z.abs x) ltac:(lia)). lia.
  - rewrite Z.sgn_neg, Z.sgn_0 by lia.
    pose proof (rounded_nonneg (Z.abs x) ltac:(lia)). lia.
  - rewrite Z.sgn_neg, Z.sgn_pos by lia.
    pose proof (rounded_nonneg (Z.abs x) ltac:(lia)).
    pose proof (rounded_nonneg (Z.abs y) ltac:(lia)). lia.
  - rewrite Z.sgn_0, Z.sgn_pos by lia.
    pose proof (rounded_nonneg (Z.abs y) ltac:(lia)). lia.
  - rewrite !Z.sgn_pos by lia.
    pose proof (rounded_mono (Z.abs x) (Z.abs y) ltac:(lia)). lia.
Qed.

(** [registry[key](s)]: the call of a registered getter; under a missing
    key the map yields the nil function, whose call panics ([None]). *)
Definition call_getter {S V : Type} (registry : list (string * (S -> V)))
    (key : string) (s : S) : option V :=
  match registry_get registry key with
  | Some g => Some (g s)
  | None => None
  end.

(** X1: the readings that the host getters compute from 32-bit and 16-bit
    fields are exact.  Whatever the memory usage (MiB, int32), the CPU
    clock (MHz, int32), the number of cores (int16) and the CPU usage
    (MHz, int32) of a host, [getMemoryUsage] is the usage times 1048576,
    [getCPUTotal] the clock times the cores and [getCpuUsage] the usage:
    the int64 products do not wrap around and the conversion to float64
    does not round. *)
Theorem derived_readings_exact (h : HostSystem) :
  - 2 ^ 31 <= OverallMemoryUsage (QuickStats (HostSummary h)) < 2 ^ 31 ->
  - 2 ^ 31 <= OverallCpuUsage (QuickStats (HostSummary h)) < 2 ^ 31 ->
  - 2 ^ 31 <= CpuMhz (Hardware (HostSummary h)) < 2 ^ 31 ->
  - 2 ^ 15 <= NumCpuCores (Hardware (HostSummary h)) < 2 ^ 15 ->
  call_getter hostMetricGetterFuncRegistry "getMemoryUsage" h
  = Some (OverallMemoryUsage (QuickStats (HostSummary h)) * 1048576) /\
  call_getter hostMetricGetterFuncRegistry "getCPUTotal" h
  = Some (CpuMhz (Hardware (HostSummary h))
          * NumCpuCores (Hardware (HostSummary h))) /\
  call_getter hostMetricGetterFuncRegistry "getCpuUsage" h
  = Some (OverallCpuUsage (QuickStats (HostSummary h))).
Proof.
  intros Hmem Hcpu Hmhz Hcores.
  unfold call_getter. cbn [registry_get hostMetricGetterFuncRegistry String.eqb Ascii.eqb Bool.eqb].
  set (u := OverallMemoryUsage _) in *. set (c := OverallCpuUsage _) in *.
  set (m := CpuMhz _) in *. set (n := NumCpuCores _) in *.
  split; [| split]; f_equal.
  - rewrite (wrap64_small (u * 1024)) by lia.
    rewrite wrap64_small by lia.
    rewrite float64_of_int_small by lia. lia.
  - rewrite wrap64_small by nia.
    apply float64_of_int_small. nia.
  - apply float64_of_int_small. lia.
Qed.

Lemma derived_readings_exact_witness :
  call_getter hostMetricGetterFuncRegistry "getMemoryUsage" Sample.host1
  = Some (2048 * 1048576) /\
  call_getter hostMetricGetterFuncRegistry "getCPUTotal" Sample.host1
  = Some (2600 * 8) /\
  call_getter hostMetricGetterFuncRegistry "getCpuUsage" Sample.host1
  = Some 1200.
Proof.
  apply (derived_readings_exact Sample.host1); cbn; lia.
Defined.

(** X2: the byte counts that are read from 64-bit fields are reported
    with the precision of a float64.  For every int64 memory size,
    capacity and free space the reading of [getMemorySize], [getCapacity]
    and [getFreeSpace] is at most 512 away from the field, and it is the
    field itself below [2^53] bytes. *)
Theorem byte_counts_rounding (h : HostSystem) (d : Datastore) :
  - 2 ^ 63 <= MemorySize (Hardware (HostSummary h)) < 2 ^ 63 ->
  - 2 ^ 63 <= Capacity (DatastoreSummary d) < 2 ^ 63 ->
  - 2 ^ 63 <= FreeSpace (DatastoreSummary d) < 2 ^ 63 ->
  (exists v, call_getter hostMetricGetterFuncRegistry "getMemorySize" h
             = Some v /\
     Z.abs (v - MemorySize (Hardware (HostSummary h))) <= 512 /\
     (Z.abs (MemorySize (Hardware (HostSummary h))) < 2 ^ 53 ->
      v = MemorySize (Hardware (HostSummary h)))) /\
  (exists v, call_getter datastoreMetricGetterFuncRegistry "getCapacity" d
             = Some v /\
     Z.abs (v - Capacity (DatastoreSummary d)) <= 512 /\
     (Z.abs (Capacity (DatastoreSummary d)) < 2 ^ 53 ->
      v = Capacity (DatastoreSummary d))) /\
  (exists v, call_getter datastoreMetricGetterFuncRegistry "getFreeSpace" d
             = Some v /\
     Z.abs (v - FreeSpace (DatastoreSummary d)) <= 512 /\
     (Z.abs (FreeSpace (DatastoreSummary d)) < 2 ^ 53 ->
      v = FreeSpace (DatastoreSummary d))).
Proof.
  intros Hm Hc Hf.
  split; [| split]; eexists; (split; [reflexivity |]);
    (split; [apply float64_of_int_error; assumption
            | apply float64_of_int_small]).
Qed.

(** A datastore of more than [2^53] bytes. *)
Definition large_datastore : Datastore :=
  {| DatastoreSummary :=
       {| DsName := "large"; Capacity := 2 ^ 60 + 1;
          FreeSpace := 2 ^ 53 + 3; Accessible := true |} |}.

Lemma byte_counts_rounding_witness :
  (exists v, call_getter hostMetricGetterFuncRegistry "getMemorySize"
               Sample.host1 = Some v /\
     Z.abs (v - 17179869184) <= 512 /\
     (Z.abs 17179869184 < 2 ^ 53 -> v = 17179869184)) /\
  (exists v, call_getter datastoreMetricGetterFuncRegistry "getCapacity"
               large_datastore = Some v /\
     Z.abs (v - (2 ^ 60 + 1)) <= 512 /\
     (Z.abs (2 ^ 60 + 1) < 2 ^ 53 -> v = 2 ^ 60 + 1)) /\
  (exists v, call_getter datastoreMetricGetterFuncRegistry "getFreeSpace"
               large_datastore = Some v /\
     Z.abs (v - (2 ^ 53 + 3)) <= 512 /\
     (Z.abs (2 ^ 53 + 3) < 2 ^ 53 -> v = 2 ^ 53 + 3)).
Proof.
  apply (byte_counts_rounding Sample.host1 large_datastore); cbn; lia.
Defined.

(** The readings of the large datastore are rounded. *)
Example large_datastore_readings :
  call_getter datastoreMetricGetterFuncRegistry "getCapacity" large_datastore
  = Some (2 ^ 60) /\
  call_getter datastoreMetricGetterFuncRegistry "getFreeSpace" large_datastore
  = Some (2 ^ 53 + 4).
Proof. vm_compute. split; reflexivity. Qed.

(** X3: the conversion to float64 keeps the order of the byte counts: a
    datastore whose free space is at most its capacity is reported with
    a free space at most its capacity, whatever the rounding, and of two
    datastores the larger one is not reported the smaller. *)
Theorem byte_counts_ordered (d d' : Datastore) :
  FreeSpace (DatastoreSummary d) <= Capacity (DatastoreSummary d) ->
  Capacity (DatastoreSummary d) <= Capacity (DatastoreSummary d') ->
  exists free capacity capacity',
    call_getter datastoreMetricGetterFuncRegistry "getFreeSpace" d
    = Some free /\
    call_getter datastoreMetricGetterFuncRegistry "getCapacity" d
    = Some capacity /\
    call_getter datastoreMetricGetterFuncRegistry "getCapacity" d'
    = Some capacity' /\
    free <= capacity <= capacity'.
Proof.
  intros Hfree Hcap. do 3 eexists.
  split; [reflexivity |]. split; [reflexivity |]. split; [reflexivity |].
  split; apply float64_of_int_mono; assumption.
Qed.

Lemma byte_counts_ordered_witness :
  exists free capacity capacity',
    call_getter datastoreMetricGetterFuncRegistry "getFreeSpace"
      Sample.datastore1 = Some free /\
    call_getter datastoreMetricGetterFuncRegistry "getCapacity"
      Sample.datastore1 = Some capacity /\
    call_getter datastoreMetricGetterFuncRegistry "getCapacity"
      large_datastore = Some capacity' /\
    free <= capacity <= capacity'.
Proof.
  apply (byte_counts_ordered Sample.datastore1 large_datastore); cbn; lia.
Defined.

(** ** The goroutines of a poll *)



Lemma sublist_tail {A : Type} (x : A) (l k : list A) :
  sublist (x :: l) k -> sublist l k.
Proof. intros H. eapply sublist_cons_l in H. destruct H as (k1 & k2 & -> & H).
  apply sublist_inserts_l, sublist_cons, H. Qed.

Lemma starts_collectors_of (cH cD : nat -> string -> prog)
    (dcs : list Datacenter) :
  starts (flat_map (fun dc => [Starts (cH 0%nat (Name dc));
                               Starts (cD 0%nat (Name dc))]) dcs)
  = flat_map (fun dc => [cH 0%nat (Name dc); cD 0%nat (Name dc)]) dcs.
Proof.
  unfold starts. induction dcs as [|dc dcs IH]; [reflexivity |].
  cbn [flat_map app]. rewrite IH. reflexivity.
Qed.

Lemma starts_Collect_events inv cH cD u dcs :
  datacenters inv = Ok dcs ->
  starts (Collect_events inv cH cD u)
  = flat_map (fun dc => [cH 0%nat (Name dc); cD 0%nat (Name dc)]) dcs.
Proof.
  intros Hd. unfold Collect_events. rewrite Hd.
  change (starts (?a :: ?b :: ?c :: ?l)) with (starts l).
  unfold starts at 1. rewrite flat_map_app. fold (starts).
  change (flat_map _ (flat_map ?g dcs)) with (starts (flat_map g dcs)).
  rewrite starts_collectors_of. cbn [flat_map app]. apply app_nil_r.
Qed.

(** X5: the goroutines of a poll.  When a by-cluster poll whose
    datacenter listing succeeded is finished, [Collect] has started a
    host collector and a datastore collector for every datacenter of the
    listing, in its order and under the name of the datacenter, and
    nothing else; the pool holds [Collect] and the goroutines started;
    and each of them is one of these collectors or the goroutine that a
    host collector started for a cluster that it listed under a
    datacenter of the listing. *)
Theorem collect_fan_out (inv : inventory) (e : Exporter)
    (schedule : list nat) (dcs : list Datacenter) :
  datacenters inv = Ok dcs ->
  finished (run inv schedule (start e ByCluster.Collect)) = true ->
  let st := run inv schedule (start e ByCluster.Collect) in
  let tr := trace inv schedule (start e ByCluster.Collect) in
  starts (events_of 0 tr)
  = flat_map (fun dc => [ByCluster.collectHostMetrics 0 (Name dc);
                         ByCluster.collectDatastoreMetrics 0 (Name dc)]) dcs
  /\ length (goroutines st) = S (length (started tr))
  /\ forall j p0,
       started tr !! j = Some p0 ->
       (exists dc, In dc dcs /\
          p0 = ByCluster.collectHostMetrics 0 (Name dc)) \/
       (exists dc, In dc dcs /\
          p0 = ByCluster.collectDatastoreMetrics 0 (Name dc)) \/
       (exists j' dc f clusters cluster,
          In dc dcs /\ In f dcs /\
          started tr !! j' = Some (ByCluster.collectHostMetrics 0 (Name dc))
          /\ clustersOf inv (Some f) = Ok clusters /\ In cluster clusters /\
          p0 = ByCluster.collectHostMetricFromCluster (S j') (Name dc)
                 cluster).
Proof.
  intros Hd Hf st tr. split; [| split].
  - unfold tr. rewrite (main_events inv e schedule Hf).
    apply starts_Collect_events, Hd.
  - destruct (poll_adequate inv e schedule) as (Hlen & _).
    symmetry. exact Hlen.
  - intros j p0 Hj. exact (poll_origin inv e schedule dcs Hd Hf j p0 Hj).
Qed.

Lemma collect_fan_out_witness :
  let st := run Sample.two_hosts two_hosts_schedule
              (start NewExporter ByCluster.Collect) in
  let tr := trace Sample.two_hosts two_hosts_schedule
              (start NewExporter ByCluster.Collect) in
  starts (events_of 0 tr)
  = flat_map (fun dc => [ByCluster.collectHostMetrics 0 (Name dc);
                         ByCluster.collectDatastoreMetrics 0 (Name dc)])
      [Sample.dc1]
  /\ length (goroutines st) = S (length (started tr))
  /\ forall j p0,
       started tr !! j = Some p0 ->
       (exists dc, In dc [Sample.dc1] /\
          p0 = ByCluster.collectHostMetrics 0 (Name dc)) \/
       (exists dc, In dc [Sample.dc1] /\
          p0 = ByCluster.collectDatastoreMetrics 0 (Name dc)) \/
       (exists j' dc f clusters cluster,
          In dc [Sample.dc1] /\ In f [Sample.dc1] /\
          started tr !! j' = Some (ByCluster.collectHostMetrics 0 (Name dc))
          /\ clustersOf Sample.two_hosts (Some f) = Ok clusters /\
          In cluster clusters /\
          p0 = ByCluster.collectHostMetricFromCluster (S j') (Name dc)
                 cluster).
Proof.
  apply (collect_fan_out Sample.two_hosts NewExporter two_hosts_schedule
           [Sample.dc1]).
  - reflexivity.
  - vm_compute. reflexivity.
Defined.



(** ** The exporter with one request per host *)



Section PerHostDiscipline.
Variable inv : inventory.
Variable fs : list (option Datacenter).




End PerHostDiscipline.




(** ** The collectors on their own, again *)

(** What a consumer sees of a sample: the name of the metric, its value
    and the values of its labels. *)
Definition exposition (m : Metric) : string * option float64 * list string :=
  (fqName (desc m), Some (value m), labelValues m).

Lemma Panics_map_Sends (l : list Metric) : ~ In Panics (map Sends l).
Proof.
  intros H. apply in_map_iff in H. destruct H as (m & H & _). discriminate.
Qed.

(** X8: the whole-inventory collectors on their own.  When the view
    retrieval fails the host collector of host.go and the datastore
    collector of datastore.go send no sample; when it succeeds they send,
    for each object in the order of the answer, one sample per metric of
    the table in the order of the table, carrying the reading of the
    getter registered for it and one label value, the configured name of
    the host or the name of the datastore.  Neither can panic: no getter
    of the tables is nil and the label count fits. *)
Theorem whole_inventory_samples (inv : inventory) (i wg : nat)
    (f : option Datacenter) (v u : float64) :
  sends (solo inv i (Flat.collectHostMetrics wg) f v u)
  = match hostView inv with
    | Failed => []
    | Ok hs => flat_map (host_samples Flat.hostLabelNames []) hs
    end /\
  sends (solo inv i (Flat.collectDatastoreMetrics wg) f v u)
  = match datastoreView inv with
    | Failed => []
    | Ok ds => flat_map (datastore_samples Flat.datastoreLabelNames []) ds
    end /\
  (forall h,
     map exposition (host_samples Flat.hostLabelNames [] h)
     = let name := [ConfigName (Config (HostSummary h))] in
       let reading := fun key =>
         call_getter hostMetricGetterFuncRegistry key h in
       [ ("esxi_memory_total_bytes", reading "getMemorySize", name);
         ("esxi_memory_usage_bytes", reading "getMemoryUsage", name);
         ("esxi_cpu_total_mhz", reading "getCPUTotal", name);
         ("esxi_cpu_usage_mhz", reading "getCpuUsage", name);
         ("esxi_connected_state", reading "getConnectedState", name);
         ("esxi_disconnected_state", reading "getDisconnectedState", name);
         ("esxi_not_responding_state", reading "getNotRespondingState",
          name) ]) /\
  (forall d,
     map exposition (datastore_samples Flat.datastoreLabelNames [] d)
     = let name := [DsName (DatastoreSummary d)] in
       let reading := fun key =>
         call_getter datastoreMetricGetterFuncRegistry key d in
       [ ("datastore_capacity_bytes", reading "getCapacity", name);
         ("datastore_free_space_bytes", reading "getFreeSpace", name);
         ("datastore_accessibility", reading "getAccessibility", name) ]) /\
  ~ In Panics (solo inv i (Flat.collectHostMetrics wg) f v u) /\
  ~ In Panics (solo inv i (Flat.collectDatastoreMetrics wg) f v u).
Proof.
  rewrite solo_flat_hosts, solo_flat_datastores.
  unfold flat_hosts_events, flat_datastores_events.
  split; [| split; [| split; [| split; [| split]]]].
  - destruct (hostView inv) as [hs|]; [| reflexivity].
    cbn [sends flat_map app]. apply sends_map_Sends.
  - destruct (datastoreView inv) as [ds|]; [| reflexivity].
    cbn [sends flat_map app]. apply sends_map_Sends.
  - intros h. reflexivity.
  - intros d. reflexivity.
  - intros [H | H]; [discriminate |].
    destruct (hostView inv) as [hs|].
    + destruct H as [H | H]; [discriminate |].
      exact (Panics_map_Sends _ H).
    + destruct H as [H | []]. discriminate.
  - intros [H | H]; [discriminate |].
    destruct (datastoreView inv) as [ds|].
    + destruct H as [H | H]; [discriminate |].
      exact (Panics_map_Sends _ H).
    + destruct H as [H | []]. discriminate.
Qed.

(** The inventory with another answer to the cluster listing. *)
Definition with_clusters (inv : inventory)
    (clusters : result (list ClusterComputeResource)) : inventory :=
  {| datacenters := datacenters inv;
     clustersOf := fun _ => clusters;
     datastoresOf := datastoresOf inv;
     hostsOf := hostsOf inv;
     hostSystems := hostSystems inv;
     datastoreSummaries := datastoreSummaries inv;
     hostProperties := hostProperties inv;
     hostView := hostView inv;
     datastoreView := datastoreView inv |}.

Lemma perhost_hosts_with_clusters inv cs name c hosts rest :
  perhost_hosts (with_clusters inv cs) name c hosts rest
  = perhost_hosts inv name c hosts rest.
Proof.
  induction hosts as [|host hosts IH]; [reflexivity |].
  cbn [perhost_hosts with_clusters hostProperties].
  destruct (hostProperties inv host) as [h|]; [| reflexivity].
  rewrite IH. reflexivity.
Qed.

Lemma perhost_clusters_with_clusters inv cs name clusters :
  perhost_clusters (with_clusters inv cs) name clusters
  = perhost_clusters inv name clusters.
Proof.
  induction clusters as [|c clusters IH]; [reflexivity |].
  cbn [perhost_clusters with_clusters hostsOf].
  destruct (hostsOf inv c) as [hosts|]; [| reflexivity].
  rewrite perhost_hosts_with_clusters, IH. reflexivity.
Qed.

(** The walk stops at the first cluster whose hosts cannot be listed. *)
Lemma perhost_clusters_stop inv name pre c post :
  hostsOf inv c = Failed ->
  perhost_clusters inv name (pre ++ c :: post)
  = perhost_clusters inv name (pre ++ [c]).
Proof.
  intros Hc. induction pre as [|c0 pre IH].
  - cbn [app perhost_clusters]. rewrite Hc. reflexivity.
  - cbn [app perhost_clusters]. rewrite IH. reflexivity.
Qed.

Lemma writes_app evs evs' : writes (evs ++ evs') = writes evs ++ writes evs'.
Proof. unfold writes. apply flat_map_app. Qed.

Lemma writes_perhost_hosts inv name c hosts rest :
  writes rest = [] -> writes (perhost_hosts inv name c hosts rest) = [].
Proof.
  intros Hr. induction hosts as [|host hosts IH]; [exact Hr |].
  cbn [perhost_hosts]. change (writes (Asks ?r :: ?l)) with (writes l).
  destruct (hostProperties inv host) as [h|]; [| reflexivity].
  rewrite writes_app, writes_map_Sends, IH. reflexivity.
Qed.

Lemma writes_perhost_clusters inv name clusters :
  writes (perhost_clusters inv name clusters) = [].
Proof.
  induction clusters as [|c clusters IH]; [reflexivity |].
  cbn [perhost_clusters]. change (writes (Asks ?r :: ?l)) with (writes l).
  destruct (hostsOf inv c) as [hosts|]; [| reflexivity].
  apply writes_perhost_hosts, IH.
Qed.

(** X9: the collector with one request per host gives up at the first
    cluster whose hosts it cannot list.  When the listing of the hosts
    of a cluster fails, the collector does what it would do if the
    clusters listed after that one did not exist: no request about them,
    no sample of their hosts, although nothing is wrong with them.  It
    never writes the availability flag, in this case or any other. *)
Theorem per_host_walk_stops (inv : inventory) (i wg : nat) (name : string)
    (f : option Datacenter) (v u : float64)
    (pre post : list ClusterComputeResource) (c : ClusterComputeResource) :
  clustersOf inv f = Ok (pre ++ c :: post) ->
  hostsOf inv c = Failed ->
  solo inv i (PerHost.collectHostMetrics wg name) f v u
  = solo (with_clusters inv (Ok (pre ++ [c]))) i
      (PerHost.collectHostMetrics wg name) f v u /\
  writes (solo inv i (PerHost.collectHostMetrics wg name) f v u) = [].
Proof.
  intros Hcs Hc. rewrite !solo_perhost, Hcs.
  cbn [with_clusters clustersOf].
  rewrite perhost_clusters_with_clusters.
  rewrite (perhost_clusters_stop inv name pre c post Hc).
  split; [reflexivity |].
  change (writes (Asks ?r :: ?l)) with (writes l).
  apply writes_perhost_clusters.
Qed.

(** Two clusters; the hosts of the first cannot be listed, the second has
    one host. *)
Definition cluster2 : ClusterComputeResource :=
  {| Reference := Sample.ref "ClusterComputeResource" "domain-c2";
     Name := "cluster2" |}.

Definition broken_cluster : inventory :=
  {| datacenters := Ok [Sample.dc1];
     clustersOf := fun _ => Ok [Sample.cluster1; cluster2];
     datastoresOf := fun _ => Ok [];
     hostsOf := fun c =>
       if String.eqb (Name c) "cluster1" then Failed else Ok [Sample.esx1];
     hostSystems := fun _ => Ok [Sample.host1];
     datastoreSummaries := fun _ => Ok [];
     hostProperties := fun _ => Ok Sample.host1;
     hostView := Ok [Sample.host1];
     datastoreView := Ok [] |}.

Lemma per_host_walk_stops_witness :
  solo broken_cluster 1 (PerHost.collectHostMetrics 0 "dc1")
    (Some Sample.dc1) 1 0
  = solo (with_clusters broken_cluster (Ok ([] ++ [Sample.cluster1]))) 1
      (PerHost.collectHostMetrics 0 "dc1") (Some Sample.dc1) 1 0 /\
  writes (solo broken_cluster 1 (PerHost.collectHostMetrics 0 "dc1")
            (Some Sample.dc1) 1 0) = [].
Proof.
  apply (per_host_walk_stops broken_cluster 1 0 "dc1" (Some Sample.dc1) 1 0
           [] [cluster2] Sample.cluster1); reflexivity.
Defined.

(** The host of the second cluster is not reported. *)
Example broken_cluster_walk :
  solo broken_cluster 1 (PerHost.collectHostMetrics 0 "dc1")
    (Some Sample.dc1) 1 0
  = [ Asks (existT _ ClusterComputeResourceList);
      Asks (existT _ (Hosts Sample.cluster1)) ].
Proof. reflexivity. Qed.

(** ** A goroutine and the goroutines it started *)

(** The goroutines that started a goroutine, in the order of the starts:
    goroutine [j + 1] of the pool was started by goroutine
    [starters tr !! j]. *)
Definition starters (tr : list (nat * event)) : list nat :=
  flat_map (fun x => match snd x with Starts _ => [fst x] | _ => [] end) tr.

Lemma starters_app tr tr' : starters (tr ++ tr') = starters tr ++ starters tr'.
Proof. apply flat_map_app. Qed.

Lemma starters_head i st p :
  starters (map (pair i) (head_events st p))
  = match spawned p with Some _ => [i] | None => [] end.
Proof. destruct p; reflexivity. Qed.

(** While it has not called [Done], the code of a goroutine owes it to
    one WaitGroup only. *)
Lemma wf_owner inv p :
  forall j o ph o' ph',
    wf p j o ph -> wf p j o' ph' -> nopanic inv p -> o = o'.
Proof.
  induction p as [| |m k IH|k IH|k IH|v k IH|k IH|dc k IH|A c k IH|k IH
                 |w n k IH|w k IH|w k IH|child IHc k IH];
    intros j o ph o' ph'; cbn; try (intros; eapply IH; eassumption).
  - intros [-> _] [-> _] _. reflexivity.
  - intros _ _ [].
  - intros H H' Hn. exact (IH 0 _ _ _ _ _ (H 0) (H' 0) (Hn 0)).
  - intros H H' Hn.
    exact (IH _ _ _ _ _ _ (H _) (H' _) (Hn None)).
  - intros [_ H] [_ H'] Hn. exact (IH _ _ _ _ _ _ H H' (Hn j)).
  - intros (_ & _ & m & _ & H) (_ & _ & m' & _ & H') Hn.
    exact (IH _ _ _ _ _ H H' Hn).
  - intros (-> & _) (-> & _) _. reflexivity.
  - intros (_ & _ & H) (_ & _ & H') Hn. exact (IH _ _ _ _ _ H H' Hn).
  - intros (m & _ & _ & H) (m' & _ & _ & H') [_ Hn].
    exact (IH _ _ _ _ _ H H' Hn).
Qed.

(** A step keeps the debt, or pays it and returns. *)
Lemma wf_succ inv st j p k w ph :
  wf p j (Some w) ph -> succ inv st j p = Some k ->
  k = Return \/ exists ph', wf k j (Some w) ph'.
Proof.
  destruct p as [| |m k0|k0|k0|v k0|k0|dc k0|A c k0|k0
                |w0 n k0|w0 k0|w0 k0|child k0];
    cbn; intros H [= <-].
  - right. exists ph. exact H.
  - right. exists ph. exact H.
  - right. exists ph. apply H.
  - right. exists ph. exact H.
  - right. exists ph. exact H.
  - right. exists ph. exact H.
  - right. exists ph. apply H.
  - right. exists Pre. apply H.
  - right. destruct H as (_ & _ & m & _ & H). eauto.
  - left. apply H.
  - right. destruct H as (_ & _ & H). eauto.
  - right. destruct H as (m & _ & _ & H). eauto.
Qed.

Section Parents.
Variable inv : inventory.

(** Every goroutine started still owes a [Done] to the WaitGroup of the
    goroutine that started it, or has returned. *)
Definition parents (st : state) (tr : list (nat * event)) : Prop :=
  S (length (starters tr)) = length (goroutines st) /\
  forall j i c,
    starters tr !! j = Some i ->
    code <$> (goroutines st !! S j) = Some c ->
    c = Return \/ exists ph, wf c (S j) (Some i) ph.

Lemma parents_start e main : parents (start e main) [].
Proof. split; [reflexivity |]. intros j i c Hj. discriminate. Qed.

Lemma parents_step i st st' tr :
  (exists G, accounted (goroutines st) G) -> panicked st' = false ->
  parents st tr -> step_goroutine inv i st = Some st' ->
  parents st' (tr ++ step_events i st).
Proof.
  intros [G HG] Halive [Hlen Hpar] Hstep.
  destruct (step_effect _ _ _ _ Hstep)
    as (_ & g & Hg & [-> | (_ & k & Hk & Hpool & _)]); [discriminate |].
  pose proof (step_length _ _ _ _ _ Hstep Hg) as Hl.
  pose proof (lookup_lt_Some _ _ _ Hg) as Hi.
  unfold parents, step_events. rewrite Hg, starters_app, starters_head.
  split.
  - rewrite length_app, Hl. destruct (spawned (code g)); cbn; lia.
  - intros j p c Hj Hc. rewrite Hpool in Hc.
    destruct (Nat.eqb_spec (S j) i) as [<- | Hne].
    + (* the goroutine that moved *)
      injection Hc as <-.
      rewrite lookup_app_l in Hj by lia.
      destruct (Hpar j p (code g) Hj ltac:(rewrite Hg; reflexivity))
        as [Hret | [ph Hwf]].
      * rewrite Hret in Hk. discriminate.
      * eapply wf_succ; eassumption.
    + destruct (Nat.eqb_spec (S j) (length (goroutines st))) as [Hnew | Hold].
      * (* the goroutine that was started *)
        rewrite lookup_app_r in Hj by lia.
        assert (Hz : (j - length (starters tr) = 0)%nat) by lia.
        rewrite Hz in Hj.
        destruct (code g) as [| |m k0|k0|k0|v k0|k0|dc k0|A c0 k0|k0
                             |w n k0|w k0|w k0|child k0] eqn:Hcode;
          try discriminate.
        cbn in Hj, Hc. injection Hj as <-. injection Hc as <-.
        right. exists Pre.
        destruct (accounted_lookup _ _ _ _ HG Hg) as (o & ph & _ & Hok).
        destruct Hok as (Hwf & _). rewrite Hcode in Hwf. cbn in Hwf.
        destruct Hwf as (m & _ & Hchild & _). apply Hchild.
      * assert (Hj' : (S j < length (goroutines st))%nat).
        { destruct (goroutines st !! S j) as [gj|] eqn:Hgj; [| discriminate].
          eapply lookup_lt_Some, Hgj. }
        rewrite lookup_app_l in Hj by lia.
        apply (Hpar j p c Hj Hc).
Qed.

(** A goroutine that has returned left no goroutine behind. *)
Lemma parents_barrier st tr G i j c :
  accounted (goroutines st) G -> safe inv st -> parents st tr ->
  starters tr !! j = Some i ->
  code <$> (goroutines st !! i) = Some Return ->
  code <$> (goroutines st !! S j) = Some c -> c = Return.
Proof.
  intros HG [_ Hsafe] [_ Hpar] Hj Hi Hc.
  destruct (Hpar j i c Hj Hc) as [Hret | [ph Hwf]]; [exact Hret |].
  exfalso.
  destruct (goroutines st !! S j) as [gj|] eqn:Hgj; [| discriminate].
  injection Hc as Hc.
  destruct (accounted_lookup _ _ _ _ HG Hgj) as (o & ph0 & HGj & Hok).
  destruct Hok as (Hwf0 & _). rewrite Hc in Hwf0.
  assert (Hn : nopanic inv c)
    by (apply (Hsafe (S j)); rewrite Hgj; cbn; f_equal; exact Hc).
  pose proof (wf_owner inv c _ _ _ _ _ Hwf0 Hwf Hn) as ->.
  pose proof (children_pos _ _ _ _ HGj) as Hpos.
  destruct (goroutines st !! i) as [gi|] eqn:Hgi; [| discriminate].
  injection Hi as Hi.
  destruct (accounted_lookup _ _ _ _ HG Hgi) as (oi & phi & HGi & Hoki).
  destruct Hoki as (Hwfi & _). rewrite Hi in Hwfi. cbn in Hwfi.
  destruct Hwfi as [_ Hq].
  rewrite (no_children_when_quiescent _ _ _ _ _ _ HG Hgi HGi Hq) in Hpos.
  lia.
Qed.
End Parents.

(** X10: [Wait] is a barrier for every goroutine of a by-cluster poll.
    At any moment of any schedule, when a goroutine has returned every
    goroutine that it started has returned before it: [Collect] returns
    after its collectors, and a host collector after the goroutines of
    its clusters, so that the collector's own [Done] is not called while
    one of them may still send a sample. *)
Theorem wait_is_a_barrier (inv : inventory) (e : Exporter)
    (schedule : list nat) (i j : nat) :
  let st := run inv schedule (start e ByCluster.Collect) in
  let tr := trace inv schedule (start e ByCluster.Collect) in
  S (length (starters tr)) = length (goroutines st) /\
  (starters tr !! j = Some i ->
   code <$> (goroutines st !! i) = Some Return ->
   code <$> (goroutines st !! S j) = Some Return).
Proof.
  intros st tr.
  assert (Hq : poll_state inv e st)
    by apply poll_state_run, poll_state_start.
  assert (Hpar : parents st tr).
  { apply (trace_invariant inv (poll_state inv e) parents
             (poll_state_step inv e)) with (tr := []).
    - intros i0 s s' t Hs Hs' Ht Hstep.
      apply (parents_step inv i0 s s' t); try assumption.
      + apply Hs.
      + apply (poll_state_alive inv e s' Hs').
    - apply poll_state_start.
    - apply parents_start. }
  split; [apply Hpar |].
  intros Hj Hi.
  destruct Hq as (([G HG] & Hsafe & _) & _).
  assert (Hlt : (S j < length (goroutines st))%nat).
  { destruct Hpar as [Hlen _]. apply lookup_lt_Some in Hj. lia. }
  destruct (lookup_lt_is_Some_2 _ _ Hlt) as [gj Hgj].
  rewrite Hgj. cbn. f_equal.
  apply (parents_barrier inv st tr G i j (code gj) HG Hsafe Hpar Hj Hi).
  rewrite Hgj. reflexivity.
Qed.

(** ** The samples of a poll, whatever the schedule *)

Lemma flat_map_flat_map {A B C : Type} (f : B -> list C) (g : A -> list B)
    (l : list A) :
  flat_map f (flat_map g l) = flat_map (fun x => flat_map f (g x)) l.
Proof.
  induction l as [|x l IH]; [reflexivity |].
  cbn [flat_map]. rewrite flat_map_app, IH. reflexivity.
Qed.

Lemma flat_map_split {A B : Type} (f g : A -> list B) (l : list A) :
  Permutation (flat_map (fun x => f x ++ g x) l)
    (flat_map f l ++ flat_map g l).
Proof.
  induction l as [|x l IH]; [constructor |].
  cbn [flat_map]. rewrite IH, <- !app_assoc.
  apply Permutation_app_head.
  rewrite !app_assoc. apply Permutation_app_tail, Permutation_app_comm.
Qed.

Lemma flat_map_pick {B : Type} (X : list B) i n :
  forall a,
    flat_map (fun j => if Nat.eqb i j then X else []) (seq a n)
    = if ((a <=? i) && (i <? a + n))%nat then X else [].
Proof.
  induction n as [|n IH]; intros a.
  - cbn [seq flat_map].
    destruct (Nat.leb_spec a i); destruct (Nat.ltb_spec i (a + 0));
      cbn; try reflexivity; lia.
  - cbn [seq flat_map]. rewrite IH.
    destruct (Nat.eqb_spec i a) as [-> | Hne].
    + destruct (Nat.leb_spec (S a) a); [lia |].
      destruct (Nat.leb_spec a a); [| lia].
      destruct (Nat.ltb_spec a (a + S n)); [| lia].
      cbn. apply app_nil_r.
    + destruct (Nat.leb_spec (S a) i); destruct (Nat.leb_spec a i);
        destruct (Nat.ltb_spec i (S a + n));
        destruct (Nat.ltb_spec i (a + S n)); cbn; try reflexivity; lia.
Qed.

Lemma flat_map_seq_lookup {A B : Type} (L : list A) (F : nat -> list B)
    (G : A -> list B) :
  forall a,
    (forall j p, L !! j = Some p -> F (a + j)%nat = G p) ->
    flat_map F (seq a (length L)) = flat_map G L.
Proof.
  induction L as [|x L IH]; intros a H; [reflexivity |].
  cbn [length seq flat_map]. f_equal.
  - rewrite <- (H 0%nat x eq_refl). f_equal. lia.
  - apply IH. intros j p Hj.
    rewrite <- (H (S j) p Hj). f_equal. lia.
Qed.

Lemma flat_map_nil {A B : Type} (f : A -> list B) (l : list A) :
  (forall x, In x l -> f x = []) -> flat_map f l = [].
Proof.
  induction l as [|x l IH]; intros H; [reflexivity |].
  cbn [flat_map]. rewrite (H x (or_introl eq_refl)).
  apply IH. intros y Hy. apply H. right. exact Hy.
Qed.

Lemma starts_map_Starts {A : Type} (child : A -> prog) (l : list A) :
  starts (map (fun x => Starts (child x)) l) = map child l.
Proof.
  unfold starts. induction l as [|x l IH]; [reflexivity |].
  cbn [map flat_map app]. rewrite IH. reflexivity.
Qed.

Lemma sends_map_Starts {A : Type} (child : A -> prog) (l : list A) :
  sends (map (fun x => Starts (child x)) l) = [].
Proof. induction l as [|x l IH]; [reflexivity | exact IH]. Qed.

Lemma starts_cluster_events inv name cluster :
  starts (cluster_events inv name cluster) = [].
Proof.
  destruct (starts _) as [|q l] eqn:Hq; [reflexivity |]. exfalso.
  apply (Starts_cluster_events inv name cluster q).
  apply In_starts. rewrite Hq. left. reflexivity.
Qed.

Lemma starts_datastores_events inv name f :
  starts (datastores_events inv name f) = [].
Proof.
  destruct (starts _) as [|q l] eqn:Hq; [reflexivity |]. exfalso.
  apply (Starts_datastores_events inv name f q).
  apply In_starts. rewrite Hq. left. reflexivity.
Qed.

(** The events of a trace, goroutine by goroutine. *)
Lemma trace_buckets (tr : list (nat * event)) (N : nat) :
  (forall i ev, In (i, ev) tr -> (i < N)%nat) ->
  Permutation (map snd tr) (flat_map (fun j => events_of j tr) (seq 0 N)).
Proof.
  induction tr as [|[i ev] tr IH]; intros Htags.
  - cbn [map]. unfold events_of. cbn [flat_map].
    induction (seq 0 N) as [|j l IHl]; [constructor | exact IHl].
  - assert (Hi : (i < N)%nat) by (apply (Htags i ev); left; reflexivity).
    change (fun j => events_of j ((i, ev) :: tr))
      with (fun j => (if Nat.eqb i j then [ev] else []) ++ events_of j tr).
    rewrite flat_map_split, flat_map_pick.
    destruct (Nat.leb_spec 0 i); [| lia].
    destruct (Nat.ltb_spec i (0 + N)); [| lia].
    cbn [andb map snd app]. constructor.
    apply IH. intros i' ev' Hin. apply (Htags i' ev'). right. exact Hin.
Qed.

(** The code that starts with the listing of the clusters. *)
Definition lists_clusters (p : prog) : bool :=
  match p with
  | Call c _ =>
      match c with ClusterComputeResourceList => true | _ => false end
  | _ => false
  end.

(** ** One datacenter

    What is observed of a finished poll of one datacenter, whatever the
    schedule: [pick] chooses what is observed of an event, and nothing of
    a start. *)
Section SingleDatacenter.
Variable inv : inventory.
Variable e : Exporter.
Variable schedule : list nat.
Variable dc : Datacenter.
Hypothesis listing : datacenters inv = Ok [dc].
Variable B : Type.
Variable pick : event -> list B.
Hypothesis pick_Starts : forall c, pick (Starts c) = [].

Let cH := ByCluster.collectHostMetrics.
Let cD := ByCluster.collectDatastoreMetrics.
Let st := run inv schedule (start e ByCluster.Collect).
Let tr := trace inv schedule (start e ByCluster.Collect).
Hypothesis done : finished st = true.

Let obs (evs : list event) : list B := flat_map pick evs.

(** What is observed of the goroutines of the clusters. *)
Definition observed_clusters : list B :=
  match clustersOf inv (Some dc) with
  | Failed => []
  | Ok clusters =>
      flat_map (fun c => flat_map pick (cluster_events inv (Name dc) c))
        clusters
  end.

Let seen_by (p : prog) : list B := obs (solo inv 0 p (Some dc) 0 0).
Let seen_below (p : prog) : list B :=
  if lists_clusters p then observed_clusters else [].
Let children : list prog :=
  flat_map (fun j => starts (events_of (S j) tr)) (seq 0 (length (started tr))).

Lemma only_dc f : In f [dc] -> f = dc.
Proof. intros [<- | []]. reflexivity. Qed.

Lemma obs_map_Starts {A : Type} (child : A -> prog) (l : list A) :
  obs (map (fun x => Starts (child x)) l) = [].
Proof.
  unfold obs. apply flat_map_nil. intros ev Hev.
  apply in_map_iff in Hev. destruct Hev as (x & <- & _). apply pick_Starts.
Qed.

Lemma obs_hosts_events i name f :
  obs (hosts_events inv i name f)
  = pick (Asks (existT _ ClusterComputeResourceList)).
Proof.
  unfold hosts_events, obs. cbn [flat_map]. fold (obs).
  destruct (clustersOf inv f) as [clusters|].
  - change (flat_map pick ?l) with (obs l).
    rewrite obs_map_Starts. apply app_nil_r.
  - apply app_nil_r.
Qed.

Lemma goroutine_report j p :
  started tr !! j = Some p ->
  obs (events_of (S j) tr) = seen_by p /\
  flat_map seen_by (starts (events_of (S j) tr)) = seen_below p /\
  (forall q, In q (starts (events_of (S j) tr)) -> seen_below q = []).
Proof.
  intros Hj. unfold seen_by, seen_below.
  destruct (poll_origin inv e schedule [dc] listing done j p Hj)
    as [(dc' & Hdc & ->)
       | [(dc' & Hdc & ->)
         | (j' & dc' & f & clusters & cluster & Hdc & Hf & _ & _ & _ & ->)]];
    apply only_dc in Hdc; subst dc'.
  - destruct (hosts_collector_events inv e schedule [dc] listing done j dc Hj)
      as (f & Hf & Hev).
    apply only_dc in Hf. subst f. fold tr in Hev. rewrite Hev.
    rewrite solo_hosts_collector, !obs_hosts_events.
    change (lists_clusters (ByCluster.collectHostMetrics 0 (Name dc)))
      with true.
    split; [reflexivity |].
    unfold hosts_events, observed_clusters.
    destruct (clustersOf inv (Some dc)) as [clusters|];
      [| repeat split; intros q []; discriminate].
    change (starts (Asks ?r :: ?l)) with (starts l).
    rewrite !starts_map_Starts.
    split.
    + induction clusters as [|c clusters IH]; [reflexivity |].
      cbn [map flat_map]. rewrite IH, solo_cluster. reflexivity.
    + intros q Hq. apply in_map_iff in Hq. destruct Hq as (c & <- & _).
      reflexivity.
  - destruct (datastores_collector_events inv e schedule [dc] listing done
                j dc Hj) as (f & Hf & Hev).
    apply only_dc in Hf. subst f. fold tr in Hev. rewrite Hev.
    rewrite solo_datastores_collector.
    change (lists_clusters (ByCluster.collectDatastoreMetrics 0 (Name dc)))
      with false.
    rewrite starts_datastores_events. repeat split. intros q [].
  - pose proof (cluster_goroutine_events inv e schedule done j _ _ _ Hj)
      as Hev.
    fold tr in Hev. rewrite Hev, solo_cluster.
    change (lists_clusters
              (ByCluster.collectHostMetricFromCluster (S j') (Name dc)
                 cluster)) with false.
    rewrite starts_cluster_events. repeat split. intros q [].
Qed.

Lemma tags_bound :
  forall i ev, In (i, ev) tr -> (i < S (length (started tr)))%nat.
Proof.
  intros i ev Hin.
  destruct (poll_adequate inv e schedule) as (Hlen & Htags & _).
  fold st tr in Hlen, Htags. rewrite Hlen. apply (Htags i ev Hin).
Qed.

Lemma seq_S_flat_map {C : Type} (F : nat -> list C) n :
  flat_map F (seq 0 (S n)) = F 0%nat ++ flat_map (fun j => F (S j)) (seq 0 n).
Proof.
  cbn [seq flat_map]. f_equal.
  rewrite <- seq_shift, flat_map_concat_map, map_map,
          <- flat_map_concat_map.
  reflexivity.
Qed.

(** The goroutines started: the two collectors and what the goroutines
    started. *)
Lemma started_split :
  Permutation (started tr)
    (cH 0%nat (Name dc) :: cD 0%nat (Name dc) :: children).
Proof.
  pose proof (main_events inv e schedule done) as Hmain. fold tr in Hmain.
  unfold started at 1, starts.
  rewrite (trace_buckets tr _ tags_bound).
  rewrite flat_map_flat_map, seq_S_flat_map. cbv beta.
  change (flat_map (fun ev => match ev with Starts c => [c] | _ => [] end))
    with starts.
  rewrite Hmain, (starts_Collect_events inv _ _ _ [dc] listing).
  cbn [flat_map app]. reflexivity.
Qed.

Lemma children_below : flat_map seen_below children = [].
Proof.
  unfold children. rewrite flat_map_flat_map.
  apply flat_map_nil. intros j _. apply flat_map_nil. intros q Hq.
  assert (Hin : In (Starts q) (events_of (S j) tr)) by apply In_starts, Hq.
  destruct (event_goroutine inv e schedule j _ Hin) as [p Hp].
  fold tr in Hp.
  destruct (goroutine_report j p Hp) as (_ & _ & Hbelow).
  apply Hbelow, Hq.
Qed.

Lemma below_total :
  Permutation (flat_map seen_below (started tr)) observed_clusters.
Proof.
  rewrite started_split. cbn [flat_map].
  rewrite children_below. unfold seen_below at 1 2.
  change (lists_clusters (cH 0%nat (Name dc))) with true.
  change (lists_clusters (cD 0%nat (Name dc))) with false.
  cbn [app]. rewrite app_nil_r. reflexivity.
Qed.

Lemma children_seen :
  flat_map seen_by children = flat_map seen_below (started tr).
Proof.
  unfold children. rewrite flat_map_flat_map.
  apply (flat_map_seq_lookup (started tr) _ seen_below 0).
  intros j p Hj. apply (goroutine_report j p Hj).
Qed.

(** What is observed of the whole poll: what is observed of [Collect],
    of the listing of the clusters, of the datastore collector and of
    the goroutine of each cluster. *)
Lemma single_datacenter_observed :
  Permutation (flat_map pick (map snd tr))
    (flat_map pick (Collect_events inv cH cD (e_up e))
     ++ pick (Asks (existT _ ClusterComputeResourceList))
     ++ flat_map pick (datastores_events inv (Name dc) (Some dc))
     ++ observed_clusters).
Proof.
  pose proof (main_events inv e schedule done) as Hmain. fold tr in Hmain.
  rewrite (trace_buckets tr _ tags_bound).
  rewrite flat_map_flat_map, seq_S_flat_map. cbv beta.
  rewrite Hmain. apply Permutation_app_head.
  change (fun j => flat_map pick (events_of (S j) tr))
    with (fun j => obs (events_of (S j) tr)).
  rewrite (flat_map_seq_lookup (started tr) _ seen_by 0)
    by (intros j p Hj; apply (goroutine_report j p Hj)).
  rewrite started_split. cbn [flat_map].
  rewrite children_seen, below_total.
  unfold seen_by at 1 2. unfold cH, cD.
  rewrite solo_hosts_collector, solo_datastores_collector, obs_hosts_events.
  reflexivity.
Qed.
End SingleDatacenter.

(** The objects that the bulk retrievals of a datacenter and of a cluster
    return: none when the listing fails or is empty, or when the
    retrieval fails. *)
Definition retrieved_datastores (inv : inventory) (dc : Datacenter)
  : list Datastore :=
  match datastoresOf inv (Some dc) with
  | Ok (d0 :: datastores) =>
      match datastoreSummaries inv (map Reference (d0 :: datastores)) with
      | Ok ds => ds
      | Failed => []
      end
  | _ => []
  end.

Definition retrieved_hosts (inv : inventory) (c : ClusterComputeResource)
  : list HostSystem :=
  match hostsOf inv c with
  | Ok (h0 :: hosts) =>
      match hostSystems inv (map Reference (h0 :: hosts)) with
      | Ok hs => hs
      | Failed => []
      end
  | _ => []
  end.

(** What a scrape of the datacenter [dc] is to report. *)
Definition scrape (inv : inventory) (dc : Datacenter) : list Metric :=
  flat_map (datastore_samples ByCluster.datastoreLabelNames [Name dc])
    (retrieved_datastores inv dc)
  ++ match clustersOf inv (Some dc) with
     | Failed => []
     | Ok clusters =>
         flat_map (fun c =>
           flat_map (host_samples ByCluster.hostLabelNames [Name dc; Name c])
             (retrieved_hosts inv c)) clusters
     end.

(** What is observed of an event when the samples are observed, and when
    the requests are. *)
Definition pick_sample (ev : event) : list Metric :=
  match ev with Sends m => [m] | _ => [] end.

Definition pick_request (ev : event) : list (sigT request) :=
  match ev with Asks c => [c] | _ => [] end.

Lemma scrape_parts (inv : inventory) (dc : Datacenter) :
  sends (datastores_events inv (Name dc) (Some dc))
  ++ observed_clusters inv dc Metric pick_sample
  = scrape inv dc.
Proof.
  unfold scrape, observed_clusters. f_equal.
  - unfold datastores_events, retrieved_datastores.
    change (sends (Asks ?r :: ?l)) with (sends l).
    destruct (datastoresOf inv (Some dc)) as [[|d0 dss]|]; try reflexivity.
    change (sends (Asks ?r :: ?l)) with (sends l).
    destruct (datastoreSummaries inv (map Reference (d0 :: dss))) as [ds|];
      [| reflexivity].
    apply sends_map_Sends.
  - destruct (clustersOf inv (Some dc)) as [clusters|]; [| reflexivity].
    induction clusters as [|c clusters IH]; [reflexivity |].
    cbn [flat_map]. rewrite IH. f_equal.
    change (flat_map pick_sample ?l) with (sends l).
    unfold cluster_events, retrieved_hosts.
    change (sends (Asks ?r :: ?l)) with (sends l).
    destruct (hostsOf inv c) as [[|h0 hosts]|]; try reflexivity.
    change (sends (Asks ?r :: ?l)) with (sends l).
    rewrite sends_map_Sends.
    destruct (hostSystems inv (map Reference (h0 :: hosts))) as [hs|];
      reflexivity.
Qed.

(** X11: with one datacenter the scrape does not depend on the schedule.
    When the listing yields one datacenter, the channel of a finished
    by-cluster poll holds, in some order, the up gauge, the availability
    metric with value 1, the samples of every datastore that the
    retrieval of the datacenter returned and the samples of every host
    that the retrieval of each of its clusters returned, each sample
    once and nothing else; two finished polls of the same inventory
    differ only in the order of the samples. *)
Theorem scrape_is_schedule_independent (inv : inventory) (e : Exporter)
    (schedule schedule' : list nat) (dc : Datacenter) :
  datacenters inv = Ok [dc] ->
  finished (run inv schedule (start e ByCluster.Collect)) = true ->
  finished (run inv schedule' (start e ByCluster.Collect)) = true ->
  Permutation (chan (run inv schedule (start e ByCluster.Collect)))
    (up_metric e :: available_metric 1 :: scrape inv dc) /\
  Permutation (chan (run inv schedule (start e ByCluster.Collect)))
    (chan (run inv schedule' (start e ByCluster.Collect))).
Proof.
  intros Hd Hf Hf'.
  assert (H : forall s,
            finished (run inv s (start e ByCluster.Collect)) = true ->
            Permutation (chan (run inv s (start e ByCluster.Collect)))
              (up_metric e :: available_metric 1 :: scrape inv dc)).
  { intros s Hs. rewrite (poll_chan inv e s).
    change (sends ?l) with (flat_map pick_sample l).
    rewrite (single_datacenter_observed inv e s dc Hd Metric pick_sample
               (fun _ => eq_refl) Hs).
    unfold Collect_events. rewrite Hd.
    cbn [flat_map pick_sample app].
    change (flat_map pick_sample ?l) with (sends l) at 1.
    rewrite scrape_parts. reflexivity. }
  split; [apply H, Hf |]. rewrite (H _ Hf), (H _ Hf'). reflexivity.
Qed.

(** One datacenter with one host in one cluster and one datastore, and
    two schedules: the cluster goroutine before the datastore collector,
    and after it. *)
Definition host_and_store : inventory :=
  {| datacenters := Ok [Sample.dc1];
     clustersOf := fun _ => Ok [Sample.cluster1];
     datastoresOf := fun _ => Ok [Sample.store1];
     hostsOf := fun _ => Ok [Sample.esx1];
     hostSystems := fun _ => Ok [Sample.host1];
     datastoreSummaries := fun _ => Ok [Sample.datastore1];
     hostProperties := fun _ => Ok Sample.host1;
     hostView := Ok [Sample.host1];
     datastoreView := Ok [Sample.datastore1] |}.

Definition hosts_first : list nat :=
  repeat 0%nat 12 ++ repeat 1%nat 8 ++ repeat 3%nat 30 ++ repeat 2%nat 20
  ++ repeat 1%nat 4 ++ repeat 0%nat 4.

Definition datastores_first : list nat :=
  repeat 0%nat 12 ++ repeat 2%nat 20 ++ repeat 1%nat 8 ++ repeat 3%nat 30
  ++ repeat 1%nat 4 ++ repeat 0%nat 4.

Lemma scrape_is_schedule_independent_witness :
  Permutation
    (chan (run host_and_store hosts_first
             (start NewExporter ByCluster.Collect)))
    (up_metric NewExporter :: available_metric 1
     :: scrape host_and_store Sample.dc1) /\
  Permutation
    (chan (run host_and_store hosts_first
             (start NewExporter ByCluster.Collect)))
    (chan (run host_and_store datastores_first
             (start NewExporter ByCluster.Collect))).
Proof.
  apply (scrape_is_schedule_independent host_and_store NewExporter
           hosts_first datastores_first Sample.dc1).
  - reflexivity.
  - vm_compute. reflexivity.
  - vm_compute. reflexivity.
Defined.

(** The two schedules do send the samples in different orders. *)
Example schedules_differ :
  chan (run host_and_store hosts_first (start NewExporter ByCluster.Collect))
  <> chan (run host_and_store datastores_first
             (start NewExporter ByCluster.Collect)).
Proof. vm_compute. discriminate. Qed.

(** The requests of a scrape of the datacenter [dc]: the three listings,
    the listing of the hosts of each cluster, and one retrieval for the
    datastores and for the hosts of each cluster, unless there is
    none. *)
Definition requests (inv : inventory) (dc : Datacenter)
  : list (sigT request) :=
  existT _ DatacenterList
  :: existT _ ClusterComputeResourceList
  :: existT _ DatastoreList
  :: match datastoresOf inv (Some dc) with
     | Ok (d0 :: datastores) =>
         [ existT _ (RetrieveDatastores (map Reference (d0 :: datastores))) ]
     | _ => []
     end
  ++ match clustersOf inv (Some dc) with
     | Failed => []
     | Ok clusters =>
         flat_map (fun c =>
           existT _ (Hosts c)
           :: match hostsOf inv c with
              | Ok (h0 :: hosts) =>
                  [ existT _ (RetrieveHostSystems
                                (map Reference (h0 :: hosts))) ]
              | _ => []
              end) clusters
     end.

Lemma asks_datastores_events inv name f :
  asks (datastores_events inv name f)
  = existT _ DatastoreList
    :: match datastoresOf inv f with
       | Ok (d0 :: datastores) =>
           [ existT _ (RetrieveDatastores (map Reference (d0 :: datastores))) ]
       | _ => []
       end.
Proof.
  unfold datastores_events.
  change (asks (Asks ?r :: ?l)) with (r :: asks l). f_equal.
  destruct (datastoresOf inv f) as [[|d0 dss]|]; try reflexivity.
  change (asks (Asks ?r :: ?l)) with (r :: asks l). f_equal.
  destruct (datastoreSummaries inv (map Reference (d0 :: dss)));
    [apply asks_map_Sends | reflexivity].
Qed.

Lemma asks_cluster_events inv name c :
  asks (cluster_events inv name c)
  = existT _ (Hosts c)
    :: match hostsOf inv c with
       | Ok (h0 :: hosts) =>
           [ existT _ (RetrieveHostSystems (map Reference (h0 :: hosts))) ]
       | _ => []
       end.
Proof.
  unfold cluster_events.
  change (asks (Asks ?r :: ?l)) with (r :: asks l). f_equal.
  destruct (hostsOf inv c) as [[|h0 hosts]|]; try reflexivity.
  change (asks (Asks ?r :: ?l)) with (r :: asks l). f_equal.
  apply asks_map_Sends.
Qed.

(** X14: the requests of a scrape.  When the listing yields one
    datacenter, a finished by-cluster poll has sent, in some order, the
    datacenter listing, one cluster listing, one datastore listing, one
    host listing per cluster, one retrieval for all the datastores listed
    and one retrieval per cluster for all its hosts, the retrieval being
    left out where nothing was listed; no request is sent twice and none
    is sent per object.  The flag was written once, by [Collect], with
    the value 1. *)
Theorem requests_of_a_scrape (inv : inventory) (e : Exporter)
    (schedule : list nat) (dc : Datacenter) :
  datacenters inv = Ok [dc] ->
  finished (run inv schedule (start e ByCluster.Collect)) = true ->
  let tr := trace inv schedule (start e ByCluster.Collect) in
  Permutation (asks (map snd tr)) (requests inv dc) /\
  writes (map snd tr) = [1].
Proof.
  intros Hd Hf tr. split.
  - change (asks ?l) with (flat_map pick_request l).
    unfold tr.
    rewrite (single_datacenter_observed inv e schedule dc Hd _ pick_request
               (fun _ => eq_refl) Hf).
    unfold Collect_events, requests, observed_clusters. rewrite Hd.
    change (flat_map pick_request ?l) with (asks l).
    rewrite asks_datastores_events.
    assert (Hmain : forall (l : list Datacenter) u,
              asks (Sends u :: Asks (existT _ DatacenterList) :: Writes 1
                    :: flat_map (fun d =>
                         [Starts (ByCluster.collectHostMetrics 0 (Name d));
                          Starts (ByCluster.collectDatastoreMetrics 0
                                    (Name d))]) l
                    ++ [Sends (available_metric 1)])
              = [existT _ DatacenterList]).
    { intros l u.
      change (asks (Sends ?m :: Asks ?r :: Writes ?w :: ?k)) with (r :: asks k).
      f_equal. unfold asks. rewrite flat_map_app.
      rewrite flat_map_nil; [reflexivity |].
      intros ev Hev. apply in_flat_map in Hev.
      destruct Hev as (d & _ & [<- | [<- | []]]); reflexivity. }
    rewrite Hmain. cbn [app pick_request].
    do 3 constructor. apply Permutation_app_head.
    destruct (clustersOf inv (Some dc)) as [clusters|]; [| reflexivity].
    induction clusters as [|c clusters IH]; [reflexivity |].
    cbn [flat_map]. rewrite IH.
    change (flat_map pick_request ?l) with (asks l).
    rewrite asks_cluster_events. reflexivity.
  - assert (Hw : forall i v, In (i, Writes v) tr -> i = 0%nat)
      by (intros i v; apply (poll_quiet inv e schedule)).
    pose proof (main_events inv e schedule Hf) as Hmain. fold tr in Hmain.
    assert (Heq : writes (map snd tr) = writes (events_of 0 tr)).
    { clear Hmain. induction tr as [|[i ev] t IH]; [reflexivity |].
      change (events_of 0 ((i, ev) :: t))
        with ((if Nat.eqb i 0 then [ev] else []) ++ events_of 0 t).
      change (map snd ((i, ev) :: t)) with ([ev] ++ map snd t).
      rewrite !writes_app, IH
        by (intros i' v' Hin; apply (Hw i' v'); right; exact Hin).
      f_equal. destruct (Nat.eqb_spec i 0) as [-> | Hne]; [reflexivity |].
      destruct ev; try reflexivity.
      exfalso. apply Hne, (Hw i v). left. reflexivity. }
    rewrite Heq, Hmain. unfold Collect_events. rewrite Hd.
    change (writes (Sends ?m :: Asks ?r :: Writes ?w :: ?k))
      with (w :: writes k).
    reflexivity.
Qed.

Lemma requests_of_a_scrape_witness :
  let tr := trace host_and_store hosts_first
              (start NewExporter ByCluster.Collect) in
  Permutation (asks (map snd tr)) (requests host_and_store Sample.dc1) /\
  writes (map snd tr) = [1].
Proof.
  apply (requests_of_a_scrape host_and_store NewExporter hosts_first
           Sample.dc1).
  - reflexivity.
  - vm_compute. reflexivity.
Defined.

(** ** A failed listing, and the finder *)

(** X12: after a failed datacenter listing the exporter asks nothing
    more.  In a by-cluster poll whose datacenter listing fails, whatever
    the schedule, [Collect] is the only goroutine there ever is, and all
    that happens is that it sends the up gauge, sends the listing request
    and writes 0 to the availability flag: no other request reaches
    vCenter and no collector is started. *)
Theorem failed_listing_asks_nothing_else (inv : inventory) (e : Exporter)
    (schedule : list nat) (i : nat) (ev : event) :
  datacenters inv = Failed ->
  In (i, ev) (trace inv schedule (start e ByCluster.Collect)) ->
  length (goroutines (run inv schedule (start e ByCluster.Collect))) = 1%nat
  /\ i = 0%nat
  /\ (ev = Sends (up_metric e) \/ ev = Asks (existT _ DatacenterList)
      \/ ev = Writes 0).
Proof.
  intros Hd Hin.
  set (st := run inv schedule (start e ByCluster.Collect)).
  set (tr := trace inv schedule (start e ByCluster.Collect)) in *.
  assert (Hone : length (goroutines st) = 1%nat).
  { assert (Hq : poll_state inv e st)
      by apply poll_state_run, poll_state_start.
    destruct (poll_state_alive inv e st Hq) as [_ Hfin].
    destruct (poll_adequate inv e schedule) as (Hlen & _).
    fold st tr in Hlen.
    destruct (length (goroutines st)) as [|[|n]] eqn:Hl; [lia | reflexivity |].
    exfalso. specialize (Hfin ltac:(lia)).
    unfold listed in Hfin. rewrite Hd in Hfin. exact Hfin. }
  split; [exact Hone |].
  assert (Hi : i = 0%nat).
  { destruct (poll_adequate inv e schedule) as (_ & Htags & _).
    specialize (Htags i ev Hin). fold st in Htags. lia. }
  subst i. split; [reflexivity |].
  destruct (poll_main_prefix inv e schedule) as (rest & Heq).
  fold tr in Heq.
  assert (Hev : In ev (Collect_events inv ByCluster.collectHostMetrics
                         ByCluster.collectDatastoreMetrics (e_up e))).
  { rewrite <- Heq. apply in_or_app. left. apply In_events_of, Hin. }
  unfold Collect_events in Hev. rewrite Hd in Hev.
  destruct Hev as [<- | [<- | [<- | []]]]; auto.
Qed.

Lemma failed_listing_asks_nothing_else_witness :
  length (goroutines (run Sample.down [0; 0; 1]%nat
                        (start NewExporter ByCluster.Collect))) = 1%nat
  /\ 0%nat = 0%nat
  /\ (Sends (up_metric NewExporter) = Sends (up_metric NewExporter)
      \/ Sends (up_metric NewExporter) = Asks (existT _ DatacenterList)
      \/ Sends (up_metric NewExporter) = Writes 0).
Proof.
  apply (failed_listing_asks_nothing_else Sample.down NewExporter
           [0; 0; 1]%nat 0 (Sends (up_metric NewExporter))).
  - reflexivity.
  - left. reflexivity.
Defined.

(** X13: the finder is set for the next datacenter before the collectors
    of the previous one have listed.  The finder is one object that
    [Collect] passes to the collectors of every datacenter; whenever the
    listing yields two datacenters there is a schedule, [Collect] running
    through its loop first, after which the host collector and the
    datastore collector started under the name of the first datacenter
    have not yet sent their listings while the finder holds the second
    datacenter: their listings are then answered for the second
    datacenter. *)
Theorem finder_set_before_listing (inv : inventory) (e : Exporter)
    (dc1 dc2 : Datacenter) :
  datacenters inv = Ok [dc1; dc2] ->
  let st := run inv (repeat 0%nat 12) (start e ByCluster.Collect) in
  code <$> (goroutines st !! 1%nat)
  = Some (ByCluster.collectHostMetrics 0 (Name dc1)) /\
  code <$> (goroutines st !! 2%nat)
  = Some (ByCluster.collectDatastoreMetrics 0 (Name dc1)) /\
  finder st = Some dc2 /\
  answer inv (finder st) ClusterComputeResourceList
  = clustersOf inv (Some dc2) /\
  answer inv (finder st) DatastoreList = datastoresOf inv (Some dc2).
Proof.
  intros Hd.
  destruct inv as [d cl ds ho hs dss hp hv dv]. cbn in Hd. subst d.
  cbv -[ByCluster.collectHostMetrics ByCluster.collectDatastoreMetrics].
  repeat split; reflexivity.
Qed.

Lemma finder_set_before_listing_witness :
  let st := run Sample.two_dcs (repeat 0%nat 12)
              (start NewExporter ByCluster.Collect) in
  code <$> (goroutines st !! 1%nat)
  = Some (ByCluster.collectHostMetrics 0 (Name Sample.dc1)) /\
  code <$> (goroutines st !! 2%nat)
  = Some (ByCluster.collectDatastoreMetrics 0 (Name Sample.dc1)) /\
  finder st = Some Sample.dc2 /\
  answer Sample.two_dcs (finder st) ClusterComputeResourceList
  = clustersOf Sample.two_dcs (Some Sample.dc2) /\
  answer Sample.two_dcs (finder st) DatastoreList
  = datastoresOf Sample.two_dcs (Some Sample.dc2).
Proof.
  apply (finder_set_before_listing Sample.two_dcs NewExporter
           Sample.dc1 Sample.dc2).
  reflexivity.
Defined.
